(** * Parser.py: main-content extraction and text reflow

    A shallow embedding of [Parser.py] (classes [Configuration], [Parser]
    and [Formatter]) together with the properties of its pruning,
    preprocessing and text-preparation code.

    Python values are modelled as follows.
    - [str] is a list of characters; a character is a code point below 256.
    - A bs4 tree is the inductive type [node]: a [NavigableString] or a
      [Tag] with its name, its attributes and its ordered contents.
    - A [dict] is the list of its entries in insertion order.
    - [COEFF] (a float in the source) is a rational number, and its
      product with a sum of depths is the exact product; the float product
      of the source is that product when the coefficient is [m / 2 ^ k]
      and [m] times the sum has at most 53 bits, as with the 0.5 of the
      configuration.
    - Code that mutates the tree returns the new tree; [decompose] is an
      effect that records the subtree it destroys. *)

From Stdlib Require Import Ascii String ZArith QArith Lia Lqa.
From stdpp Require Import base option list.

Local Open Scope nat_scope.

#[local] Set Warnings "-register-all".

(** ** Python strings *)

Module PyStr.

Definition str : Type := list ascii.

(** A string literal of the source. *)
Definition py (s : string) : str := list_ascii_of_string s.

Definition code (c : ascii) : nat := nat_of_ascii c.

Definition between (lo hi n : nat) : bool := (lo <=? n) && (n <=? hi).

(** [str.isspace] on one character, which is also the class [\s] of [re]. *)
Definition isspace (c : ascii) : bool :=
  let n := code c in
  between 9 13 n || between 28 32 n || (n =? 133) || (n =? 160).

(** The class [\w] of [re] for a [str] pattern. *)
Definition isword (c : ascii) : bool :=
  let n := code c in
  between 48 57 n || between 65 90 n || (n =? 95) || between 97 122 n
  || (n =? 170) || between 178 179 n || (n =? 181) || between 185 186 n
  || between 188 190 n || between 192 214 n || between 216 246 n
  || between 248 255 n.

Definition ascii_eqb (a b : ascii) : bool := Ascii.eqb a b.

Fixpoint str_eqb (a b : str) : bool :=
  match a, b with
  | [], [] => true
  | x :: a', y :: b' => ascii_eqb x y && str_eqb a' b'
  | _, _ => false
  end.

(** [s.startswith(pat)] *)
Fixpoint startswith (pat s : str) : bool :=
  match pat, s with
  | [], _ => true
  | p :: pat', c :: s' => ascii_eqb p c && startswith pat' s'
  | _ :: _, [] => false
  end.

(** [pat in s] *)
Fixpoint contains (pat s : str) : bool :=
  startswith pat s ||
  match s with
  | [] => false
  | _ :: s' => contains pat s'
  end.

(** [s.lstrip()] *)
Fixpoint lstrip (s : str) : str :=
  match s with
  | c :: s' => if isspace c then lstrip s' else s
  | [] => []
  end.

Definition rstrip (s : str) : str := reverse (lstrip (reverse s)).

(** [s.strip()] *)
Definition strip (s : str) : str := rstrip (lstrip s).

(** *** Scanning for matches

    [str.replace], [str.split], [re.subn] and [re.findall] all scan a
    string from left to right for matches that do not overlap. A matcher
    gives the length of the match at the start of a string, if there is
    one; [segments] cuts a string into its matches and the characters
    between them. [skip] counts the characters of the last match that
    remain to be passed. *)

Inductive segment : Type :=
| Gap (c : ascii)
| Match (text : str).

Fixpoint segments_from (matcher : str -> option nat) (skip : nat) (s : str)
  : list segment :=
  match s with
  | [] => []
  | c :: s' =>
      match skip with
      | S k => segments_from matcher k s'
      | O =>
          match matcher s with
          | Some n => Match (take n s) :: segments_from matcher (n - 1) s'
          | None => Gap c :: segments_from matcher 0 s'
          end
      end
  end.

Definition segments (matcher : str -> option nat) (s : str) : list segment :=
  segments_from matcher 0 s.

(** The matcher of a literal. *)
Definition literal (pat : str) (s : str) : option nat :=
  if startswith pat s then Some (length pat) else None.

(** [s.replace(old, new)]: every occurrence is replaced; an empty [old]
    matches before each character and at the end. *)
Definition replace (old new s : str) : str :=
  match old with
  | [] => new ++ flat_map (fun c => c :: new) s
  | _ :: _ =>
      flat_map (fun g => match g with Gap c => [c] | Match _ => new end)
               (segments (literal old) s)
  end.

(** The pieces between the matches. *)
Definition pieces (segs : list segment) : list str :=
  foldr (fun g ps =>
           match g with
           | Gap c => (c :: hd [] ps) :: tl ps
           | Match _ => [] :: ps
           end) [[]] segs.

(** [s.split(sep)] for a non-empty [sep]. *)
Definition split (sep s : str) : list str := pieces (segments (literal sep) s).

Definition newline : ascii := ascii_of_nat 10.

(** The lines of a text: the pieces between its newlines. *)
Definition lines (s : str) : list str := split [newline] s.

End PyStr.

Import PyStr.

(** ** The bs4 tree *)

Module Bs4.

Inductive node : Type :=
| NavigableString (s : str)
| Tag (name : str) (attrs : list (str * str)) (contents : list node).

Definition is_Tag (n : node) : bool :=
  match n with Tag _ _ _ => true | NavigableString _ => false end.

(** [node.name]; a string has none. *)
Definition name (n : node) : option str :=
  match n with Tag nm _ _ => Some nm | NavigableString _ => None end.

(** [node.contents]; [hasattr(node, "contents")] fails on a string. *)
Definition contents (n : node) : option (list node) :=
  match n with Tag _ _ cs => Some cs | NavigableString _ => None end.

Definition has_name (nm : str) (n : node) : bool :=
  match n with Tag nm' _ _ => str_eqb nm' nm | NavigableString _ => false end.

Fixpoint attrs_eqb (a b : list (str * str)) : bool :=
  match a, b with
  | [], [] => true
  | (k, v) :: a', (k', v') :: b' =>
      str_eqb k k' && str_eqb v v' && attrs_eqb a' b'
  | _, _ => false
  end.

(** Equality of dictionary keys. [Tag.__eq__] holds for two tags with
    the same name, the same attributes and equal contents, and
    [Tag.__hash__] hashes the markup of the tag: two tags with the same
    markup are one key. *)
Fixpoint Tag_eq (a b : node) {struct a} : bool :=
  match a, b with
  | NavigableString s, NavigableString t => str_eqb s t
  | Tag nm at_ cs, Tag nm' at' cs' =>
      str_eqb nm nm' && attrs_eqb at_ at' &&
      (fix all2 (l : list node) (l' : list node) {struct l} : bool :=
         match l, l' with
         | [], [] => true
         | x :: r, y :: r' => Tag_eq x y && all2 r r'
         | _, _ => false
         end) cs cs'
  | _, _ => false
  end.

(** [node.descendants]: every node below [n], in document order. *)
Fixpoint descendants (n : node) : list node :=
  match n with
  | NavigableString _ => []
  | Tag _ _ cs => flat_map (fun c => c :: descendants c) cs
  end.

(** [node.find_all(nm)] *)
Definition find_all (nm : str) (n : node) : list node :=
  filter (fun x => has_name nm x = true) (descendants n).

(** [node.find(nm)], which is also the attribute access [node.h1]. *)
Definition find (nm : str) (n : node) : option node :=
  head (find_all nm n).

(** [node.find_all(True, recursive=False)] over the contents of a node:
    the element children, each with its index among the contents. *)
Definition find_all_children (cs : list node) : list (nat * node) :=
  filter (fun p => is_Tag p.2 = true) (imap (fun i c => (i, c)) cs).

(** [node.text]: the strings below the node, concatenated. *)
Fixpoint text (n : node) : str :=
  match n with
  | NavigableString s => s
  | Tag _ _ cs => flat_map text cs
  end.

(** [tag[key]]: the value of an attribute, or [KeyError]. *)
Fixpoint get_attr (key : str) (attrs : list (str * str)) : option str :=
  match attrs with
  | [] => None
  | (k, v) :: attrs' => if str_eqb k key then Some v else get_attr key attrs'
  end.

End Bs4.

Import Bs4.

(** ** Effects of the pruner

    A computation may run out of fuel ([None]); otherwise it returns a
    value and the subtrees it decomposed, oldest first. *)

Module Eff.

Definition M (A : Type) : Type := option (A * list node).

Definition ret {A} (x : A) : M A := Some (x, []).

Definition bind {A B} (m : M A) (f : A -> M B) : M B :=
  match m with
  | None => None
  | Some (x, l) =>
      match f x with
      | None => None
      | Some (y, l') => Some (y, l ++ l')
      end
  end.

(** [node.decompose()]: the subtree leaves the tree for good. *)
Definition decompose (n : node) : M unit := Some (tt, [n]).

Definition out_of_fuel {A} : M A := None.

(** [for x in xs: s = body(x, s)] *)
Fixpoint for_each {A St} (xs : list A) (body : A -> St -> M St) (s : St)
  : M St :=
  match xs with
  | [] => ret s
  | x :: xs' => bind (body x s) (for_each xs' body)
  end.

(** A loop whose body ignores the loop variable and runs [k] times. *)
Fixpoint times {St} (k : nat) (body : St -> M St) (s : St) : M St :=
  match k with
  | O => ret s
  | S k' => bind (body s) (times k' body)
  end.

End Eff.

Import Eff.

Notation "x <- m ;; k" := (bind m (fun x => k))
  (at level 100, m at next level, right associativity).
Notation "m ;;; k" := (bind m (fun _ => k))
  (at level 100, right associativity).

(** ** class Parser *)

Module Parser.

(** A pattern of [Configuration.pre_processing]. Each of them is a literal
    opening, a lazy [.*?] and a literal closing; [dotall] tells whether [.]
    also matches a newline (the trailing [(?s)], which the versions of [re]
    that accept it there apply to the whole pattern). *)
Record pattern : Type :=
  Pattern { opening : str; closing : str; dotall : bool }.

(** [self.pre_processing]. The pattern for [ul] is not a raw string in
    the source: its [\1] is the character of code 1. *)
Definition pre_processing : list pattern :=
  [ Pattern (py "<script") (py "</script>") true;
    Pattern (py "<style") (py "</style>") true;
    Pattern (py "<meta") (py ">") false;
    Pattern (py "<ul") (py "</" ++ [ascii_of_nat 1] ++ py ">") true;
    Pattern (py "<nav") (py "</nav>") true;
    Pattern (py "<footer") (py "</footer>") true;
    Pattern (py "<header") (py "</header>") true;
    Pattern (py "<form") (py "</form>") true ].

(** The number of characters matched by [.*?] followed by the closing
    literal, at the start of [s]. *)
Fixpoint match_lazy (close : str) (dot_all : bool) (s : str) : option nat :=
  if startswith close s then Some (length close)
  else
    match s with
    | [] => None
    | c :: s' =>
        if negb dot_all && ascii_eqb c newline then None
        else S <$> match_lazy close dot_all s'
    end.

(** The length of the match of the pattern at the start of [s]. *)
Definition match_here (p : pattern) (s : str) : option nat :=
  if startswith (opening p) s
  then (fun n => length (opening p) + n) <$>
         match_lazy (closing p) (dotall p) (drop (length (opening p)) s)
  else None.

(** [re.subn(pattern, '', s)[0]]: the matches are removed. *)
Definition subn (p : pattern) (s : str) : str :=
  flat_map (fun g => match g with Gap c => [c] | Match _ => [] end)
           (segments (match_here p) s).

Definition _prepocess (html : str) : str :=
  fold_left (fun html pattern => subn pattern html) pre_processing html.

(** [_calc_depth] *)
Fixpoint _calc_depth (n : node) : nat :=
  match n with
  | NavigableString _ => 0
  | Tag _ _ [] => 0
  | Tag _ _ cs => max_list (_calc_depth <$> cs) + 1
  end.

(** An entry of the dictionary of [_calc_density]. Its key is an object
    of the tree: [obj] is the index of that object among the contents of
    its parent, [key] the node as it was when the entry was made. *)
Record entry : Type := Entry { obj : nat; key : node; value : nat }.

Abbreviation dict := (list entry).

(** [node_density.update({node: density})]: a key equal to [node] keeps
    its place and its object and takes the new value. *)
Definition update (d : dict) (e : entry) : dict :=
  if existsb (fun e' => Tag_eq (key e') (key e)) d
  then map (fun e' => if Tag_eq (key e') (key e)
                      then Entry (obj e') (key e') (value e) else e') d
  else d ++ [e].

Definition _calc_density (nodes : list (nat * node)) : dict :=
  fold_left (fun node_density node =>
               update node_density (Entry node.1 node.2 (_calc_depth node.2)))
            nodes [].

(** [sum(density.values())] *)
Definition sum_values (d : dict) : nat := sum_list (value <$> d).

Definition Q_of_nat (n : nat) : Q := inject_Z (Z.of_nat n).

Definition Qltb (a b : Q) : bool := negb (Qle_bool b a).

(** The contents of a node while its children are pruned: a slot holds a
    child, or nothing once the child is decomposed, so that the index of
    an object stays the same. *)
Abbreviation slots := (list (option node)).

Definition is_name (nm : string) (n : node) : bool := has_name (py nm) n.

(** The guards of the inner loop: a node that passes none of them is
    removed when its depth is below the threshold. *)
Definition kept_by_tag (n : node) : bool :=
  is_name "p" n || is_name "h1" n || is_name "h2" n.

Definition kept_by_h1 (n : node) : bool :=
  match find (py "h1") n with Some _ => true | None => false end.

Definition kept_by_forced (forced : bool) (n : node) : bool :=
  forced && (3 <? length (find_all (py "p") n)).

Section Pruning.

Variable coef : Q.
Variable forced : bool.

(** The loop [for node in keys] of [main_content]. [avg] is the
    threshold; the comparison of an integer with it is exact. *)
Definition prune (avg : Q) (keys : dict) (children : slots) : M slots :=
  for_each keys (fun e children =>
    let node := key e in
    if kept_by_tag node then ret children
    else if kept_by_h1 node then ret children
    else if kept_by_forced forced node then ret children
    else if Qltb (Q_of_nat (value e)) avg
         then decompose node ;;; ret (<[obj e := None]> children)
         else ret children) children.

(** [main_content(density, soup, forced)] with a dictionary: the loop
    [for node in density.keys()]. [siblings] holds the objects that are
    the keys of [density]. A decomposed key has no contents left. *)
Fixpoint main_content (fuel : nat) (density : dict) (siblings : slots)
  : M slots :=
  match fuel with
  | O => out_of_fuel
  | S fuel' =>
      for_each density (fun e siblings =>
        match siblings !! obj e with
        | Some (Some (Tag nm attrs cs)) =>
            let childs := find_all_children cs in
            let density := _calc_density childs in
            let avg := (Q_of_nat (sum_values density) * coef)%Q in
            let keys := density in
            children <- prune avg keys (Some <$> cs) ;;
            children <- times (length density)
                              (main_content fuel' density) children ;;
            ret (<[obj e := Some (Tag nm attrs (omap id children))]> siblings)
        | _ => ret siblings
        end) siblings
  end.

(** [main_content(soup=soup, forced=forced)]: the dictionary of the
    children of [soup] is made, the function calls itself with it, and the
    loop then runs over the same dictionary once more. *)
Definition main_content_soup (fuel : nat) (soup : node) : M node :=
  match soup with
  | Tag nm attrs cs =>
      let children := find_all_children cs in
      let density := _calc_density children in
      siblings <- main_content fuel density (Some <$> cs) ;;
      siblings <- main_content fuel density siblings ;;
      ret (Tag nm attrs (omap id siblings))
  | NavigableString _ => ret soup
  end.

End Pruning.

End Parser.

Import Parser.

#[global] Arguments _calc_depth : simpl never.

(** ** class Formatter *)

Module Formatter.

(** The exceptions the text preparation can raise. *)
Inductive exn : Type :=
| KeyError (key : str)       (* [tag[key]] on a tag without the attribute *)
| AttributeError             (* [.group()] on the [None] of a failed match *)
| ReError.                   (* [re.error], raised by [re.sub] *)

(** [re.match(r'http(s)?://', url)], and [.group()] of the match. *)
Definition match_scheme (url : str) : option str :=
  if startswith (py "https://") url then Some (py "https://")
  else if startswith (py "http://") url then Some (py "http://")
  else None.

(** [_domain_name] *)
Definition _domain_name (url : str) : exn + str :=
  match match_scheme url with
  | None => inl AttributeError
  | Some group =>
      inr (group ++ hd [] (split (py "/") (List.last (split (py "//") url) [])))
  end.

(** [r_urls.update({href: text})] on a dictionary with string keys. *)
Fixpoint update_str (d : list (str * str)) (k v : str) : list (str * str) :=
  match d with
  | [] => [(k, v)]
  | (k', v') :: d' =>
      if str_eqb k' k then (k', v) :: d' else (k', v') :: update_str d' k v
  end.

(** [url['href']] *)
Definition href (url : node) : exn + str :=
  match url with
  | Tag _ attrs _ =>
      match get_attr (py "href") attrs with
      | Some v => inr v
      | None => inl (KeyError (py "href"))
      end
  | NavigableString _ => inl (KeyError (py "href"))
  end.

(** [_get_urls]. The test [("http" or "htpps") not in url['href']] is
    the test ["http" not in url['href']]. *)
Definition _get_urls (urls : list node) (domain : str)
  : exn + list (str * str) :=
  match _domain_name domain with
  | inl e => inl e
  | inr domain =>
      fold_left
        (fun r_urls url =>
           match r_urls with
           | inl e => inl e
           | inr r_urls =>
               match href url with
               | inl e => inl e
               | inr h =>
                   if negb (contains (py "http") h)
                   then inr (update_str r_urls
                               (py "[" ++ domain ++ h ++ py "]") (text url))
                   else inr (update_str r_urls (py "[" ++ h ++ py "]") (text url))
               end
           end)
        urls (inr [])
  end.

(** The lines of [prepare_text] that flatten the text of the tree. *)
Definition flatten (soup : node) : str :=
  let string := text soup in
  let string := replace [newline] [] string in
  let string := strip string in
  replace (py "\s+") (py " ") string.

(** The loop [for p in paragr] of [prepare_text]. *)
Definition wrap_paragraphs (paragr : list node) (string : str) : str :=
  fold_left
    (fun string p =>
       if str_eqb (text p) [] then string
       else replace (strip (text p))
                    ([newline] ++ strip (text p) ++ [newline]) string)
    paragr string.

(** *** The tokens of [re.findall] *)

(** The third alternative of the pattern: a space character or one of
    [. , ! ? ; ( ) -]. *)
Definition is_separator (c : ascii) : bool :=
  isspace c || existsb (ascii_eqb c) (py ".,!?;()-").

(** The length of the longest prefix whose characters satisfy [f]. *)
Fixpoint run (f : ascii -> bool) (s : str) : nat :=
  match s with
  | c :: s' => if f c then S (run f s') else 0
  | [] => 0
  end.

(** The greatest index from 1 at which [s] holds a closing bracket:
    where the greedy run of non-space characters gives back enough for
    the closing bracket of the pattern to match. *)
Fixpoint last_bracket (i : nat) (s : str) : option nat :=
  match s with
  | [] => None
  | c :: s' =>
      match last_bracket (S i) s' with
      | Some j => Some j
      | None =>
          if ascii_eqb c "]"%char && (1 <=? i) then Some i else None
      end
  end.

(** The first alternative: an opening bracket, [https?://], a greedy
    run of non-space characters and a closing bracket. *)
Definition bracket_url (s : str) : option nat :=
  let after prefix :=
    let rest := drop (length prefix) s in
    (fun j => length prefix + j + 1) <$>
      last_bracket 0 (take (run (fun c => negb (isspace c)) rest) rest) in
  if startswith (py "[https://") s then after (py "[https://")
  else if startswith (py "[http://") s then after (py "[http://")
  else None.

(** The match of the pattern at the start of [s]: the alternatives are
    tried in order. *)
Definition token (s : str) : option nat :=
  match bracket_url s with
  | Some n => Some n
  | None =>
      match run isword s with
      | S n => Some (S n)
      | O =>
          match s with
          | c :: _ => if is_separator c then Some 1 else None
          | [] => None
          end
      end
  end.

(** [re.findall(pattern, text)], each match with its first group,
    which is the whole match; the characters that start no match are
    dropped. *)
Definition findall (text : str) : list str :=
  omap (fun g => match g with Match t => Some t | Gap _ => None end)
       (segments token text).

(** *** Reflow *)

Section Reflow.

(** [self.MAX_LENGTH] *)
Variable MAX_LENGTH : nat.

(** The body of the loop [for word in sp2]; the state is [length] and
    [new_string]. *)
Definition wrap_word (state : nat * str) (word : str) : nat * str :=
  let '(length_, new_string) := state in
  let w := if length_ =? 1 then lstrip word else word in
  let length_ := length_ + length word in
  let '(length_, new_string) :=
    if str_eqb w [newline] then (1, new_string ++ [newline])
    else (length_, new_string) in
  if MAX_LENGTH <? length_ then (length w + 1, new_string ++ [newline] ++ w)
  else if length_ =? MAX_LENGTH then (1, new_string ++ w ++ [newline])
  else (length_, new_string ++ w).

(** The last part of [prepare_text], from [re.findall] on. *)
Definition reflow (text_with_urls : str) : str :=
  let sp2 := findall text_with_urls in
  let '(_, new_string) := fold_left wrap_word sp2 (1, []) in
  replace [newline; newline; newline] [newline] new_string.

(** [re.sub(pattern, repl, string)] for an arbitrary pattern. *)
Variable re_sub : str -> str -> str -> exn + str.

(** [_add_urls] *)
Definition _add_urls (text : str) (prepared_urls : list (str * str))
  : exn + str :=
  fold_left
    (fun text entry =>
       match text with
       | inl e => inl e
       | inr text =>
           let '(url, anchor) := entry in
           re_sub anchor (anchor ++ py " " ++ url) text
       end)
    prepared_urls (inr text).

(** [prepare_text], for a formatter made with [domain]. *)
Definition prepare_text (domain : str) (soup : node) : exn + str :=
  let paragr := find_all (py "p") soup in
  let urls := find_all (py "a") soup in
  let string := flatten soup in
  let string := wrap_paragraphs paragr string in
  match _get_urls urls domain with
  | inl e => inl e
  | inr prepared_urls =>
      match _add_urls string prepared_urls with
      | inl e => inl e
      | inr text_with_urls => inr (reflow text_with_urls)
      end
  end.

End Reflow.

(** *** Writing the file *)

(** [re.sub(pattern, '', s)] for a pattern given by its matcher: the
    matches are removed. *)
Definition re_remove (matcher : str -> option nat) (s : str) : str :=
  flat_map (fun g => match g with Gap c => [c] | Match _ => [] end)
           (segments matcher s).

(** The pattern [http(s)?://(www\.)?] at the start of [s]. *)
Definition scheme_www (s : str) : option nat :=
  let www n := if startswith (py "www.") (drop n s) then n + 4 else n in
  if startswith (py "https://") s then Some (www 8)
  else if startswith (py "http://") s then Some (www 7)
  else None.

(** The pattern [.(s)?html|/$] at the start of [s]. The dot is any
    character but a newline; [$] holds at the end of the string and before
    a newline that ends the string. *)
Definition html_or_slash (s : str) : option nat :=
  match s with
  | [] => None
  | c :: r =>
      if negb (ascii_eqb c newline) && startswith (py "shtml") r then Some 6
      else if negb (ascii_eqb c newline) && startswith (py "html") r then Some 5
      else if ascii_eqb c "/"%char && (str_eqb r [] || str_eqb r [newline])
           then Some 1
      else None
  end.

(** [os.path.dirname] of [posixpath]: the path up to its last slash,
    without the slashes that end it unless it is made of slashes. *)
Definition dirname (p : str) : str :=
  let is_slash c := ascii_eqb c "/"%char in
  let i := length p - run (fun c => negb (is_slash c)) (reverse p) in
  let head := take i p in
  if forallb is_slash head then head
  else reverse (drop (run is_slash (reverse head)) (reverse head)).

(** The name of the file, without its extension. *)
Definition file_name (domain : str) : str :=
  let file_name := re_remove scheme_www domain in
  re_remove html_or_slash file_name.

Section WriteFile.

(** The file system: its states, the errors of its calls,
    [os.path.exists], [os.makedirs], and the writing of a text to a file
    opened with mode [w]. *)
Variable fs : Type.
Variable os_error : Type.
Variable path_exists : fs -> str -> bool.
Variable makedirs : fs -> str -> os_error + fs.
Variable write_text : fs -> str -> str -> os_error + fs.

(** [write_file], for a formatter made with [domain]. *)
Definition write_file (domain text : str) (disk : fs) : os_error + fs :=
  let file_name := file_name domain in
  let dir := dirname file_name in
  match (if negb (path_exists disk dir) then makedirs disk dir
         else inr disk) with
  | inl e => inl e
  | inr disk => write_text disk (file_name ++ py ".txt") text
  end.

End WriteFile.

End Formatter.

Import Formatter.

(** ** Predicates used in the statements *)

Module Spec.

(** The element children of a node, as [find_all(True, recursive=False)]
    returns them. *)
Definition element_children (n : node) : list node :=
  match n with
  | Tag _ _ cs => filter (fun c => is_Tag c = true) cs
  | NavigableString _ => []
  end.

(** A node that passes none of the guards of the inner loop. *)
Definition unguarded (forced : bool) (n : node) : Prop :=
  kept_by_tag n = false /\ kept_by_h1 n = false /\
  kept_by_forced forced n = false.

(** [x] is [n] or lies below [n]. *)
Definition within (x n : node) : Prop := x = n \/ x ∈ descendants n.

(** What holds of every node of a subtree the pruner may decompose. *)
Definition removable_subtree (forced : bool) (r : node) : Prop :=
  kept_by_tag r = false /\
  forall x, within x r ->
    is_name "h1" x = false /\ find (py "h1") x = None /\
    (forced = true -> length (find_all (py "p") x) <= 3).

(** The test of the inner loop on an entry of the dictionary: the node
    passes no guard and its depth is below the threshold. *)
Definition removed_by (forced : bool) (avg : Q) (e : entry) : bool :=
  negb (kept_by_tag (key e)) && negb (kept_by_h1 (key e)) &&
  negb (kept_by_forced forced (key e)) && Qltb (Q_of_nat (value e)) avg.

(** The single substitution the specification describes for the
    paragraph step: only the first occurrence of [old] is replaced. *)
Fixpoint replace_first (old new s : str) : str :=
  if startswith old s then new ++ drop (length old) s
  else
    match s with
    | [] => []
    | c :: s' => c :: replace_first old new s'
    end.

(** No occurrence of [pat] starts in the first [n] characters of [s]. *)
Definition absent_before (pat : str) (n : nat) (s : str) : Prop :=
  forall i, i < n -> startswith pat (drop i s) = false.



(** [re.search]: the pattern matches somewhere in [s]. *)
Fixpoint matches (p : pattern) (s : str) : bool :=
  match match_here p s with
  | Some _ => true
  | None => match s with
            | [] => false
            | _ :: s' => matches p s'
            end
  end.

(** The pattern of a tag family as a raw string gives it: from the
    opening of the tag to the first closing tag of that name. *)
Definition family_pattern (name : str) : pattern :=
  Pattern (py "<" ++ name) (py "</" ++ name ++ py ">") true.

(** The tag families whose pattern is written that way. *)
Definition families : list str :=
  [py "script"; py "style"; py "nav"; py "footer"; py "header"; py "form"].

Definition meta_pattern : pattern := Pattern (py "<meta") (py ">") false.

(** [w] appended to the last of a list of lines. *)
Fixpoint append_last (ls : list str) (w : str) : list str :=
  match ls with
  | [] => []
  | [l] => [l ++ w]
  | l :: ls' => l :: append_last ls' w
  end.

(** A token is one character, or is free of space characters. *)
Definition token_shape (t : str) : Prop :=
  (exists c, t = [c]) \/ (t <> [] /\ Forall (fun c => isspace c = false) t).

(** What the reflow guarantees of a line: it is no longer than the
    width, or it is one token that is longer than the width. *)
Definition line_ok (width : nat) (tokens : list str) (line : str) : Prop :=
  length line <= width \/ (line ∈ tokens /\ width < length line).

(** The state of the wrapping loop: the lines that are closed are good,
    and the counter is above the length of the open line and, when it is
    beyond the width, the open line is good as it is. *)
Definition wrap_inv (width : nat) (tokens : list str) (state : nat * str)
  : Prop :=
  exists closed cur,
    lines state.2 = closed ++ [cur] /\
    Forall (line_ok width tokens) closed /\
    length cur + 1 <= state.1 /\
    (state.1 <= width \/ line_ok width tokens cur).

(** What the pruner does to one node, given the recursive call: the body
    of the outer loop of [main_content]. *)
Definition visit (coef : Q) (forced : bool)
    (rec : dict -> slots -> M slots) (n : node) : M node :=
  match n with
  | Tag nm attrs cs =>
      let density := _calc_density (find_all_children cs) in
      let avg := (Q_of_nat (sum_values density) * coef)%Q in
      children <- prune forced avg density (Some <$> cs) ;;
      children <- times (length density) (rec density) children ;;
      ret (Tag nm attrs (omap id children))
  | NavigableString _ => ret n
  end.

(** One turn of the outer loop, for the key [e]. *)
Definition step (v : node -> M node) (e : entry) (siblings : slots)
  : M slots :=
  match siblings !! obj e with
  | Some (Some (Tag nm attrs cs)) =>
      n' <- v (Tag nm attrs cs) ;; ret (<[obj e := Some n']> siblings)
  | _ => ret siblings
  end.

(** What pruning never changes in a tag: its name, its attributes and
    the strings among its contents. Two tags that differ there are
    different keys, before and after any pruning. *)
Definition signature (n : node) : str * list (str * str) * list node :=
  match n with
  | Tag nm attrs cs => (nm, attrs, filter (fun c => is_Tag c = false) cs)
  | NavigableString t => (t, [], [])
  end.

(** Everywhere in the tree, the element children of a node have
    different signatures. *)
Fixpoint distinct_signatures (n : node) : Prop :=
  match n with
  | NavigableString _ => True
  | Tag _ _ cs =>
      NoDup (signature <$> filter (fun c => is_Tag c = true) cs) /\
      (fix all (l : list node) : Prop :=
         match l with
         | [] => True
         | c :: l' => distinct_signatures c /\ all l'
         end) cs
  end.

(** The test of the inner loop on a node with its depth. *)
Definition removable (forced : bool) (avg : Q) (c : node) : bool :=
  removed_by forced avg (Entry 0 c (_calc_depth c)).

(** The threshold for the children [cs] when no two element children
    are the same key. *)
Definition threshold (coef : Q) (cs : list node) : Q :=
  (Q_of_nat (sum_list (_calc_depth <$> filter (fun c => is_Tag c = true) cs))
   * coef)%Q.

(** One pass over the contents [cs] of a node: the element children
    that [removable] rejects at [avg] go, and [u] is applied [k] times to
    each of the others. *)
Definition sweep (forced : bool) (avg : Q) (k : nat) (u : node -> node)
    (cs : list node) : list node :=
  omap (fun c =>
          if is_Tag c
          then if removable forced avg c then None else Some (Nat.iter k u c)
          else Some c) cs.

(** The pruner as a function on trees, for trees in which no two element
    siblings are the same key: the element children below the threshold
    go, and each of the others is visited once for every element child
    there was. *)
Definition visit_children (coef : Q) (forced : bool) (u : node -> node)
    (cs : list node) : list node :=
  sweep forced (threshold coef cs)
        (length (filter (fun c => is_Tag c = true) cs)) u cs.

Fixpoint visit_pure (coef : Q) (forced : bool) (fuel : nat) (n : node) : node :=
  match fuel, n with
  | S fuel', Tag nm attrs cs =>
      Tag nm attrs (visit_children coef forced (visit_pure coef forced fuel') cs)
  | _, _ => n
  end.

(** The whole pass on such trees: each element child of the root is
    visited twice. *)
Definition main_content_pure (coef : Q) (forced : bool) (fuel : nat)
    (soup : node) : node :=
  match soup with
  | Tag nm attrs cs =>
      Tag nm attrs
          ((fun c => visit_pure coef forced fuel (visit_pure coef forced fuel c))
             <$> cs)
  | NavigableString _ => soup
  end.


(** The number of nodes of a tree, of a slot and of the slots. *)
Fixpoint size (n : node) : nat :=
  match n with
  | NavigableString _ => 1
  | Tag _ _ cs => S (sum_list (size <$> cs))
  end.

Definition slot_size (o : option node) : nat :=
  match o with Some c => size c | None => 0 end.

Definition slots_size (s : slots) : nat := sum_list (slot_size <$> s).

(** Total correctness of a computation: it returns, and its value and
    the subtrees it decomposed satisfy [post]. *)
Definition returns {A} (m : M A) (post : A -> list node -> Prop) : Prop :=
  match m with
  | Some (x, l) => post x l
  | None => False
  end.

(** A slot after some pruning, compared with the slot before it. *)
Definition shrinks (before after : option node) : Prop :=
  match before, after with
  | _, None => True
  | Some c, Some c' => _calc_depth c' <= _calc_depth c
  | None, Some _ => False
  end.

(** Every live slot holds a node of depth below [fuel]. *)
Definition below (fuel : nat) (s : slots) : Prop :=
  forall i c, s !! i = Some (Some c) -> _calc_depth c < fuel.

(** A list after some of its elements were changed by [R] and dropped:
    what is dropped satisfied [D] when it was. *)
Inductive thinned {A} (R : A -> A -> Prop) (D : A -> Prop)
  : list A -> list A -> Prop :=
| thinned_nil : thinned R D [] []
| thinned_keep a b l l' :
    R a b -> thinned R D l l' -> thinned R D (a :: l) (b :: l')
| thinned_drop a b l l' :
    R a b -> D b -> thinned R D l l' -> thinned R D (a :: l) l'.

(** A tree after subtrees that satisfied [D] were taken out of it: the
    names, the attributes, the strings and the order of what is left are
    those of the tree. *)
Inductive pruned (D : node -> Prop) : node -> node -> Prop :=
| pruned_string s : pruned D (NavigableString s) (NavigableString s)
| pruned_tag nm attrs cs cs' :
    thinned (pruned D) D cs cs' ->
    pruned D (Tag nm attrs cs) (Tag nm attrs cs').

(** A slot whose node is pruned and stays. *)
Definition slot_kept (D : node -> Prop) (a b : option node) : Prop :=
  match a, b with
  | Some x, Some y => pruned D x y
  | None, None => True
  | _, _ => False
  end.

(** A slot whose node is pruned, and stays or is decomposed. *)
Definition slot_thinned (D : node -> Prop) (a b : option node) : Prop :=
  match a, b with
  | Some x, Some y => pruned D x y
  | Some x, None => exists y, pruned D x y /\ D y
  | None, None => True
  | None, Some _ => False
  end.

(** An element the pruner may decompose. *)
Definition removable_element (forced : bool) (c : node) : Prop :=
  is_Tag c = true /\ removable_subtree forced c.

(** The key [_get_urls] makes for an anchor whose [href] is [h]. *)
Definition link (domain h : str) : str :=
  py "[" ++ (if contains (py "http") h then h else domain ++ h) ++ py "]".

(** [d[k]] on a dictionary with string keys. *)
Fixpoint lookup_str (k : str) (d : list (str * str)) : option str :=
  match d with
  | [] => None
  | (k', v) :: d' => if str_eqb k' k then Some v else lookup_str k d'
  end.

(** The characters of a string that are not space characters. *)
Definition nonspace (s : str) : str := filter (fun c => isspace c = false) s.

(** A character some alternative of the token pattern takes on its own:
    a word character, a space character or one of [. , ! ? ; ( ) -]. *)
Definition plain (c : ascii) : bool := isword c || is_separator c.

End Spec.

Import Spec.

(** ** Sample trees *)

Module Samples.

Definition el (nm : string) (cs : list node) : node := Tag (py nm) [] cs.

Definition tx (s : string) : node := NavigableString (py s).

(** [<div><p>x</p></div><section><a><b><i></i></b></a></section>] in
    the body of a page. *)
Definition page_with_shallow_div : node :=
  el "[document]"
    [el "html"
       [el "body"
          [el "div" [el "p" [tx "x"]];
           el "section" [el "a" [el "b" [el "i" []]]]]]].

(** [<div><p>Hello world</p><nav>Skip</nav></div>] *)
Definition hello_page : node :=
  el "[document]" [el "div" [el "p" [tx "Hello world"]; el "nav" [tx "Skip"]]].

(** A [section] whose [article] keeps a [div] with four paragraphs. *)
Definition page_with_four_paragraphs : node :=
  el "[document]"
    [el "section"
       [el "article"
          [el "div" [el "p" [tx "a"]; el "p" [tx "b"]; el "p" [tx "c"];
                     el "div" [el "p" [tx "d"]]];
           el "p" [tx "e"]]]].

(** Three equal [span] elements beside a heading. *)
Definition page_with_equal_spans : node :=
  el "[document]"
    [el "div" [el "span" []; el "span" []; el "span" []; el "h2" [el "b" []]]].

(** A [div] with four paragraphs below it, one of them in a [div] of its
    own, beside a deeper [section]. *)
Definition page_with_protected_div : node :=
  el "[document]"
    [el "body"
       [el "div" [el "p" [tx "a"]; el "p" [tx "b"]; el "p" [tx "c"];
                  el "div" [el "p" [tx "d"]]];
        el "section" [el "a" [el "b" [tx "t"]]]]].



(** [<div><h1>Title</h1></div><aside>ad</aside>] beside an [article]
    in the body of a page. *)
Definition page_with_heading : node :=
  el "[document]"
    [el "body"
       [el "div" [el "h1" [tx "Title"]];
        el "aside" [tx "ad"];
        el "article" [el "section" [el "p" [tx "text"]]]]].

End Samples.

Import Samples.

(** * Properties *)

(** ** Strings *)

Lemma ascii_eqb_eq (a b : ascii) : ascii_eqb a b = true <-> a = b.
Proof. apply Ascii.eqb_eq. Qed.

Lemma str_eqb_eq (a b : str) : str_eqb a b = true <-> a = b.
Proof.
  revert b. induction a as [|x a IH]; intros [|y b]; simpl; try easy.
  rewrite andb_true_iff, ascii_eqb_eq, IH. split.
  - intros [-> ->]. reflexivity.
  - intros [= -> ->]. auto.
Qed.

Lemma str_eqb_refl (a : str) : str_eqb a a = true.
Proof. apply str_eqb_eq. reflexivity. Qed.

(** ** The tree *)

Lemma node_induction (P : node -> Prop) :
  (forall s, P (NavigableString s)) ->
  (forall nm attrs cs, Forall P cs -> P (Tag nm attrs cs)) ->
  forall n, P n.
Proof.
  intros Hs Ht. fix IH 1. intros [s|nm attrs cs].
  - apply Hs.
  - apply Ht. induction cs as [|c cs IHcs]; constructor.
    + apply IH.
    + apply IHcs.
Qed.

Lemma calc_depth_Tag nm attrs cs :
  _calc_depth (Tag nm attrs cs) =
  match cs with [] => 0 | _ :: _ => max_list (_calc_depth <$> cs) + 1 end.
Proof. destruct cs; reflexivity. Qed.

Lemma calc_depth_child nm attrs cs c :
  c ∈ cs -> _calc_depth c < _calc_depth (Tag nm attrs cs).
Proof.
  intros Hin. rewrite calc_depth_Tag. destruct cs as [|c0 cs'].
  - inversion Hin.
  - assert (_calc_depth c <= max_list (_calc_depth <$> c0 :: cs')).
    { apply max_list_elem_of_le, list_elem_of_fmap. eauto. }
    lia.
Qed.

Lemma max_list_filter_Tag (cs : list node) :
  max_list (_calc_depth <$> filter (fun c => is_Tag c = true) cs)
  = max_list (_calc_depth <$> cs).
Proof.
  induction cs as [|c cs IH]; [reflexivity|].
  rewrite filter_cons. destruct c as [s|nm attrs cs']; csimpl.
  - apply IH.
  - rewrite IH. reflexivity.
Qed.

(** ** C3: the depth of a node *)

(** C3, as the code has it. The depth of a string, and of a tag without
    contents, is 0; the depth of a tag with contents is 1 + the greatest
    depth among all its contents, strings included (a string counts 0);
    when the tag has element children, this is 1 + the greatest depth
    among the element children. *)
Theorem calc_depth_spec (n : node) :
  _calc_depth n =
    match contents n with
    | None | Some [] => 0
    | Some cs => 1 + max_list (_calc_depth <$> cs)
    end
  /\ match element_children n with
     | [] => True
     | es => _calc_depth n = 1 + max_list (_calc_depth <$> es)
     end.
Proof.
  split.
  - destruct n as [s|nm attrs [|c cs]]; try reflexivity.
    rewrite calc_depth_Tag. cbn [contents]. lia.
  - destruct n as [s|nm attrs cs]; cbn [element_children]; [exact I|].
    destruct (filter (fun c => is_Tag c = true) cs) as [|e es] eqn:E; [exact I|].
    rewrite <- E, max_list_filter_Tag, calc_depth_Tag.
    destruct cs; [discriminate E|lia].
Qed.

(** C3 as stated fails: a tag whose only content is a string has no
    element children, and its depth is 1. *)
Lemma calc_depth_text_only_counterexample :
  ~ (forall n, element_children n = [] -> _calc_depth n = 0).
Proof.
  intros H.
  specialize (H (Tag (py "p") [] [NavigableString (py "Hello world")])).
  simpl in H. discriminate H. reflexivity.
Qed.

Lemma sublist_flat_map_elem {A B} (f : A -> list B) (x : A) (l : list A) :
  x ∈ l -> f x `sublist_of` flat_map f l.
Proof.
  induction l as [|y l IH]; intros Hin; [inversion Hin|].
  simpl. apply elem_of_cons in Hin as [->|Hin].
  - apply sublist_inserts_r. reflexivity.
  - apply sublist_inserts_l, IH, Hin.
Qed.

Lemma elem_of_descendants (x : node) nm attrs cs :
  x ∈ descendants (Tag nm attrs cs) ->
  exists c, c ∈ cs /\ (x = c \/ x ∈ descendants c).
Proof.
  simpl. rewrite list_elem_of_In, in_flat_map.
  intros (c & Hc & Hx). exists c. rewrite list_elem_of_In. split; [exact Hc|].
  destruct Hx as [->|Hx]; [left; reflexivity|right].
  apply list_elem_of_In, Hx.
Qed.

Lemma descendants_sublist (x n : node) :
  x ∈ descendants n -> descendants x `sublist_of` descendants n.
Proof.
  induction n as [s|nm attrs cs IH] using node_induction; intros Hx.
  - inversion Hx.
  - destruct (elem_of_descendants _ _ _ _ Hx) as (c & Hc & Hxc).
    transitivity (c :: descendants c).
    + destruct Hxc as [->|Hxc].
      * apply sublist_cons_r. left. reflexivity.
      * apply sublist_cons_r. left.
        rewrite Forall_forall in IH.
        apply IH; [exact Hc|exact Hxc].
    + apply (sublist_flat_map_elem (fun c => c :: descendants c)), Hc.
Qed.

Lemma sublist_filter_mono {A} (P : A -> Prop) `{!forall x, Decision (P x)}
    (l1 l2 : list A) :
  l1 `sublist_of` l2 -> filter P l1 `sublist_of` filter P l2.
Proof.
  induction 1 as [|x l1 l2 _ IH|x l1 l2 _ IH]; [constructor| |].
  - rewrite !filter_cons. destruct (decide (P x)); [constructor|]; exact IH.
  - rewrite filter_cons. destruct (decide (P x)); [constructor|]; exact IH.
Qed.

Lemma find_all_sublist (nm : str) (x n : node) :
  x ∈ descendants n -> find_all nm x `sublist_of` find_all nm n.
Proof. intros H. apply sublist_filter_mono, descendants_sublist, H. Qed.

(** A node that passes none of the guards has no [h1] and, in forced
    mode, at most 3 paragraphs anywhere in its subtree. *)
Lemma unguarded_removable_subtree (forced : bool) (r : node) :
  unguarded forced r -> removable_subtree forced r.
Proof.
  intros (Htag & Hh1 & Hp). split; [exact Htag|].
  assert (Hall : find_all (py "h1") r = []).
  { unfold kept_by_h1, find in Hh1.
    destruct (find_all (py "h1") r); [reflexivity|discriminate]. }
  assert (Hlen : forced = true -> length (find_all (py "p") r) <= 3).
  { intros ->. unfold kept_by_forced in Hp. simpl in Hp.
    apply Nat.ltb_ge in Hp. exact Hp. }
  intros x [->|Hx].
  - unfold kept_by_tag in Htag.
    apply orb_false_iff in Htag as [Htag _].
    apply orb_false_iff in Htag as [_ Htag].
    unfold find. rewrite Hall. auto.
  - pose proof (find_all_sublist (py "h1") _ _ Hx) as S1.
    rewrite Hall in S1. apply sublist_nil_r in S1.
    pose proof (find_all_sublist (py "p") _ _ Hx) as S2.
    apply sublist_length in S2.
    split; [|split].
    + destruct (is_name "h1" x) eqn:E; [|reflexivity].
      assert (Hin : x ∈ find_all (py "h1") r).
      { apply list_elem_of_filter. split; assumption. }
      rewrite Hall in Hin. inversion Hin.
    + unfold find. rewrite S1. reflexivity.
    + intros Hf. specialize (Hlen Hf). lia.
Qed.

(** ** Reasoning about computations *)

Lemma returns_ret {A} (x : A) (post : A -> list node -> Prop) :
  post x [] -> returns (ret x) post.
Proof. intros H. exact H. Qed.

Lemma returns_bind {A B} (m : M A) (f : A -> M B) post :
  returns m (fun x l => returns (f x) (fun y l' => post y (l ++ l'))) ->
  returns (bind m f) post.
Proof.
  unfold returns, bind. destruct m as [[x l]|]; [|easy].
  destruct (f x) as [[y l']|]; easy.
Qed.

Lemma bind_Some {A B} (x : A) (l : list node) (f : A -> M B) :
  bind (Some (x, l)) f =
  match f x with Some (y, l') => Some (y, l ++ l') | None => None end.
Proof. reflexivity. Qed.


Lemma returns_mono {A} (m : M A) (post post' : A -> list node -> Prop) :
  (forall x l, post x l -> post' x l) -> returns m post -> returns m post'.
Proof. unfold returns. destruct m as [[x l]|]; auto. Qed.

Lemma returns_for_each {A St} (inv : St -> list node -> Prop)
    (xs : list A) (body : A -> St -> M St) :
  (forall x s l, x ∈ xs -> inv s l ->
     returns (body x s) (fun s' l' => inv s' (l ++ l'))) ->
  forall s l0, inv s l0 ->
    returns (for_each xs body s) (fun s' l' => inv s' (l0 ++ l')).
Proof.
  induction xs as [|x xs IH]; intros Hbody s l0 Hinv; simpl.
  - unfold returns, ret. rewrite app_nil_r. exact Hinv.
  - apply returns_bind.
    eapply returns_mono; [|apply (Hbody x s l0); [left|exact Hinv]].
    intros s' l' Hinv'. cbv beta.
    eapply returns_mono; [|apply (IH (fun y s l Hy => Hbody y s l (list_elem_of_further _ _ _ Hy)) s' _ Hinv')].
    intros s'' l''. cbv beta. rewrite app_assoc. auto.
Qed.

Lemma returns_times {St} (inv : St -> list node -> Prop)
    (k : nat) (body : St -> M St) :
  (forall s l, inv s l -> returns (body s) (fun s' l' => inv s' (l ++ l'))) ->
  forall s l0, inv s l0 ->
    returns (times k body s) (fun s' l' => inv s' (l0 ++ l')).
Proof.
  intros Hbody. induction k as [|k IH]; intros s l0 Hinv; simpl.
  - unfold returns, ret. rewrite app_nil_r. exact Hinv.
  - apply returns_bind.
    eapply returns_mono; [|apply (Hbody s l0 Hinv)].
    intros s' l' Hinv'. cbv beta.
    eapply returns_mono; [|apply (IH s' _ Hinv')].
    intros s'' l''. cbv beta. rewrite app_assoc. auto.
Qed.

(** ** Slots *)

Lemma shrinks_refl (a : option node) : shrinks a a.
Proof. destruct a; simpl; auto. Qed.

Lemma shrinks_trans (a b c : option node) :
  shrinks a b -> shrinks b c -> shrinks a c.
Proof. destruct a, b, c; simpl; try easy. lia. Qed.

Lemma Forall2_shrinks_refl (s : slots) : Forall2 shrinks s s.
Proof. induction s; constructor; auto using shrinks_refl. Qed.

Lemma Forall2_shrinks_trans (s1 s2 s3 : slots) :
  Forall2 shrinks s1 s2 -> Forall2 shrinks s2 s3 -> Forall2 shrinks s1 s3.
Proof.
  intros H. revert s3. induction H as [|a b s1 s2 Hab _ IH]; intros s3 H23.
  - inversion H23. constructor.
  - inversion H23 as [|? c ? s3' Hbc H23']; subst.
    constructor; [eapply shrinks_trans; eauto|apply IH, H23'].
Qed.

Lemma Forall2_shrinks_insert (s : slots) (i : nat) (a b : option node) :
  s !! i = Some a -> shrinks a b -> Forall2 shrinks s (<[i := b]> s).
Proof.
  revert i. induction s as [|x s IH]; intros [|i] Hi Hab; simpl in *;
    try discriminate.
  - injection Hi as ->. constructor; [exact Hab|apply Forall2_shrinks_refl].
  - constructor; [apply shrinks_refl|apply IH; assumption].
Qed.

Lemma below_shrinks (fuel : nat) (s s' : slots) :
  below fuel s -> Forall2 shrinks s s' -> below fuel s'.
Proof.
  intros Hb H i c' Hi.
  destruct (Forall2_lookup_r _ _ _ _ _ H Hi) as (a & Ha & Hs).
  destruct a as [c|]; simpl in Hs; [|easy].
  specialize (Hb i c Ha). lia.
Qed.

Lemma below_children (fuel : nat) nm attrs cs :
  _calc_depth (Tag nm attrs cs) < S fuel -> below fuel (Some <$> cs).
Proof.
  intros H i c Hi. rewrite list_lookup_fmap in Hi.
  destruct (cs !! i) as [c'|] eqn:E; simpl in Hi; [|discriminate].
  injection Hi as ->.
  pose proof (calc_depth_child nm attrs cs c (list_elem_of_lookup_2 _ _ _ E)).
  lia.
Qed.

Lemma max_list_omap_shrinks (s s' : slots) :
  Forall2 shrinks s s' ->
  max_list (_calc_depth <$> omap id s') <= max_list (_calc_depth <$> omap id s).
Proof.
  induction 1 as [|a b s s' Hab _ IH]; [reflexivity|].
  destruct a as [c|], b as [c'|]; csimpl in *; try easy; lia.
Qed.

Lemma omap_id_Some (cs : list node) : omap id (Some <$> cs) = cs.
Proof. induction cs as [|c cs IH]; [reflexivity|]. simpl. f_equal. exact IH. Qed.

Lemma calc_depth_omap nm attrs cs (s' : slots) :
  Forall2 shrinks (Some <$> cs) s' ->
  _calc_depth (Tag nm attrs (omap id s')) <= _calc_depth (Tag nm attrs cs).
Proof.
  intros H. pose proof (max_list_omap_shrinks _ _ H) as Hm.
  rewrite omap_id_Some in Hm. rewrite !calc_depth_Tag.
  destruct (omap id s') eqn:E; [lia|].
  destruct cs as [|c cs].
  - inversion H; subst. discriminate E.
  - lia.
Qed.

(** ** The pruner returns, and what it decomposes *)

Section PruningProperties.

Variable coef : Q.
Variable forced : bool.

Lemma prune_returns (avg : Q) (keys : dict) (children : slots) :
  returns (prune forced avg keys children)
    (fun children' l =>
       Forall2 shrinks children children' /\
       Forall (removable_subtree forced) l).
Proof.
  unfold prune.
  apply (returns_for_each
           (fun s l => Forall2 shrinks children s /\
                       Forall (removable_subtree forced) l)
           keys _) with (l0 := []); [|split; [apply Forall2_shrinks_refl|constructor]].
  intros e s l He [Hs Hl].
  destruct (kept_by_tag (key e)) eqn:E1; [cbn; rewrite app_nil_r; auto|].
  destruct (kept_by_h1 (key e)) eqn:E2; [cbn; rewrite app_nil_r; auto|].
  destruct (kept_by_forced forced (key e)) eqn:E3; [cbn; rewrite app_nil_r; auto|].
  destruct (Qltb _ _); [|cbn; rewrite app_nil_r; auto].
  cbn. split.
  - eapply Forall2_shrinks_trans; [exact Hs|].
    destruct (s !! obj e) as [a|] eqn:Ei.
    + eapply Forall2_shrinks_insert; [exact Ei|]. destruct a; exact I.
    + rewrite list_insert_ge; [apply Forall2_shrinks_refl|].
      apply lookup_ge_None, Ei.
  - apply Forall_app. split; [exact Hl|].
    constructor; [|constructor].
    apply unguarded_removable_subtree. repeat split; assumption.
Qed.

Lemma main_content_returns (fuel : nat) :
  forall (density : dict) (siblings : slots),
    0 < fuel -> below fuel siblings ->
    returns (main_content coef forced fuel density siblings)
      (fun siblings' l =>
         Forall2 shrinks siblings siblings' /\
         Forall (removable_subtree forced) l).
Proof.
  induction fuel as [|fuel IH]; intros density siblings Hpos Hbelow; [lia|].
  cbn [main_content].
  apply (returns_for_each
           (fun s l => Forall2 shrinks siblings s /\
                       Forall (removable_subtree forced) l)
           density _) with (l0 := []); [|split; [apply Forall2_shrinks_refl|constructor]].
  intros e s l He [Hs Hl].
  destruct (s !! obj e) as [[[t|nm attrs cs]|]|] eqn:Ei;
    try (cbn; rewrite app_nil_r; auto; fail).
  pose proof (below_shrinks _ _ _ Hbelow Hs _ _ Ei) as Hd.
  apply returns_bind.
  eapply returns_mono; [|apply prune_returns].
  intros children l1 [Hc1 Hl1]. cbv beta.
  apply returns_bind.
  assert (Hfinal : forall children' l2,
             Forall2 shrinks (Some <$> cs) children' ->
             Forall (removable_subtree forced) l2 ->
             Forall2 shrinks siblings
               (<[obj e := Some (Tag nm attrs (omap id children'))]> s) /\
             Forall (removable_subtree forced) (l ++ l1 ++ l2 ++ [])).
  { intros children' l2 Hc2 Hl2. split.
    - eapply Forall2_shrinks_trans; [exact Hs|].
      eapply Forall2_shrinks_insert; [exact Ei|].
      apply calc_depth_omap, Hc2.
    - rewrite app_nil_r, !Forall_app. auto. }
  destruct (decide (fuel = 0)) as [->|Hfuel].
  - assert (cs = []) as ->.
    { rewrite calc_depth_Tag in Hd. destruct cs; [reflexivity|lia]. }
    cbn. apply (Hfinal children []); [exact Hc1|constructor].
  - eapply returns_mono;
      [|apply (returns_times
                 (fun x l0 => Forall2 shrinks (Some <$> cs) x /\
                              Forall (removable_subtree forced) l0))
          with (l0 := []); [|split; [exact Hc1|constructor]]].
    + intros children' l2 [Hc2 Hl2]. apply Hfinal; assumption.
    + intros x l0 [Hx Hl0].
      eapply returns_mono; [|apply IH; [lia|]].
      * intros x' l' [Hx' Hl']. split.
        -- eapply Forall2_shrinks_trans; eassumption.
        -- apply Forall_app. auto.
      * eapply below_shrinks; [|exact Hx]. eapply below_children, Hd.
Qed.

(** The whole pruning pass returns when the fuel exceeds the depth of
    the tree, and every subtree it decomposes is a removable one. *)
Lemma main_content_soup_returns (fuel : nat) (soup : node) :
  _calc_depth soup < fuel ->
  returns (main_content_soup coef forced fuel soup)
    (fun soup' l =>
       _calc_depth soup' <= _calc_depth soup /\
       Forall (removable_subtree forced) l).
Proof.
  intros Hfuel. destruct soup as [t|nm attrs cs]; [cbn; auto|].
  unfold main_content_soup.
  assert (Hb : below fuel (Some <$> cs)).
  { intros i c Hi. rewrite list_lookup_fmap in Hi.
    destruct (cs !! i) as [c'|] eqn:E; [|discriminate]. injection Hi as ->.
    pose proof (calc_depth_child nm attrs cs c (list_elem_of_lookup_2 _ _ _ E)).
    lia. }
  apply returns_bind.
  eapply returns_mono; [|apply main_content_returns; [lia|exact Hb]].
  intros s1 l1 [Hs1 Hl1]. cbv beta.
  apply returns_bind.
  eapply returns_mono;
    [|apply main_content_returns; [lia|eapply below_shrinks; eassumption]].
  intros s2 l2 [Hs2 Hl2]. cbn. split.
  - apply calc_depth_omap. eapply Forall2_shrinks_trans; eassumption.
  - rewrite app_nil_r. apply Forall_app. auto.
Qed.

End PruningProperties.

(** ** Fuel *)

Lemma bind_mono {A B} (m m' : M A) (f f' : A -> M B) r :
  (forall x, m = Some x -> m' = Some x) ->
  (forall x y, f x = Some y -> f' x = Some y) ->
  bind m f = Some r -> bind m' f' = Some r.
Proof.
  intros Hm Hf. unfold bind.
  destruct m as [[x l]|]; [|discriminate].
  rewrite (Hm _ eq_refl).
  destruct (f x) as [[y l']|] eqn:E; [|discriminate].
  rewrite (Hf _ _ E). auto.
Qed.

Lemma for_each_mono {A St} (xs : list A) (body body' : A -> St -> M St) :
  (forall x s r, body x s = Some r -> body' x s = Some r) ->
  forall s r, for_each xs body s = Some r -> for_each xs body' s = Some r.
Proof.
  intros Hb. induction xs as [|x xs IH]; intros s r; simpl; [auto|].
  apply bind_mono; [apply Hb|apply IH].
Qed.

Lemma times_mono {St} (k : nat) (body body' : St -> M St) :
  (forall s r, body s = Some r -> body' s = Some r) ->
  forall s r, times k body s = Some r -> times k body' s = Some r.
Proof.
  intros Hb. induction k as [|k IH]; intros s r; simpl; [auto|].
  apply bind_mono; [apply Hb|apply IH].
Qed.

Lemma main_content_fuel_S coef forced (fuel : nat) :
  forall density siblings r,
    main_content coef forced fuel density siblings = Some r ->
    main_content coef forced (S fuel) density siblings = Some r.
Proof.
  induction fuel as [|fuel IH]; intros density siblings r; [discriminate|].
  intros H. cbn [main_content] in *. revert siblings r H.
  apply for_each_mono. intros e s r.
  destruct (s !! obj e) as [[[t|nm attrs cs]|]|]; auto.
  apply bind_mono; [auto|]. intros children y.
  apply bind_mono; [|auto]. apply times_mono, IH.
Qed.

Lemma main_content_fuel_le coef forced (fuel fuel' : nat) density siblings r :
  fuel <= fuel' ->
  main_content coef forced fuel density siblings = Some r ->
  main_content coef forced fuel' density siblings = Some r.
Proof.
  induction 1 as [|fuel' _ IH]; [auto|].
  intros H. apply main_content_fuel_S, IH, H.
Qed.

Lemma main_content_soup_fuel_le coef forced (fuel fuel' : nat) soup r :
  fuel <= fuel' ->
  main_content_soup coef forced fuel soup = Some r ->
  main_content_soup coef forced fuel' soup = Some r.
Proof.
  intros Hle. destruct soup as [t|nm attrs cs]; [auto|].
  unfold main_content_soup.
  apply bind_mono; [intros x; apply main_content_fuel_le, Hle|].
  intros s1 y. apply bind_mono; [intros x; apply main_content_fuel_le, Hle|auto].
Qed.

Lemma snd_filter_imap (f : nat -> nat) (cs : list node) :
  (filter (fun p : nat * node => is_Tag p.2 = true)
          (imap (fun i c => (f i, c)) cs)).*2
  = filter (fun c => is_Tag c = true) cs.
Proof.
  revert f. induction cs as [|c cs IH]; intros f; [reflexivity|].
  rewrite imap_cons, !filter_cons. cbn [snd].
  destruct (decide (is_Tag c = true)); csimpl; rewrite <- (IH (f ∘ S)); reflexivity.
Qed.

Lemma snd_find_all_children (cs : list node) :
  (find_all_children cs).*2 = filter (fun c => is_Tag c = true) cs.
Proof. apply (snd_filter_imap id). Qed.

(** ** C5: the pruner terminates *)

Lemma main_content_leaf coef forced (fuel : nat) (e : entry)
    (siblings : slots) (n : node) :
  siblings !! obj e = Some (Some n) -> element_children n = [] ->
  main_content coef forced (S fuel) [e] siblings = Some (siblings, []).
Proof.
  intros Hi Hn. cbn [main_content for_each]. rewrite Hi.
  destruct n as [t|nm attrs cs]; [reflexivity|].
  cbn [element_children] in Hn.
  assert (Hc : find_all_children cs = []).
  { apply fmap_nil_inv with (f := snd). rewrite snd_find_all_children. exact Hn. }
  rewrite Hc. cbn. rewrite omap_id_Some, list_insert_id by exact Hi.
  reflexivity.
Qed.

(** C5. With fuel above the depth of the tree the pruner returns, and its
    result does not depend on the fuel; an element child is strictly less
    deep than its parent, so each recursive call works on a set of nodes of
    smaller greatest depth; and a node without element children ends the
    recursion: it is processed with no recursive call, whatever fuel is
    left, and stays as it is. *)
Theorem main_content_terminates (coef : Q) (forced : bool) (soup : node) :
  (exists result,
     forall fuel, _calc_depth soup < fuel ->
       main_content_soup coef forced fuel soup = Some result) /\
  (forall n c, c ∈ element_children n -> _calc_depth c < _calc_depth n) /\
  (forall fuel e siblings n,
     siblings !! obj e = Some (Some n) -> element_children n = [] ->
     main_content coef forced (S fuel) [e] siblings = Some (siblings, [])).
Proof.
  split; [|split].
  - pose proof (main_content_soup_returns coef forced
                  (S (_calc_depth soup)) soup (Nat.lt_succ_diag_r _)) as H.
    destruct (main_content_soup coef forced (S (_calc_depth soup)) soup)
      as [r|] eqn:E; [|destruct H].
    exists r. intros fuel Hfuel.
    eapply main_content_soup_fuel_le; [|exact E]. lia.
  - intros [t|nm attrs cs] c Hc; cbn [element_children] in Hc.
    + inversion Hc.
    + apply list_elem_of_filter in Hc as [_ Hc].
      apply calc_depth_child, Hc.
  - intros fuel e siblings n. apply main_content_leaf.
Qed.

Lemma main_content_terminates_witness :
  exists result,
    main_content_soup (1 # 2) true 7 page_with_shallow_div = Some result.
Proof.
  destruct (main_content_terminates (1 # 2) true page_with_shallow_div)
    as [[result H] _].
  exists result. apply H. apply Nat.ltb_lt. reflexivity.
Defined.

(** ** The dictionary of depths *)

Lemma attrs_eqb_eq (a b : list (str * str)) : attrs_eqb a b = true <-> a = b.
Proof.
  revert b. induction a as [|[k v] a IH]; intros [|[k' v'] b]; simpl; try easy.
  rewrite !andb_true_iff, !str_eqb_eq, IH. split.
  - intros [[-> ->] ->]. reflexivity.
  - intros [= -> -> ->]. auto.
Qed.

Lemma Tag_eq_eq (a b : node) : Tag_eq a b = true <-> a = b.
Proof.
  revert b. induction a as [s|nm attrs cs IH] using node_induction;
    intros [t|nm' attrs' cs']; simpl; try easy.
  - rewrite str_eqb_eq. split; [intros ->; reflexivity|intros [= ->]; reflexivity].
  - rewrite !andb_true_iff, str_eqb_eq, attrs_eqb_eq.
    assert (Hcs : (fix all2 (l l' : list node) {struct l} : bool :=
                     match l, l' with
                     | [], [] => true
                     | x :: r, y :: r' => Tag_eq x y && all2 r r'
                     | _, _ => false
                     end) cs cs' = true <-> cs = cs').
    { clear nm attrs nm' attrs'. revert cs'.
      induction IH as [|c cs Hc _ IHcs]; intros [|c' cs']; try easy.
      rewrite andb_true_iff, Hc, IHcs. split.
      - intros [-> ->]. reflexivity.
      - intros [= -> ->]. auto. }
    rewrite Hcs. split.
    + intros [[-> ->] ->]. reflexivity.
    + intros [= -> -> ->]. auto.
Qed.

Lemma calc_density_snoc (nodes : list (nat * node)) (i : nat) (c : node) :
  _calc_density (nodes ++ [(i, c)])
  = update (_calc_density nodes) (Entry i c (_calc_depth c)).
Proof. unfold _calc_density. rewrite fold_left_app. reflexivity. Qed.

Lemma update_known (d : dict) (e : entry) :
  (forall e', e' ∈ d -> value e' = _calc_depth (key e')) ->
  value e = _calc_depth (key e) ->
  update d e =
    if existsb (fun e' => Tag_eq (key e') (key e)) d then d else d ++ [e].
Proof.
  intros Hd He. unfold update.
  destruct (existsb _ d); [|reflexivity].
  induction d as [|e' d IH]; [reflexivity|]. simpl.
  rewrite IH by (intros; apply Hd; right; assumption). f_equal.
  destruct (Tag_eq (key e') (key e)) eqn:E; [|reflexivity].
  apply Tag_eq_eq in E.
  assert (Hv : value e = value e').
  { rewrite He, <- E. symmetry. apply Hd. left. }
  rewrite Hv. destruct e'; reflexivity.
Qed.

(** The dictionary of a list of nodes: each entry is one of the nodes
    with its depth, no object is entered twice, and every node has an
    entry whose key is equal to it. *)
Lemma calc_density_spec (nodes : list (nat * node)) :
  NoDup nodes.*1 ->
  let d := _calc_density nodes in
  (forall e, e ∈ d ->
     (obj e, key e) ∈ nodes /\ value e = _calc_depth (key e)) /\
  NoDup (obj <$> d) /\
  (forall i c, (i, c) ∈ nodes -> exists e, e ∈ d /\ key e = c).
Proof.
  induction nodes as [|[i c] nodes IH] using rev_ind; intros Hnd d.
  - split; [|split].
    + intros e He. inversion He.
    + constructor.
    + intros i c H. inversion H.
  - rewrite fmap_app in Hnd. apply NoDup_app in Hnd as (Hnd & Hfresh & _).
    destruct (IH Hnd) as (H1 & H2 & H3). clear IH.
    subst d. rewrite calc_density_snoc.
    rewrite update_known; [|intros e' He'; apply H1, He'|reflexivity].
    cbn [key]. destruct (existsb _ _) eqn:Eex.
    + split; [|split].
      * intros e He. destruct (H1 e He). split; [|assumption].
        apply elem_of_app. left. assumption.
      * exact H2.
      * intros j c' Hin. apply elem_of_app in Hin as [Hin|Hin]; [eauto|].
        apply list_elem_of_singleton in Hin as [= -> ->].
        apply existsb_exists in Eex as (e' & He' & Heq).
        exists e'. split; [apply list_elem_of_In, He'|apply Tag_eq_eq, Heq].
    + split; [|split].
      * intros e He. apply elem_of_app in He as [He|He].
        -- destruct (H1 e He). split; [|assumption].
           apply elem_of_app. left. assumption.
        -- apply list_elem_of_singleton in He as ->. split; [|reflexivity].
           apply elem_of_app. right. left.
      * rewrite fmap_app. apply NoDup_app. split; [exact H2|].
        split; [|repeat constructor; inversion 1].
        intros j Hj Hj'. apply list_elem_of_singleton in Hj' as ->.
        apply list_elem_of_fmap in Hj as (e & Hobj & He).
        apply (Hfresh i); [|left].
        apply list_elem_of_fmap. exists (obj e, key e).
        split; [exact Hobj|apply H1, He].
      * intros j c' Hin. apply elem_of_app in Hin as [Hin|Hin].
        -- destruct (H3 j c' Hin) as (e & He & Hk).
           exists e. split; [apply elem_of_app; left; exact He|exact Hk].
        -- apply list_elem_of_singleton in Hin as [= -> ->].
           eexists. split; [apply elem_of_app; right; left|reflexivity].
Qed.

Lemma elem_of_find_all_children (cs : list node) (i : nat) (c : node) :
  (i, c) ∈ find_all_children cs <-> cs !! i = Some c /\ is_Tag c = true.
Proof.
  unfold find_all_children.
  rewrite list_elem_of_filter, elem_of_lookup_imap. cbn [snd]. split.
  - intros (Ht & j & y & [= -> ->] & Hj). auto.
  - intros (Hi & Ht). split; [exact Ht|]. exists i, c. auto.
Qed.

Lemma NoDup_find_all_children (cs : list node) :
  NoDup (find_all_children cs).*1.
Proof.
  apply sublist_NoDup with (l2 := seq 0 (length cs)); [apply NoDup_seq|].
  unfold find_all_children.
  transitivity ((imap (fun i c => (i, c)) cs).*1).
  - apply fmap_sublist, sublist_filter.
  - rewrite fmap_imap.
    rewrite (imap_ext _ (fun i _ => i)) by reflexivity.
    rewrite (imap_seq_0 cs (fun i => i)), list_fmap_id. reflexivity.
Qed.

(** ** C2: the threshold and the test of the inner loop *)

Lemma prune_step forced avg (e : entry) (children : slots) :
  (if kept_by_tag (key e) then ret children
   else if kept_by_h1 (key e) then ret children
   else if kept_by_forced forced (key e) then ret children
   else if Qltb (Q_of_nat (value e)) avg
        then decompose (key e) ;;; ret (<[obj e := None]> children)
        else ret children)
  = Some (if removed_by forced avg e then <[obj e := None]> children
          else children,
          if removed_by forced avg e then [key e] else []).
Proof.
  unfold removed_by.
  destruct (kept_by_tag (key e)); [reflexivity|].
  destruct (kept_by_h1 (key e)); [reflexivity|].
  destruct (kept_by_forced forced (key e)); [reflexivity|].
  destruct (Qltb _ _); reflexivity.
Qed.

Lemma prune_spec forced avg (keys : dict) :
  forall children : slots,
    NoDup (obj <$> keys) ->
    (forall e, e ∈ keys -> obj e < length children) ->
    exists children',
      prune forced avg keys children
        = Some (children',
                key <$> filter (fun e => removed_by forced avg e = true) keys) /\
      length children' = length children /\
      (forall e, e ∈ keys ->
         children' !! obj e =
           if removed_by forced avg e then Some None else children !! obj e) /\
      (forall i, i ∉ obj <$> keys -> children' !! i = children !! i).
Proof.
  unfold prune.
  induction keys as [|e keys IH]; intros children Hnd Hlen.
  - exists children. repeat split; auto. intros e He. inversion He.
  - rewrite fmap_cons in Hnd. apply NoDup_cons in Hnd as [Hfresh Hnd].
    set (children1 := if removed_by forced avg e
                      then <[obj e := None]> children else children).
    assert (Hlen1 : length children1 = length children).
    { subst children1. destruct (removed_by _ _ _); [apply length_insert|reflexivity]. }
    destruct (IH children1 Hnd) as (children' & Hrun & Hl & Hkeys & Hrest).
    { intros e' He'. rewrite Hlen1. apply Hlen. right. exact He'. }
    exists children'. split; [|split; [|split]].
    + cbn [for_each]. rewrite prune_step, bind_Some.
      change (if removed_by forced avg e
              then <[obj e := None]> children else children) with children1.
      rewrite Hrun. rewrite filter_cons.
      destruct (removed_by forced avg e) eqn:E.
      * rewrite decide_True by reflexivity. reflexivity.
      * rewrite decide_False by discriminate. reflexivity.
    + lia.
    + intros e' He'. apply elem_of_cons in He' as [->|He'].
      * rewrite Hrest by exact Hfresh. subst children1.
        destruct (removed_by forced avg e); [|reflexivity].
        apply list_lookup_insert_eq, Hlen. left.
      * rewrite (Hkeys e' He').
        destruct (removed_by forced avg e'); [reflexivity|].
        subst children1. destruct (removed_by forced avg e); [|reflexivity].
        apply list_lookup_insert_ne. intros Heq. apply Hfresh.
        rewrite Heq. apply list_elem_of_fmap. eauto.
    + intros i Hi. rewrite fmap_cons in Hi. apply not_elem_of_cons in Hi as [Hne Hi].
      rewrite (Hrest i Hi). subst children1.
      destruct (removed_by forced avg e); [|reflexivity].
      apply list_lookup_insert_ne. auto.
Qed.

Lemma removed_by_iff forced avg (e : entry) :
  removed_by forced avg e = true <->
  unguarded forced (key e) /\ (Q_of_nat (value e) < avg)%Q.
Proof.
  assert (Hlt : Qltb (Q_of_nat (value e)) avg = true <->
                (Q_of_nat (value e) < avg)%Q).
  { unfold Qltb. rewrite negb_true_iff, <- not_true_iff_false, Qle_bool_iff.
    split; [apply Qnot_le_lt|apply Qlt_not_le]. }
  unfold removed_by, unguarded.
  rewrite !andb_true_iff, !negb_true_iff, Hlt. tauto.
Qed.

Lemma update_keys (d : dict) (e : entry) :
  key <$> update d e =
    if existsb (fun e' => Tag_eq (key e') (key e)) d
    then key <$> d else (key <$> d) ++ [key e].
Proof.
  unfold update. destruct (existsb _ d).
  - induction d as [|e' d IH]; [reflexivity|]. cbn [map fmap list_fmap].
    f_equal; [|exact IH]. destruct (Tag_eq (key e') (key e)); reflexivity.
  - rewrite fmap_app. reflexivity.
Qed.

Lemma existsb_key (d : dict) (c : node) :
  existsb (fun e' => Tag_eq (key e') c) d = true <-> c ∈ key <$> d.
Proof.
  rewrite existsb_exists, list_elem_of_fmap. split.
  - intros (e & He & Heq). apply Tag_eq_eq in Heq.
    exists e. split; [symmetry; exact Heq|apply list_elem_of_In, He].
  - intros (e & -> & He). exists e.
    split; [apply list_elem_of_In, He|apply Tag_eq_eq; reflexivity].
Qed.

Lemma density_keys (nodes : list (nat * node)) :
  NoDup (key <$> _calc_density nodes) /\
  (forall c, c ∈ key <$> _calc_density nodes <-> c ∈ nodes.*2).
Proof.
  induction nodes as [|[i c] nodes [IH1 IH2]] using rev_ind.
  - split; [constructor|]. intros c. split; inversion 1.
  - rewrite calc_density_snoc, update_keys. cbn [key].
    destruct (existsb _ _) eqn:E.
    + apply existsb_key in E. split; [exact IH1|].
      intros c'. rewrite fmap_app, elem_of_app, IH2. cbn.
      rewrite list_elem_of_singleton. split; [auto|].
      intros [H| ->]; [exact H|]. apply IH2, E.
    + assert (Hc : c ∉ key <$> _calc_density nodes).
      { intros H. apply existsb_key in H. congruence. }
      split.
      * apply NoDup_app. split; [exact IH1|].
        split; [|apply NoDup_singleton].
        intros x Hx Hx'. apply list_elem_of_singleton in Hx' as ->. auto.
      * intros c'. rewrite fmap_app, !elem_of_app, IH2. reflexivity.
Qed.




(** ** Scanning *)

Lemma startswith_app (pat s : str) : startswith pat (pat ++ s) = true.
Proof.
  induction pat as [|p pat IH]; [reflexivity|]. simpl.
  rewrite IH, andb_true_r. apply ascii_eqb_eq. reflexivity.
Qed.

Lemma startswith_prefix (pat s : str) :
  startswith pat s = true <-> exists rest, s = pat ++ rest.
Proof.
  split.
  - revert s. induction pat as [|p pat IH]; intros s H; [exists s; reflexivity|].
    destruct s as [|c s]; [discriminate|]. simpl in H.
    apply andb_true_iff in H as [Hc H]. apply ascii_eqb_eq in Hc as ->.
    destruct (IH s H) as [rest ->]. exists rest. reflexivity.
  - intros [rest ->]. apply startswith_app.
Qed.

Lemma segments_from_skip (m : str -> option nat) (k : nat) (s : str) :
  segments_from m k s = segments m (drop k s).
Proof.
  revert k. induction s as [|c s IH]; intros [|k]; try reflexivity.
  simpl. apply IH.
Qed.

Lemma segments_match (m : str -> option nat) (s : str) (n : nat) :
  m s = Some n -> 0 < n -> s <> [] ->
  segments m s = Match (take n s) :: segments m (drop n s).
Proof.
  intros Hm Hn Hs. destruct s as [|c s]; [easy|].
  unfold segments at 1. cbn [segments_from]. rewrite Hm. f_equal.
  rewrite segments_from_skip. destruct n as [|n]; [lia|].
  simpl. rewrite Nat.sub_0_r. reflexivity.
Qed.

Lemma segments_gap (m : str -> option nat) (c : ascii) (s : str) :
  m (c :: s) = None -> segments m (c :: s) = Gap c :: segments m s.
Proof. intros Hm. unfold segments. cbn [segments_from]. rewrite Hm. reflexivity. Qed.

Lemma segments_gaps (m : str -> option nat) (pre rest : str) :
  (forall i, i < length pre -> m (drop i (pre ++ rest)) = None) ->
  segments m (pre ++ rest) = (Gap <$> pre) ++ segments m rest.
Proof.
  induction pre as [|c pre IH]; intros H; [reflexivity|].
  cbn [app]. rewrite segments_gap by (apply (H 0); simpl; lia).
  cbn [fmap list_fmap app]. f_equal. apply IH.
  intros i Hi. apply (H (S i)). simpl. lia.
Qed.

Lemma literal_absent (pat : str) (n : nat) (s : str) :
  absent_before pat n s -> forall i, i < n -> literal pat (drop i s) = None.
Proof. intros H i Hi. unfold literal. rewrite (H i Hi). reflexivity. Qed.

Lemma absent_before_contains (pat s : str) :
  contains pat s = false -> absent_before pat (S (length s)) s.
Proof.
  induction s as [|c s IH]; simpl; intros H i Hi.
  - rewrite drop_nil. apply orb_false_iff in H as [H _]. exact H.
  - apply orb_false_iff in H as [H0 H]. destruct i as [|i]; [exact H0|].
    simpl. apply IH; [exact H|lia].
Qed.

(** *** [replace] *)

Lemma replace_match (old new rest : str) :
  old <> [] -> replace old new (old ++ rest) = new ++ replace old new rest.
Proof.
  intros Hold. unfold replace. destruct old as [|o old]; [easy|].
  rewrite (segments_match _ _ (length (o :: old))).
  - simpl flat_map. f_equal.
    rewrite drop_app_length. reflexivity.
  - unfold literal. rewrite startswith_app. reflexivity.
  - simpl. lia.
  - easy.
Qed.

Lemma replace_gaps (old new pre rest : str) :
  old <> [] -> absent_before old (length pre) (pre ++ rest) ->
  replace old new (pre ++ rest) = pre ++ replace old new rest.
Proof.
  intros Hold H. unfold replace. destruct old as [|o old]; [easy|].
  rewrite segments_gaps by (apply literal_absent, H).
  rewrite flat_map_app. f_equal.
  clear. induction pre as [|c pre IH]; [reflexivity|]. simpl. f_equal. exact IH.
Qed.

Lemma replace_absent (old new s : str) :
  old <> [] -> contains old s = false -> replace old new s = s.
Proof.
  intros Hold H. rewrite <- (app_nil_r s) at 1.
  rewrite replace_gaps; [|exact Hold|].
  - destruct old; [easy|]. rewrite app_nil_r. reflexivity.
  - rewrite app_nil_r. intros i Hi.
    apply (absent_before_contains _ _ H). lia.
Qed.

(** *** [split] *)







(** ** C10: the domain of a URL *)






(** ** C6: the paragraph step *)

Lemma wrap_paragraphs_cons (p : node) (ps : list node) (s : str) :
  wrap_paragraphs (p :: ps) s = wrap_paragraphs ps (wrap_paragraphs [p] s).
Proof. reflexivity. Qed.

(** C6, as the code has it. The loop takes the paragraphs in their
    order, each on the string the ones before it have left. A paragraph
    whose text is the empty string is skipped. For a paragraph whose
    trimmed text [t] is not empty, the turn of the loop wraps the first
    occurrence of [t] in the string it is given in line breaks and goes on
    with the rest of that string in the same way, so that every occurrence
    met from left to right is wrapped; a string without an occurrence is
    left as it is. For a paragraph that holds space characters only, the
    two line breaks are put before every character and at the end. *)
Theorem wrap_paragraphs_every_occurrence :
  (forall s, wrap_paragraphs [] s = s) /\
  (forall p paragr s,
     wrap_paragraphs (p :: paragr) s
     = wrap_paragraphs paragr (wrap_paragraphs [p] s)) /\
  (forall p s, text p = [] -> wrap_paragraphs [p] s = s) /\
  (forall p pre rest,
     strip (text p) <> [] ->
     absent_before (strip (text p)) (length pre)
                   (pre ++ strip (text p) ++ rest) ->
     wrap_paragraphs [p] (pre ++ strip (text p) ++ rest)
     = pre ++ [newline] ++ strip (text p) ++ [newline]
           ++ wrap_paragraphs [p] rest) /\
  (forall p s,
     strip (text p) <> [] -> contains (strip (text p)) s = false ->
     wrap_paragraphs [p] s = s) /\
  (forall p s,
     text p <> [] -> strip (text p) = [] ->
     wrap_paragraphs [p] s
     = [newline; newline] ++ flat_map (fun c => c :: [newline; newline]) s).
Proof.
  split; [reflexivity|]. split; [reflexivity|].
  unfold wrap_paragraphs. cbn [fold_left]. split; [|split; [|split]].
  - intros p s ->. reflexivity.
  - intros p pre rest Ht Habs.
    destruct (str_eqb (text p) []) eqn:E.
    { apply str_eqb_eq in E. rewrite E in Ht. easy. }
    rewrite replace_gaps, replace_match by assumption.
    rewrite <- !app_assoc. reflexivity.
  - intros p s Ht Habs.
    destruct (str_eqb (text p) []) eqn:E; [reflexivity|].
    apply replace_absent; assumption.
  - intros p s Ht Hs.
    destruct (str_eqb (text p) []) eqn:E.
    { apply str_eqb_eq in E. contradiction. }
    rewrite Hs. reflexivity.
Qed.

Lemma wrap_paragraphs_every_occurrence_witness :
  wrap_paragraphs [el "p" [tx " ab "]] (py "x " ++ py "ab" ++ py " ab")
  = py "x " ++ [newline] ++ py "ab" ++ [newline]
        ++ wrap_paragraphs [el "p" [tx " ab "]] (py " ab").
Proof.
  apply (proj1 (proj2 (proj2 (proj2 wrap_paragraphs_every_occurrence)))
           (el "p" [tx " ab "]) (py "x ") (py " ab")).
  - discriminate.
  - intros i Hi. do 2 (destruct i as [|i]; [reflexivity|]). simpl in Hi. lia.
Defined.

(** C6 as stated fails: the paragraph text occurs twice and both
    occurrences are wrapped, where a single substitution would wrap the
    first only. *)
Lemma wrap_paragraphs_second_occurrence :
  wrap_paragraphs [el "p" [tx "ab"]] (py "ab ab")
  = [newline] ++ py "ab" ++ [newline] ++ py " "
      ++ [newline] ++ py "ab" ++ [newline] /\
  wrap_paragraphs [el "p" [tx "ab"]] (py "ab ab")
  <> replace_first (py "ab") ([newline] ++ py "ab" ++ [newline]) (py "ab ab").
Proof. split; [reflexivity|]. vm_compute. discriminate. Qed.

(** A paragraph of blanks is not skipped: its trimmed text is empty,
    and replacing the empty string puts the line breaks around every
    character. *)
Lemma wrap_paragraphs_blank_paragraph :
  wrap_paragraphs [el "p" [tx " "]] (py "ab")
  = [newline; newline] ++ py "a" ++ [newline; newline] ++ py "b"
      ++ [newline; newline].
Proof. reflexivity. Qed.

(** The line breaks of an earlier paragraph cut the text of a later
    one: [bc] occurs in [abc], and is not wrapped once [ab] is. *)
Lemma wrap_paragraphs_cut_occurrence :
  wrap_paragraphs [el "p" [tx "ab"]; el "p" [tx "bc"]] (py "abc")
  = [newline] ++ py "ab" ++ [newline] ++ py "c".
Proof. reflexivity. Qed.

(** ** C9: paragraphs and anchors that are missing or empty *)

Lemma get_urls_loop_error (f : exn + list (str * str) -> node ->
                               exn + list (str * str)) (urls : list node) e :
  (forall u, f (inl e) u = inl e) -> fold_left f urls (inl e) = inl e.
Proof.
  intros Hf. induction urls as [|u urls IH]; [reflexivity|].
  simpl. rewrite Hf. exact IH.
Qed.





(** ** C8: the preprocessor *)

Lemma subn_gaps (p : pattern) (pre rest : str) :
  (forall i, i < length pre -> match_here p (drop i (pre ++ rest)) = None) ->
  subn p (pre ++ rest) = pre ++ subn p rest.
Proof.
  intros H. unfold subn. rewrite segments_gaps by exact H.
  rewrite flat_map_app. f_equal.
  clear. induction pre as [|c pre IH]; [reflexivity|]. simpl. f_equal. exact IH.
Qed.

Lemma subn_match (p : pattern) (s : str) (n : nat) :
  match_here p s = Some n -> 0 < n -> s <> [] -> subn p s = subn p (drop n s).
Proof.
  intros Hm Hn Hs. unfold subn. rewrite (segments_match _ _ n) by assumption.
  reflexivity.
Qed.

Lemma match_here_absent (p : pattern) (n : nat) (s : str) :
  absent_before (opening p) n s ->
  forall i, i < n -> match_here p (drop i s) = None.
Proof. intros H i Hi. unfold match_here. rewrite (H i Hi). reflexivity. Qed.

Lemma subn_absent (p : pattern) (s : str) :
  contains (opening p) s = false -> subn p s = s.
Proof.
  intros H. rewrite <- (app_nil_r s) at 1. rewrite subn_gaps.
  - rewrite app_nil_r. reflexivity.
  - rewrite app_nil_r. intros i Hi.
    apply match_here_absent with (n := S (length s)); [|lia].
    apply absent_before_contains, H.
Qed.

Lemma match_lazy_block (close : str) (dot_all : bool) (body post : str) :
  absent_before close (length body) (body ++ close ++ post) ->
  (dot_all = false -> newline ∉ body) ->
  match_lazy close dot_all (body ++ close ++ post)
  = Some (length body + length close).
Proof.
  induction body as [|c body IH]; intros Habs Hnl.
  - simpl. destruct (close ++ post) eqn:E; simpl;
      rewrite <- ?E, startswith_app; reflexivity.
  - cbn [app match_lazy].
    assert (H0 : startswith close (c :: body ++ close ++ post) = false)
      by (apply (Habs 0); simpl; lia).
    rewrite H0.
    assert (Hc : negb dot_all && ascii_eqb c newline = false).
    { destruct dot_all; [reflexivity|]. simpl.
      apply not_true_iff_false. intros Hc. apply ascii_eqb_eq in Hc as ->.
      apply (Hnl eq_refl). left. }
    rewrite Hc, IH.
    + reflexivity.
    + intros i Hi. apply (Habs (S i)). simpl. lia.
    + intros Hd Hin. apply (Hnl Hd). right. exact Hin.
Qed.

Lemma match_here_block (p : pattern) (body post : str) :
  absent_before (closing p) (length body) (body ++ closing p ++ post) ->
  (dotall p = false -> newline ∉ body) ->
  match_here p (opening p ++ body ++ closing p ++ post)
  = Some (length (opening p ++ body ++ closing p)).
Proof.
  intros Habs Hnl. unfold match_here.
  rewrite startswith_app, drop_app_length, match_lazy_block by assumption.
  cbn. rewrite !length_app. reflexivity.
Qed.

(** The removal of one block by one pattern: the text up to the first
    opening stays, the block from that opening to the first closing after
    it goes, and the scan goes on behind it. *)
Lemma subn_block (p : pattern) (pre body post : str) :
  opening p <> [] ->
  absent_before (opening p) (length pre)
                (pre ++ opening p ++ body ++ closing p ++ post) ->
  absent_before (closing p) (length body) (body ++ closing p ++ post) ->
  (dotall p = false -> newline ∉ body) ->
  subn p (pre ++ opening p ++ body ++ closing p ++ post)
  = pre ++ subn p post.
Proof.
  intros Ho Hpre Hbody Hnl.
  rewrite subn_gaps by (apply match_here_absent, Hpre). f_equal.
  rewrite (subn_match p _ _ (match_here_block p body post Hbody Hnl)).
  - rewrite !app_assoc, drop_app_length. reflexivity.
  - rewrite length_app. destruct (opening p); [easy|simpl; lia].
  - destruct (opening p); easy.
Qed.

Lemma prepocess_unchanged (patterns : list pattern) (html : str) :
  (forall p, p ∈ patterns -> contains (opening p) html = false) ->
  fold_left (fun html pattern => subn pattern html) patterns html = html.
Proof.
  induction patterns as [|p ps IH]; intros H; [reflexivity|].
  cbn [fold_left]. rewrite subn_absent by (apply H; left).
  apply IH. intros q Hq. apply H. right. exact Hq.
Qed.

Lemma matches_none (p : pattern) (s : str) :
  matches p s = false -> forall i, match_here p (drop i s) = None.
Proof.
  induction s as [|c s IH]; intros H i.
  - rewrite drop_nil. cbn [matches] in H.
    destruct (match_here p []); [discriminate H|reflexivity].
  - cbn [matches] in H. destruct (match_here p (c :: s)) eqn:E; [discriminate H|].
    destruct i as [|i]; [exact E|]. apply IH, H.
Qed.

Lemma subn_unmatched (p : pattern) (s : str) :
  matches p s = false -> subn p s = s.
Proof.
  intros H. rewrite <- (app_nil_r s) at 1. rewrite subn_gaps.
  - rewrite app_nil_r. reflexivity.
  - rewrite app_nil_r. intros i _. apply matches_none, H.
Qed.

Lemma fold_subn_unmatched (patterns : list pattern) (html : str) :
  (forall q, q ∈ patterns -> matches q html = false) ->
  fold_left (fun html pattern => subn pattern html) patterns html = html.
Proof.
  induction patterns as [|q l IH]; intros H; [reflexivity|].
  cbn [fold_left]. rewrite subn_unmatched by (apply H; left).
  apply IH. intros q' Hq'. apply H. right. exact Hq'.
Qed.

(** When one pattern of the list changes the markup and no other one
    matches before or after that, the list does what that pattern does. *)
Lemma fold_subn_one (patterns : list pattern) (p : pattern) (html out : str) :
  NoDup patterns -> p ∈ patterns ->
  (forall q, q ∈ patterns -> q <> p ->
     matches q html = false /\ matches q out = false) ->
  subn p html = out ->
  fold_left (fun html pattern => subn pattern html) patterns html = out.
Proof.
  induction patterns as [|q l IH]; intros Hnd Hp Hq Hout; [inversion Hp|].
  apply NoDup_cons in Hnd as [Hfresh Hnd]. cbn [fold_left].
  apply elem_of_cons in Hp as [->|Hp].
  - rewrite Hout. apply fold_subn_unmatched. intros q' Hq'.
    apply Hq; [right; exact Hq'|]. intros ->. contradiction.
  - assert (Hne : q <> p) by (intros ->; contradiction).
    rewrite subn_unmatched by (apply Hq; [left|exact Hne]).
    apply IH; try assumption.
    intros q' Hq' Hne'. apply Hq; [right; exact Hq'|exact Hne'].
Qed.

Lemma NoDup_pre_processing : NoDup pre_processing.
Proof.
  unfold pre_processing.
  repeat (apply NoDup_cons; split;
          [intros H; repeat (apply elem_of_cons in H as [H|H];
                             [discriminate H|]); inversion H|]).
  apply NoDup_nil_2.
Qed.

(** C8, as the code has it, where [re] accepts a pattern that ends with
    [(?s)]. The preprocessor applies the eight patterns one after the
    other, each to what the one before it has left, and leaves as it is a
    markup in which none of them matches. For [script], [style], [nav],
    [footer], [header] and [form], the pattern removes the text from the
    first opening [<name] to the first closing tag [</name>] that follows
    it, and goes on with the text behind that closing tag; the pattern for
    [meta] removes the text from the first [<meta] to the first [>] behind
    it on the same line. When the pattern does not match behind such a
    block, and no other pattern of the list matches in the markup or in
    what is left of it without the block, the preprocessor returns the
    markup without the block. *)
Theorem prepocess_spec :
  (forall html,
     _prepocess html
     = subn (family_pattern (py "form"))
         (subn (family_pattern (py "header"))
            (subn (family_pattern (py "footer"))
               (subn (family_pattern (py "nav"))
                  (subn (Pattern (py "<ul")
                                 (py "</" ++ [ascii_of_nat 1] ++ py ">") true)
                     (subn meta_pattern
                        (subn (family_pattern (py "style"))
                           (subn (family_pattern (py "script")) html)))))))) /\
  (forall html,
     (forall p, p ∈ pre_processing -> matches p html = false) ->
     _prepocess html = html) /\
  (forall name pre body post,
     name ∈ families ->
     let p := family_pattern name in
     let html := pre ++ opening p ++ body ++ closing p ++ post in
     absent_before (opening p) (length pre) html ->
     absent_before (closing p) (length body) (body ++ closing p ++ post) ->
     p ∈ pre_processing /\
     subn p html = pre ++ subn p post /\
     (matches p post = false ->
      (forall q, q ∈ pre_processing -> q <> p ->
         matches q html = false /\ matches q (pre ++ post) = false) ->
      _prepocess html = pre ++ post)) /\
  (forall pre body post,
     let p := meta_pattern in
     let html := pre ++ opening p ++ body ++ closing p ++ post in
     absent_before (opening p) (length pre) html ->
     absent_before (closing p) (length body) (body ++ closing p ++ post) ->
     newline ∉ body ->
     p ∈ pre_processing /\
     subn p html = pre ++ subn p post /\
     (matches p post = false ->
      (forall q, q ∈ pre_processing -> q <> p ->
         matches q html = false /\ matches q (pre ++ post) = false) ->
      _prepocess html = pre ++ post)).
Proof.
  assert (Hone : forall p html pre post,
            p ∈ pre_processing -> subn p html = pre ++ subn p post ->
            matches p post = false ->
            (forall q, q ∈ pre_processing -> q <> p ->
               matches q html = false /\ matches q (pre ++ post) = false) ->
            _prepocess html = pre ++ post).
  { intros p html pre post Hp Hsub Hpost Hq.
    apply (fold_subn_one pre_processing p);
      [apply NoDup_pre_processing|exact Hp|exact Hq|].
    rewrite Hsub, (subn_unmatched p post Hpost). reflexivity. }
  split; [reflexivity|]. split; [|split].
  - intros html H. apply fold_subn_unmatched, H.
  - intros name pre body post Hname p html Hpre Hbody.
    assert (Hp : p ∈ pre_processing).
    { subst p. unfold families in Hname.
      repeat (apply elem_of_cons in Hname as [->|Hname];
              [apply list_elem_of_In; vm_compute; tauto|]).
      inversion Hname. }
    assert (Hsub : subn p html = pre ++ subn p post).
    { apply subn_block; try assumption; [easy|discriminate]. }
    split; [exact Hp|]. split; [exact Hsub|].
    intros Hpost Hq. eapply Hone; eassumption.
  - intros pre body post p html Hpre Hbody Hnl.
    assert (Hp : p ∈ pre_processing).
    { apply list_elem_of_In. vm_compute. tauto. }
    assert (Hsub : subn p html = pre ++ subn p post).
    { apply subn_block; try assumption; [easy|]. intros _. exact Hnl. }
    split; [exact Hp|]. split; [exact Hsub|].
    intros Hpost Hq. eapply Hone; eassumption.
Qed.

Lemma prepocess_spec_witness :
  _prepocess (py "<p>a</p>" ++ py "<nav" ++ py " id=n>menu" ++ py "</nav>"
                ++ py "<p>b</p>")
  = py "<p>a</p>" ++ py "<p>b</p>".
Proof.
  apply (proj1 (proj2 (proj2 prepocess_spec))
           (py "nav") (py "<p>a</p>") (py " id=n>menu") (py "<p>b</p>")).
  - apply list_elem_of_In. vm_compute. tauto.
  - intros i Hi. do 8 (destruct i as [|i]; [reflexivity|]). simpl in Hi. lia.
  - intros i Hi. do 10 (destruct i as [|i]; [reflexivity|]). simpl in Hi. lia.
  - reflexivity.
  - intros q Hq Hne. unfold pre_processing in Hq.
    repeat (apply elem_of_cons in Hq as [->|Hq];
            [first [split; reflexivity|exfalso; apply Hne; reflexivity]|]).
    inversion Hq.
Defined.

(** C8 as stated fails: the lazy pattern stops at the first closing
    tag, so a [nav] inside a [nav] leaves the text behind the inner
    closing tag in the markup. *)
Lemma prepocess_nested_nav :
  _prepocess (py "<nav><nav>a</nav>b</nav>") = py "b</nav>".
Proof. reflexivity. Qed.

(** The pattern for [ul] closes on the character of code 1, not on
    [</ul>]: a list stays in the markup. *)
Lemma prepocess_keeps_ul :
  _prepocess (py "<ul><li>x</li></ul>") = py "<ul><li>x</li></ul>".
Proof. reflexivity. Qed.

(** The patterns work on one another's results: the pattern for
    [script] takes the text from [<script] to [</script>] out first, and
    with it the closing tag of the first [nav]; the pattern for [nav] then
    removes everything up to the last [</nav>]. On its own the pattern
    for [nav] stops at the first. *)
Lemma prepocess_patterns_interact :
  _prepocess (py "<nav>x<script>y</nav>z</script>w</nav>") = [] /\
  subn (family_pattern (py "nav")) (py "<nav>x<script>y</nav>z</script>w</nav>")
  = py "z</script>w</nav>".
Proof. split; reflexivity. Qed.

(** ** Lines *)

Lemma lines_nil : lines [] = [[]].
Proof. reflexivity. Qed.

Lemma lines_cons_newline (s : str) : lines (newline :: s) = [] :: lines s.
Proof.
  unfold lines, split.
  rewrite (segments_match _ (newline :: s) 1); [reflexivity|reflexivity|lia|easy].
Qed.

Lemma lines_cons_other (c : ascii) (s : str) :
  c <> newline -> lines (c :: s) = (c :: hd [] (lines s)) :: tl (lines s).
Proof.
  intros Hc. unfold lines, split. rewrite segments_gap; [reflexivity|].
  unfold literal. cbn [startswith].
  destruct (ascii_eqb newline c) eqn:E; [|reflexivity].
  apply ascii_eqb_eq in E. congruence.
Qed.

Lemma lines_cons (c : ascii) (s : str) :
  lines (c :: s) =
  if ascii_eqb c newline then [] :: lines s
  else (c :: hd [] (lines s)) :: tl (lines s).
Proof.
  destruct (ascii_eqb c newline) eqn:E.
  - apply ascii_eqb_eq in E as ->. apply lines_cons_newline.
  - apply lines_cons_other. intros ->.
    rewrite (proj2 (ascii_eqb_eq _ _) eq_refl) in E. discriminate.
Qed.

Lemma lines_nonempty (s : str) : exists l ls, lines s = l :: ls.
Proof.
  destruct s as [|c s]; [rewrite lines_nil; eauto|].
  rewrite lines_cons. destruct (ascii_eqb c newline); eauto.
Qed.

Lemma lines_app_newline (a b : str) :
  lines (a ++ newline :: b) = lines a ++ lines b.
Proof.
  induction a as [|c a IH]; [apply lines_cons_newline|].
  cbn [app]. rewrite !lines_cons, IH.
  destruct (ascii_eqb c newline); [reflexivity|].
  destruct (lines_nonempty a) as (l & ls & ->). reflexivity.
Qed.

Lemma lines_free (w : str) : newline ∉ w -> lines w = [w].
Proof.
  induction w as [|c w IH]; intros H; [reflexivity|].
  rewrite lines_cons_other, IH; [reflexivity| |].
  - intros Hin. apply H. right. exact Hin.
  - intros ->. apply H. left.
Qed.

Lemma append_last_cons (l : str) (ls : list str) (w : str) :
  ls <> [] -> append_last (l :: ls) w = l :: append_last ls w.
Proof. destruct ls; [easy|reflexivity]. Qed.

Lemma append_last_snoc (closed : list str) (cur w : str) :
  append_last (closed ++ [cur]) w = closed ++ [cur ++ w].
Proof.
  induction closed as [|l closed IH]; [reflexivity|].
  cbn [app]. rewrite append_last_cons, IH; [reflexivity|].
  destruct closed; easy.
Qed.

Lemma lines_app_free (a w : str) :
  newline ∉ w -> lines (a ++ w) = append_last (lines a) w.
Proof.
  intros Hw. induction a as [|c a IH]; [apply lines_free, Hw|].
  cbn [app]. rewrite !lines_cons, IH.
  destruct (lines_nonempty a) as (l & ls & E). rewrite E.
  destruct (ascii_eqb c newline).
  - symmetry. apply append_last_cons. easy.
  - destruct ls as [|l' ls]; reflexivity.
Qed.

Lemma lines_snoc_free (out w : str) (closed : list str) (cur : str) :
  newline ∉ w -> lines out = closed ++ [cur] ->
  lines (out ++ w) = closed ++ [cur ++ w].
Proof.
  intros Hw E. rewrite lines_app_free, E by exact Hw. apply append_last_snoc.
Qed.

Lemma lines_snoc_newline (out : str) (closed : list str) (cur : str) :
  lines out = closed ++ [cur] ->
  lines (out ++ [newline]) = (closed ++ [cur]) ++ [[]].
Proof. intros E. rewrite lines_app_newline, E. reflexivity. Qed.

(** Collapsing three newlines into one makes no new line. *)
Lemma lines_replace_newlines (n : nat) :
  forall s, length s <= n ->
    let r := replace [newline; newline; newline] [newline] s in
    hd [] (lines r) = hd [] (lines s) /\
    forall line, line ∈ tl (lines r) -> line ∈ tl (lines s).
Proof.
  induction n as [|n IH]; intros s Hs r.
  { destruct s; [|simpl in Hs; lia]. split; [reflexivity|auto]. }
  destruct s as [|c s]; [split; [reflexivity|auto]|].
  assert (Hall : forall t, length t <= n ->
            forall line,
              line ∈ lines (replace [newline; newline; newline] [newline] t) ->
              line ∈ lines t).
  { intros t Ht line Hin. destruct (IH t Ht) as [Hhd Htl].
    destruct (lines_nonempty t) as (l & ls & E).
    destruct (lines_nonempty (replace [newline; newline; newline] [newline] t))
      as (l' & ls' & E').
    rewrite E, E' in *. cbn [hd tl] in *. subst l'.
    apply elem_of_cons in Hin as [->|Hin]; [left|right; auto]. }
  destruct (startswith [newline; newline; newline] (c :: s)) eqn:Eq.
  - apply startswith_prefix in Eq as [rest Eq].
    subst r. rewrite Eq, replace_match by easy.
    cbn [app]. rewrite !lines_cons_newline. cbn [hd tl].
    split; [reflexivity|]. intros line Hin. right. right.
    apply Hall; [|exact Hin].
    apply (f_equal length) in Eq. simpl in Eq, Hs. lia.
  - subst r.
    rewrite (replace_gaps _ _ [c] s) by
      (easy || (intros i Hi; destruct i; [exact Eq|simpl in Hi; lia])).
    cbn [app]. simpl in Hs.
    destruct (IH s ltac:(lia)) as [Hhd Htl]. rewrite !lines_cons.
    destruct (ascii_eqb c newline); cbn [hd tl].
    + split; [reflexivity|]. intros line. apply Hall. lia.
    + rewrite Hhd. split; [reflexivity|exact Htl].
Qed.

Lemma Forall_lines_replace (P : str -> Prop) (s : str) :
  Forall P (lines s) ->
  Forall P (lines (replace [newline; newline; newline] [newline] s)).
Proof.
  intros H. apply Forall_forall. intros line Hin.
  rewrite Forall_forall in H. apply H.
  destruct (lines_replace_newlines (length s) s (le_n _)) as [Hhd Htl].
  destruct (lines_nonempty s) as (l & ls & E).
  destruct (lines_nonempty (replace [newline; newline; newline] [newline] s))
    as (l' & ls' & E').
  rewrite E, E' in *. cbn [hd tl] in *. subst l'.
  apply elem_of_cons in Hin as [->|Hin]; [left|right; auto].
Qed.

(** ** The shape of the tokens *)

Lemma isword_not_space (c : ascii) : isword c = true -> isspace c = false.
Proof.
  destruct c as [b0 b1 b2 b3 b4 b5 b6 b7].
  destruct b0, b1, b2, b3, b4, b5, b6, b7; vm_compute; intros H;
    first [reflexivity | discriminate H].
Qed.

Lemma Forall_take_run (f : ascii -> bool) (s : str) :
  Forall (fun c => f c = true) (take (run f s) s).
Proof.
  induction s as [|c s IH]; [constructor|]. cbn [run].
  destruct (f c) eqn:E; [|constructor]. cbn [take]. constructor; assumption.
Qed.

Lemma run_positive (f : ascii -> bool) (s : str) (n : nat) :
  run f s = S n -> take (S n) s <> [].
Proof. destruct s; [discriminate|easy]. Qed.

Lemma last_bracket_bound (s : str) :
  forall i j, last_bracket i s = Some j -> i <= j < i + length s.
Proof.
  induction s as [|c s IH]; intros i j H; [discriminate|].
  cbn [last_bracket] in H. destruct (last_bracket (S i) s) as [j'|] eqn:E.
  - injection H as <-. apply IH in E. simpl. lia.
  - destruct (ascii_eqb c "]" && (1 <=? i)); [|discriminate].
    injection H as <-. simpl. lia.
Qed.

Lemma bracket_after_shape (prefix s : str) (n : nat) :
  Forall (fun c => isspace c = false) prefix -> prefix <> [] ->
  startswith prefix s = true ->
  (let rest := drop (length prefix) s in
   (fun j => length prefix + j + 1) <$>
     last_bracket 0 (take (run (fun c => negb (isspace c)) rest) rest))
  = Some n ->
  take n s <> [] /\ Forall (fun c => isspace c = false) (take n s).
Proof.
  intros Hp Hne Hs H. apply startswith_prefix in Hs as [rest ->].
  cbv zeta in H. rewrite drop_app_length in H.
  destruct (last_bracket 0 _) as [j|] eqn:E; [|discriminate].
  injection H as <-. apply last_bracket_bound in E.
  rewrite length_take in E.
  replace (length prefix + j + 1) with (length prefix + S j) by lia.
  rewrite take_app_add. split; [destruct prefix; easy|].
  apply Forall_app. split; [exact Hp|].
  replace (take (S j) rest)
    with (take (S j) (take (run (fun c => negb (isspace c)) rest) rest)).
  - apply Forall_take.
    eapply Forall_impl; [apply Forall_take_run|].
    intros c Hc. simpl in Hc. apply negb_true_iff, Hc.
  - rewrite take_take. f_equal. lia.
Qed.

Lemma token_shape_take (s : str) (n : nat) :
  token s = Some n -> 0 < n /\ token_shape (take n s).
Proof.
  unfold token. destruct (bracket_url s) as [m|] eqn:Eb.
  - intros [= <-]. unfold bracket_url in Eb.
    assert (Hshape : take m s <> [] /\
                     Forall (fun c => isspace c = false) (take m s)).
    { destruct (startswith (py "[https://") s) eqn:E1.
      - apply (bracket_after_shape (py "[https://")); try assumption; [|easy].
        repeat constructor.
      - destruct (startswith (py "[http://") s) eqn:E2; [|discriminate].
        apply (bracket_after_shape (py "[http://")); try assumption; [|easy].
        repeat constructor. }
    split; [|right; exact Hshape].
    destruct m; [|lia]. destruct Hshape as [Hne _]. rewrite take_0 in Hne. easy.
  - destruct (run isword s) as [|m] eqn:Er.
    + destruct s as [|c s]; [discriminate|].
      destruct (is_separator c); [|discriminate].
      intros [= <-]. split; [lia|]. left. exists c. reflexivity.
    + intros [= <-]. split; [lia|]. right.
      split; [apply run_positive with (f := isword), Er|].
      rewrite <- Er. eapply Forall_impl; [apply Forall_take_run|].
      intros c Hc. apply isword_not_space, Hc.
Qed.

Lemma segments_from_Match (m : str -> option nat) (t : str) (s : str) :
  forall k, Match t ∈ segments_from m k s ->
    exists s' n, m s' = Some n /\ t = take n s'.
Proof.
  induction s as [|c s IH]; intros k H; [inversion H|].
  cbn [segments_from] in H. destruct k as [|k]; [|eapply IH, H].
  destruct (m (c :: s)) as [n|] eqn:E.
  - apply elem_of_cons in H as [[= ->]|H]; [eauto|eapply IH, H].
  - apply elem_of_cons in H as [[=]|H]. eapply IH, H.
Qed.

Lemma findall_shape (text : str) : Forall token_shape (findall text).
Proof.
  apply Forall_forall. intros t Ht. unfold findall in Ht.
  apply list_elem_of_omap in Ht as (g & Hg & Ht).
  destruct g as [c|t']; [discriminate|]. injection Ht as ->.
  apply segments_from_Match in Hg as (s' & n & Hn & ->).
  apply token_shape_take, Hn.
Qed.

(** ** C7: the width of the lines *)

Lemma token_shape_lstrip (word : str) :
  token_shape word -> lstrip word = [] \/ lstrip word = word.
Proof.
  intros [[c ->]|[Hne Hall]].
  - simpl. destruct (isspace c); auto.
  - right. destruct word as [|c word]; [easy|].
    apply Forall_cons in Hall as [Hc _]. simpl. rewrite Hc. reflexivity.
Qed.

Lemma token_shape_newline (word : str) :
  token_shape word -> word = [newline] \/ newline ∉ word.
Proof.
  intros [[c ->]|[Hne Hall]].
  - destruct (ascii_eqb c newline) eqn:E.
    + left. apply ascii_eqb_eq in E as ->. reflexivity.
    + right. intros Hin. apply list_elem_of_singleton in Hin.
      rewrite <- Hin, (proj2 (ascii_eqb_eq _ _) eq_refl) in E. discriminate.
  - right. intros Hin. rewrite Forall_forall in Hall.
    specialize (Hall _ Hin). discriminate.
Qed.

Lemma wrap_word_inv (width : nat) (tokens : list str) (state : nat * str)
    (word : str) :
  wrap_inv width tokens state -> token_shape word -> word ∈ tokens ->
  wrap_inv width tokens (wrap_word width state word).
Proof.
  destruct state as [cnt out].
  intros (closed & cur & Hl & Hc & Hlen & HJ) Hshape Hin.
  cbn [fst snd] in *.
  assert (Hcur : line_ok width tokens cur).
  { destruct HJ as [HJ|HJ]; [left; lia|exact HJ]. }
  assert (Hempty : line_ok width tokens []) by (left; simpl; lia).
  unfold wrap_word.
  set (w := if cnt =? 1 then lstrip word else word).
  assert (Hw : (w = [] \/ w = word) /\ length w <= length word).
  { subst w. destruct (cnt =? 1); [|auto].
    destruct (token_shape_lstrip word Hshape) as [-> | ->]; simpl; auto with lia. }
  destruct Hw as [Hw Hwlen].
  assert (Hnl : w = [newline] \/ (w <> [newline] /\ newline ∉ w)).
  { destruct Hw as [-> | ->].
    - right. split; [easy|]. inversion 1.
    - destruct (token_shape_newline word Hshape) as [-> | Hn]; [auto|].
      right. split; [|exact Hn]. intros ->. apply Hn. left. }
  destruct Hnl as [Hnl|[Hne Hfree]].
  - rewrite Hnl. cbn [str_eqb]. rewrite (proj2 (ascii_eqb_eq _ _) eq_refl).
    cbn [andb].
    pose proof (lines_snoc_newline _ _ _ Hl) as H1.
    pose proof (lines_snoc_newline _ _ _ H1) as H2.
    pose proof (lines_snoc_newline _ _ _ H2) as H3.
    assert (Hc1 : Forall (line_ok width tokens) (closed ++ [cur]))
      by (apply Forall_app; split; [exact Hc|apply Forall_singleton; exact Hcur]).
    assert (Hc2 : Forall (line_ok width tokens) ((closed ++ [cur]) ++ [[]]))
      by (apply Forall_app; split; [exact Hc1|apply Forall_singleton; exact Hempty]).
    assert (Hc3 : Forall (line_ok width tokens)
                    (((closed ++ [cur]) ++ [[]]) ++ [[]]))
      by (apply Forall_app; split; [exact Hc2|apply Forall_singleton; exact Hempty]).
    destruct (width <? 1) eqn:E1; [|destruct (1 =? width) eqn:E2].
    + eexists _, []. cbn [fst snd]. rewrite !app_assoc.
      split; [exact H3|]. split; [exact Hc3|]. simpl. split; [lia|auto].
    + eexists _, []. cbn [fst snd]. rewrite !app_assoc.
      split; [exact H3|]. split; [exact Hc3|]. simpl. split; [lia|auto].
    + eexists _, []. cbn [fst snd].
      split; [exact H2|]. split; [exact Hc2|]. simpl. split; [lia|auto].
  - assert (E : str_eqb w [newline] = false).
    { apply not_true_iff_false. intros E. apply str_eqb_eq in E. easy. }
    rewrite E.
    destruct (width <? cnt + length word) eqn:E1;
      [|destruct (cnt + length word =? width) eqn:E2].
    + apply Nat.ltb_lt in E1. exists (closed ++ [cur]), w. cbn [fst snd].
      split; [|split; [|split]].
      * rewrite app_assoc.
        apply (lines_snoc_free _ _ (closed ++ [cur]) []); [exact Hfree|].
        apply lines_snoc_newline, Hl.
      * apply Forall_app. split; [exact Hc|apply Forall_singleton; exact Hcur].
      * lia.
      * right. destruct (decide (length w <= width)) as [Hle|Hgt]; [left; exact Hle|].
        right. split; [|lia]. destruct Hw as [-> | ->]; [simpl in Hgt; lia|exact Hin].
    + apply Nat.eqb_eq in E2. exists (closed ++ [cur ++ w]), []. cbn [fst snd].
      split; [|split; [|split]].
      * rewrite app_assoc. apply lines_snoc_newline.
        apply lines_snoc_free; assumption.
      * apply Forall_app. split; [exact Hc|]. apply Forall_singleton.
        left. rewrite length_app. lia.
      * simpl. lia.
      * auto.
    + apply Nat.ltb_ge in E1. apply Nat.eqb_neq in E2.
      exists closed, (cur ++ w). cbn [fst snd].
      split; [|split; [|split]].
      * apply lines_snoc_free; assumption.
      * exact Hc.
      * rewrite length_app. lia.
      * left. lia.
Qed.

Lemma wrap_words_inv (width : nat) (tokens words : list str) :
  Forall token_shape words -> words ⊆ tokens ->
  forall state,
    wrap_inv width tokens state ->
    wrap_inv width tokens (fold_left (wrap_word width) words state).
Proof.
  induction words as [|word words IH]; intros Hshape Hsub state Hinv; [exact Hinv|].
  apply Forall_cons in Hshape as [Hword Hshape]. cbn [fold_left].
  apply IH; [exact Hshape| |].
  - intros x Hx. apply Hsub. right. exact Hx.
  - apply wrap_word_inv; [exact Hinv|exact Hword|]. apply Hsub. left.
Qed.

Example reflow_wraps_at_width :
  reflow 10 (py "AAAA BBBB CCCC") = py "AAAA BBBB" ++ [newline] ++ py "CCCC".
Proof. reflexivity. Qed.

(** C7. Every line of the reflowed text is no longer than the width,
    or is one token of the text that is itself longer than the width. *)
Theorem reflow_line_width (MAX_LENGTH : nat) (text : str) :
  Forall (fun line =>
            length line <= MAX_LENGTH \/
            (line ∈ findall text /\ MAX_LENGTH < length line))
         (lines (reflow MAX_LENGTH text)).
Proof.
  unfold reflow.
  pose proof (wrap_words_inv MAX_LENGTH (findall text) (findall text)
                (findall_shape text) (fun x H => H) (1, [])) as Hinv.
  destruct (fold_left (wrap_word MAX_LENGTH) (findall text) (1, []))
    as [cnt out].
  apply (Forall_lines_replace (line_ok MAX_LENGTH (findall text))).
  destruct Hinv as (closed & cur & Hl & Hc & Hlen & HJ).
  { exists [], []. cbn [fst snd]. split; [reflexivity|].
    split; [constructor|]. simpl. split; [lia|]. right. left. simpl. lia. }
  cbn [fst snd] in *. rewrite Hl. apply Forall_app. split; [exact Hc|].
  apply Forall_singleton. destruct HJ as [HJ|HJ]; [left; lia|exact HJ].
Qed.

(** ** C4: a second pass *)

(** C4 as stated fails. With coefficient 2 and forced mode, the first
    pass leaves an [article] that the four paragraphs below it protected
    until its [div] went, and the second pass removes it. *)
Lemma main_content_not_idempotent :
  exists r1 l1 r2 l2,
    main_content_soup 2 true 7 page_with_four_paragraphs = Some (r1, l1) /\
    main_content_soup 2 true 7 r1 = Some (r2, l2) /\
    r2 <> r1 /\ l2 = [el "article" [el "p" [tx "e"]]].
Proof.
  eexists _, _, _, _. split; [vm_compute; reflexivity|].
  split; [vm_compute; reflexivity|]. split; [discriminate|reflexivity].
Qed.

(** Equal siblings are one key of the dictionary, and each loop over the
    children examines the first of them only. With coefficient 1/2, of
    three equal [span] elements the first pass removes two and the second
    pass the third. *)
Lemma main_content_equal_siblings :
  exists r1 l1 r2 l2,
    main_content_soup (1 # 2) true 4 page_with_equal_spans = Some (r1, l1) /\
    main_content_soup (1 # 2) true 4 r1 = Some (r2, l2) /\
    r2 <> r1 /\ l2 = [el "span" []].
Proof.
  eexists _, _, _, _. split; [vm_compute; reflexivity|].
  split; [vm_compute; reflexivity|]. split; [discriminate|reflexivity].
Qed.

(** *** The pruner as a function *)

Lemma max_list_append (l1 l2 : list nat) :
  max_list (l1 ++ l2) = max_list l1 `max` max_list l2.
Proof. induction l1 as [|x l1 IH]; [reflexivity|]. simpl. rewrite IH. lia. Qed.

Section PurePruner.

Variable coef : Q.
Variable forced : bool.

Lemma visit_pure_string (g : nat) (t : str) :
  visit_pure coef forced g (NavigableString t) = NavigableString t.
Proof. destruct g; reflexivity. Qed.

Lemma visit_pure_is_Tag (g : nat) (n : node) :
  is_Tag (visit_pure coef forced g n) = is_Tag n.
Proof. destruct g, n; reflexivity. Qed.

Lemma visit_pure_Tag (g : nat) nm attrs cs :
  visit_pure coef forced (S g) (Tag nm attrs cs)
  = Tag nm attrs (visit_children coef forced (visit_pure coef forced g) cs).
Proof. reflexivity. Qed.

Section Sweep.

Variable u : node -> node.
Hypothesis u_string : forall t, u (NavigableString t) = NavigableString t.
Hypothesis u_is_Tag : forall c, is_Tag (u c) = is_Tag c.

Lemma iter_string (k : nat) (t : str) :
  Nat.iter k u (NavigableString t) = NavigableString t.
Proof. induction k as [|k IH]; [reflexivity|]. simpl. rewrite IH. apply u_string. Qed.

Lemma iter_is_Tag (k : nat) (c : node) : is_Tag (Nat.iter k u c) = is_Tag c.
Proof. induction k as [|k IH]; [reflexivity|]. simpl. rewrite u_is_Tag. exact IH. Qed.

Lemma sweep_cons (avg : Q) (k : nat) (c : node) (cs : list node) :
  sweep forced avg k u (c :: cs) =
  (if is_Tag c
   then if removable forced avg c then [] else [Nat.iter k u c]
   else [c]) ++ sweep forced avg k u cs.
Proof.
  unfold sweep. cbn [omap list_omap].
  destruct (is_Tag c); [destruct (removable forced avg c)|]; reflexivity.
Qed.

Lemma sweep_elements (avg : Q) (k : nat) (cs : list node) :
  filter (fun c => is_Tag c = true) (sweep forced avg k u cs)
  = Nat.iter k u <$> filter (fun c => removable forced avg c = false)
                            (filter (fun c => is_Tag c = true) cs).
Proof.
  induction cs as [|c cs IH]; [reflexivity|].
  rewrite sweep_cons, filter_app, IH, (filter_cons _ c).
  destruct (is_Tag c) eqn:Et.
  - rewrite decide_True by reflexivity. rewrite filter_cons.
    destruct (removable forced avg c) eqn:Er.
    + rewrite decide_False by discriminate. reflexivity.
    + rewrite decide_True by reflexivity.
      rewrite filter_cons, decide_True by (rewrite iter_is_Tag; exact Et).
      reflexivity.
  - rewrite decide_False by discriminate.
    rewrite filter_cons, decide_False by (rewrite Et; discriminate).
    reflexivity.
Qed.

Lemma sweep_strings (avg : Q) (k : nat) (cs : list node) :
  filter (fun c => is_Tag c = false) (sweep forced avg k u cs)
  = filter (fun c => is_Tag c = false) cs.
Proof.
  induction cs as [|c cs IH]; [reflexivity|].
  rewrite sweep_cons, filter_app, IH, (filter_cons _ c).
  destruct (is_Tag c) eqn:Et.
  - rewrite decide_False by discriminate.
    destruct (removable forced avg c); [reflexivity|].
    rewrite filter_cons, decide_False by (rewrite iter_is_Tag, Et; discriminate).
    reflexivity.
  - rewrite decide_True by reflexivity.
    rewrite filter_cons, decide_True by exact Et. reflexivity.
Qed.

Lemma sweep_depth (avg : Q) (k : nat) (cs : list node) :
  (forall c, c ∈ cs -> _calc_depth (Nat.iter k u c) <= _calc_depth c) ->
  max_list (_calc_depth <$> sweep forced avg k u cs)
  <= max_list (_calc_depth <$> cs).
Proof.
  induction cs as [|c cs IH]; intros H; [reflexivity|].
  rewrite sweep_cons, fmap_app, max_list_append, fmap_cons.
  cbn [max_list max_list_with].
  specialize (IH (fun x Hx => H x (list_elem_of_further _ _ _ Hx))).
  pose proof (H c (list_elem_of_here _ _)) as Hc.
  destruct (is_Tag c); [destruct (removable forced avg c)|]; csimpl; lia.
Qed.

Lemma sweep_Forall (P : node -> Prop) (avg : Q) (k : nat) (cs : list node) :
  Forall P cs -> (forall c, c ∈ cs -> P c -> P (Nat.iter k u c)) ->
  Forall P (sweep forced avg k u cs).
Proof.
  induction cs as [|c cs IH]; intros Hall Hit; [constructor|].
  apply Forall_cons in Hall as [Hc Hall]. rewrite sweep_cons.
  apply Forall_app. split.
  - destruct (is_Tag c); [destruct (removable forced avg c)|];
      repeat constructor; auto. apply Hit; [left|exact Hc].
  - apply IH; [exact Hall|]. intros x Hx. apply Hit. right. exact Hx.
Qed.

Lemma sweep_no_elements (avg : Q) (k : nat) (cs : list node) :
  filter (fun c => is_Tag c = true) cs = [] -> sweep forced avg k u cs = cs.
Proof.
  induction cs as [|c cs IH]; [reflexivity|].
  rewrite filter_cons, sweep_cons. destruct (is_Tag c) eqn:Et.
  - rewrite decide_True by reflexivity. discriminate.
  - rewrite decide_False by discriminate. intros H. rewrite IH by exact H.
    reflexivity.
Qed.

Lemma sweep_stable (avg : Q) (k : nat) (cs : list node) :
  (forall e, e ∈ cs -> is_Tag e = true -> u e = e) ->
  sweep forced avg k u cs = sweep forced avg 0 u cs.
Proof.
  induction cs as [|c cs IH]; intros H; [reflexivity|].
  rewrite !sweep_cons, IH by (intros e He; apply H; right; exact He).
  f_equal. destruct (is_Tag c) eqn:Et; [|reflexivity].
  destruct (removable forced avg c); [reflexivity|]. f_equal. simpl.
  clear IH. induction k as [|k IHk]; [reflexivity|]. simpl. rewrite IHk.
  apply H; [left|exact Et].
Qed.

Lemma sweep_keeps (avg : Q) (cs : list node) :
  (forall c, c ∈ cs -> is_Tag c = true -> removable forced avg c = false) ->
  sweep forced avg 0 u cs = cs.
Proof.
  induction cs as [|c cs IH]; intros H; [reflexivity|].
  rewrite sweep_cons, IH by (intros e He; apply H; right; exact He).
  destruct (is_Tag c) eqn:Et; [|reflexivity].
  rewrite (H c) by (left || exact Et). reflexivity.
Qed.

Lemma sweep_all (avg : Q) (cs : list node) :
  (forall c, c ∈ cs -> is_Tag c = true -> removable forced avg c = false) ->
  sweep forced avg 1 u cs = u <$> cs.
Proof.
  induction cs as [|c cs IH]; intros H; [reflexivity|].
  rewrite sweep_cons, IH by (intros e He; apply H; right; exact He).
  rewrite fmap_cons. destruct c as [t|nm attrs cs']; cbn [is_Tag].
  - rewrite (u_string t). reflexivity.
  - rewrite (H (Tag nm attrs cs')) by (left || reflexivity). reflexivity.
Qed.

Lemma filter_is_Tag_fmap (cs : list node) :
  filter (fun c => is_Tag c = true) (u <$> cs)
  = u <$> filter (fun c => is_Tag c = true) cs.
Proof.
  induction cs as [|c cs IH]; [reflexivity|].
  rewrite fmap_cons, !filter_cons, IH.
  destruct (decide (is_Tag c = true)) as [Ht|Ht].
  - rewrite decide_True by (rewrite u_is_Tag; exact Ht). reflexivity.
  - rewrite decide_False by (rewrite u_is_Tag; exact Ht). reflexivity.
Qed.

End Sweep.

Lemma removable_smaller_sum (total total' : nat) (c : node) :
  total' <= total ->
  removable forced (Q_of_nat total * coef) c = false ->
  removable forced (Q_of_nat total' * coef) c = false.
Proof.
  intros Hle. unfold removable, removed_by. cbn [key value].
  destruct (negb (kept_by_tag c) && negb (kept_by_h1 c) &&
            negb (kept_by_forced forced c)); [|reflexivity].
  cbn [andb]. unfold Qltb. rewrite !negb_false_iff, !Qle_bool_iff.
  unfold Q_of_nat. intros H.
  assert (H0 : (0 <= inject_Z (Z.of_nat (_calc_depth c)))%Q).
  { rewrite <- (Zle_Qle 0). lia. }
  assert (H1 : (0 <= inject_Z (Z.of_nat total'))%Q).
  { rewrite <- (Zle_Qle 0). lia. }
  assert (H2 : (inject_Z (Z.of_nat total') <= inject_Z (Z.of_nat total))%Q).
  { rewrite <- Zle_Qle. lia. }
  destruct (Qlt_le_dec coef 0) as [Hneg|Hpos].
  - apply Qle_trans with (y := 0%Q); [|exact H0]. nra.
  - apply Qle_trans with (y := (inject_Z (Z.of_nat total) * coef)%Q); [|exact H].
    nra.
Qed.

Lemma sum_list_filter_le (f : node -> nat) (P : node -> Prop)
    `{!forall c, Decision (P c)} (l : list node) :
  sum_list (f <$> filter P l) <= sum_list (f <$> l).
Proof.
  induction l as [|c l IH]; [reflexivity|].
  rewrite filter_cons. destruct (decide (P c)); csimpl; lia.
Qed.

End PurePruner.

Section PureProperties.

Variable coef : Q.
Variable forced : bool.

Lemma visit_pure_signature (g : nat) (n : node) :
  signature (visit_pure coef forced g n) = signature n.
Proof.
  destruct g, n; try reflexivity.
  rewrite visit_pure_Tag. cbn [signature]. unfold visit_children.
  rewrite sweep_strings; [reflexivity|apply visit_pure_is_Tag].
Qed.

Lemma iter_visit_pure_signature (g k : nat) (n : node) :
  signature (Nat.iter k (visit_pure coef forced g) n) = signature n.
Proof.
  induction k as [|k IH]; [reflexivity|]. simpl.
  rewrite visit_pure_signature. exact IH.
Qed.

Lemma iter_le (u : node -> node) (k : nat) :
  (forall n, _calc_depth (u n) <= _calc_depth n) ->
  forall n, _calc_depth (Nat.iter k u n) <= _calc_depth n.
Proof.
  intros Hu n. induction k as [|k IH]; [reflexivity|]. simpl.
  etransitivity; [apply Hu|exact IH].
Qed.

Lemma visit_pure_depth (g : nat) :
  forall n, _calc_depth (visit_pure coef forced g n) <= _calc_depth n.
Proof.
  induction g as [|g IH]; intros n; [destruct n; reflexivity|].
  destruct n as [t|nm attrs cs]; [reflexivity|].
  rewrite visit_pure_Tag, !calc_depth_Tag. unfold visit_children.
  pose proof (sweep_depth forced (visit_pure coef forced g)
                (threshold coef cs)
                (length (filter (fun c => is_Tag c = true) cs)) cs
                (fun c _ => iter_le _ _ IH c)) as H.
  destruct cs as [|c cs]; [reflexivity|].
  destruct (sweep _ _ _ _ (c :: cs)); lia.
Qed.

Lemma distinct_signatures_Tag nm attrs cs :
  distinct_signatures (Tag nm attrs cs) <->
  NoDup (signature <$> filter (fun c => is_Tag c = true) cs) /\
  Forall distinct_signatures cs.
Proof.
  cbn [distinct_signatures].
  assert (H : (fix all (l : list node) : Prop :=
                 match l with
                 | [] => True
                 | c :: l' => distinct_signatures c /\ all l'
                 end) cs <-> Forall distinct_signatures cs).
  { induction cs as [|c cs IH]; [split; [constructor|auto]|].
    rewrite Forall_cons, IH. reflexivity. }
  rewrite H. reflexivity.
Qed.

Lemma visit_pure_distinct (g : nat) :
  forall n, distinct_signatures n ->
            distinct_signatures (visit_pure coef forced g n).
Proof.
  induction g as [|g IH]; intros n Hn; [destruct n; exact Hn|].
  destruct n as [t|nm attrs cs]; [exact Hn|].
  rewrite visit_pure_Tag. apply distinct_signatures_Tag in Hn as [Hnd Hall].
  apply distinct_signatures_Tag. unfold visit_children. split.
  - rewrite sweep_elements by apply visit_pure_is_Tag.
    rewrite <- list_fmap_compose.
    erewrite list_fmap_ext;
      [|intros i x _; apply (iter_visit_pure_signature g)].
    eapply sublist_NoDup; [exact Hnd|]. apply fmap_sublist, sublist_filter.
  - apply sweep_Forall; [exact Hall|].
    intros c _ Hc. generalize (length (filter (fun c => is_Tag c = true) cs)).
    intros k. induction k as [|k IHk]; [exact Hc|]. simpl. apply IH, IHk.
Qed.

Lemma removable_single (c : node) :
  (coef <= 1)%Q -> removable forced (Q_of_nat (_calc_depth c) * coef) c = false.
Proof.
  intros Hcoef. unfold removable, removed_by. cbn [key value].
  apply andb_false_iff. right. unfold Qltb.
  rewrite negb_false_iff, Qle_bool_iff. unfold Q_of_nat.
  assert (H0 : (0 <= inject_Z (Z.of_nat (_calc_depth c)))%Q).
  { rewrite <- (Zle_Qle 0). lia. }
  nra.
Qed.

Section Children.

Variable g : nat.

Let u : node -> node := visit_pure coef forced g.
Let VC : list node -> list node := visit_children coef forced u.

Lemma visit_children_none (cs : list node) :
  filter (fun c => is_Tag c = true) cs = [] -> VC cs = cs.
Proof. intros H. apply sweep_no_elements, H. Qed.

Lemma visit_children_single (cs : list node) :
  (coef <= 1)%Q -> length (filter (fun c => is_Tag c = true) cs) = 1 ->
  VC cs = u <$> cs.
Proof.
  intros Hcoef Hlen. unfold VC, visit_children, threshold.
  destruct (filter (fun c => is_Tag c = true) cs) as [|e [|e' es]] eqn:E;
    try discriminate.
  cbn [length fmap list_fmap sum_list sum_list_with]. rewrite Nat.add_0_r.
  apply sweep_all; [apply visit_pure_string|].
  intros c Hc Ht.
  assert (Hin : c ∈ filter (fun c => is_Tag c = true) cs)
    by (apply list_elem_of_filter; auto).
  rewrite E in Hin. apply list_elem_of_singleton in Hin as ->.
  apply removable_single, Hcoef.
Qed.

Lemma visit_children_stable (cs : list node) :
  (forall e, e ∈ cs -> is_Tag e = true -> u e = e) ->
  VC (VC cs) = VC cs.
Proof.
  intros Hst.
  assert (H1 : VC cs = sweep forced (threshold coef cs) 0 u cs)
    by (apply sweep_stable, Hst).
  assert (Hel : filter (fun c => is_Tag c = true) (VC cs)
                = filter (fun c => removable forced (threshold coef cs) c = false)
                         (filter (fun c => is_Tag c = true) cs)).
  { rewrite H1, sweep_elements by apply visit_pure_is_Tag.
    apply list_fmap_id. }
  assert (Hst' : forall e, e ∈ VC cs -> is_Tag e = true -> u e = e).
  { intros e He Ht.
    assert (Hin : e ∈ filter (fun c => is_Tag c = true) (VC cs))
      by (apply list_elem_of_filter; auto).
    rewrite Hel in Hin. apply list_elem_of_filter in Hin as [_ Hin].
    apply list_elem_of_filter in Hin as [_ Hin]. apply Hst; assumption. }
  unfold VC at 1. unfold visit_children.
  rewrite (sweep_stable forced u _ _ _ Hst'). apply sweep_keeps.
  intros c Hc Ht.
  assert (Hin : c ∈ filter (fun c => is_Tag c = true) (VC cs))
    by (apply list_elem_of_filter; auto).
  unfold threshold. fold VC. rewrite Hel. rewrite Hel in Hin.
  apply list_elem_of_filter in Hin as [Hrm _].
  eapply removable_smaller_sum; [|exact Hrm]. apply sum_list_filter_le.
Qed.

End Children.

Lemma iter_stable (u : node -> node) (k : nat) (e : node) :
  u (u (u e)) = u (u e) -> 2 <= k -> u (Nat.iter k u e) = Nat.iter k u e.
Proof.
  intros H Hk.
  assert (Hit : Nat.iter k u e = u (u e)).
  { induction Hk as [|k Hk IH]; [reflexivity|]. simpl. rewrite IH. exact H. }
  rewrite Hit. exact H.
Qed.

(** Two visits of a node bring it to a tree that a further visit leaves
    as it is. *)
Lemma visit_pure_fix (g : nat) :
  (coef <= 1)%Q ->
  forall n, _calc_depth n <= g ->
    visit_pure coef forced g (visit_pure coef forced g (visit_pure coef forced g n))
    = visit_pure coef forced g (visit_pure coef forced g n).
Proof.
  intros Hcoef. induction g as [|g IH]; intros n Hd; [destruct n; reflexivity|].
  destruct n as [t|nm attrs cs]; [reflexivity|].
  rewrite !visit_pure_Tag. f_equal.
  pose (u := visit_pure coef forced g).
  assert (IHc : forall c, c ∈ cs -> u (u (u c)) = u (u c)).
  { intros c Hc. apply IH.
    pose proof (calc_depth_child nm attrs cs c Hc). lia. }
  destruct (filter (fun c => is_Tag c = true) cs) as [|e [|e' es]] eqn:E.
  - rewrite !(visit_children_none g cs E). reflexivity.
  - assert (H1 : forall l, length (filter (fun c => is_Tag c = true) l) = 1 ->
                   length (filter (fun c => is_Tag c = true)
                                  (visit_pure coef forced g <$> l)) = 1).
    { intros l Hl.
      rewrite filter_is_Tag_fmap by apply visit_pure_is_Tag.
      rewrite length_fmap. exact Hl. }
    assert (H0 : length (filter (fun c => is_Tag c = true) cs) = 1)
      by (rewrite E; reflexivity).
    rewrite (visit_children_single g cs Hcoef H0).
    rewrite (visit_children_single g _ Hcoef (H1 _ H0)).
    rewrite (visit_children_single g _ Hcoef (H1 _ (H1 _ H0))).
    fold u. rewrite <- !list_fmap_compose. apply list_fmap_ext.
    intros i c Hi. apply IHc. eapply list_elem_of_lookup_2, Hi.
  - apply visit_children_stable. intros x Hx Ht.
    assert (Hin : x ∈ filter (fun c => is_Tag c = true)
                         (visit_children coef forced (visit_pure coef forced g) cs))
      by (apply list_elem_of_filter; auto).
    unfold visit_children in Hin.
    rewrite sweep_elements in Hin by apply visit_pure_is_Tag.
    apply list_elem_of_fmap in Hin as (e0 & -> & He0).
    apply list_elem_of_filter in He0 as [_ He0].
    apply list_elem_of_filter in He0 as [_ He0].
    apply iter_stable; [apply IHc, He0|]. rewrite E. simpl. lia.
Qed.

End PureProperties.

(** *** From the loops to the function *)

Lemma bind_assoc {A B C} (m : M A) (f : A -> M B) (h : B -> M C) :
  bind (bind m f) h = bind m (fun x => bind (f x) h).
Proof.
  unfold bind. destruct m as [[x l]|]; [|reflexivity].
  destruct (f x) as [[y l']|]; [|reflexivity].
  destruct (h y) as [[z l'']|]; [|reflexivity].
  rewrite app_assoc. reflexivity.
Qed.

Lemma bind_ret_l {A B} (x : A) (f : A -> M B) : bind (ret x) f = f x.
Proof. unfold bind, ret. destruct (f x) as [[y l]|]; reflexivity. Qed.

Lemma bind_ext {A B} (m : M A) (f f' : A -> M B) :
  (forall x, f x = f' x) -> bind m f = bind m f'.
Proof. intros H. unfold bind. destruct m as [[x l]|]; [rewrite H|]; reflexivity. Qed.

Lemma for_each_ext {A St} (xs : list A) (body body' : A -> St -> M St) :
  (forall x s, body x s = body' x s) ->
  forall s, for_each xs body s = for_each xs body' s.
Proof.
  intros H. induction xs as [|x xs IH]; intros s; [reflexivity|].
  cbn [for_each]. rewrite H. apply bind_ext, IH.
Qed.

Lemma times_ext {St} (k : nat) (body body' : St -> M St) :
  (forall s, body s = body' s) -> forall s, times k body s = times k body' s.
Proof.
  intros H. induction k as [|k IH]; intros s; [reflexivity|].
  cbn [times]. rewrite H. apply bind_ext, IH.
Qed.

Lemma main_content_S coef forced (fuel : nat) (density : dict) (siblings : slots) :
  main_content coef forced (S fuel) density siblings
  = for_each density
             (step (visit coef forced (main_content coef forced fuel))) siblings.
Proof.
  cbn [main_content]. apply for_each_ext. intros e s. unfold step.
  destruct (s !! obj e) as [[[t|nm attrs cs]|]|]; try reflexivity.
  unfold visit. rewrite bind_assoc. apply bind_ext. intros children.
  rewrite bind_assoc. apply bind_ext. intros children'.
  rewrite bind_ret_l. reflexivity.
Qed.

Lemma Tag_eq_signature (a b : node) :
  Tag_eq a b = true -> signature a = signature b.
Proof. intros H. apply Tag_eq_eq in H as ->. reflexivity. Qed.

(** When the nodes have different signatures, each of them is a key. *)
Lemma calc_density_distinct (nodes : list (nat * node)) :
  NoDup (signature <$> nodes.*2) ->
  _calc_density nodes
  = (fun p : nat * node => Entry p.1 p.2 (_calc_depth p.2)) <$> nodes.
Proof.
  induction nodes as [|[i c] nodes IH] using rev_ind; intros Hnd; [reflexivity|].
  rewrite !fmap_app in Hnd. apply NoDup_app in Hnd as (Hnd & Hfresh & _).
  rewrite calc_density_snoc, (IH Hnd), fmap_app.
  rewrite update_known;
    [|intros e' He'; apply list_elem_of_fmap in He' as (p & -> & _); reflexivity
     |reflexivity].
  destruct (existsb _ _) eqn:Eex; [|reflexivity]. exfalso.
  apply existsb_exists in Eex as (e' & He' & Heq). cbn [key] in Heq.
  apply list_elem_of_In, list_elem_of_fmap in He' as ([j c'] & -> & Hin).
  cbn [key snd] in Heq. apply (Hfresh (signature c)); [|left].
  rewrite <- (Tag_eq_signature _ _ Heq).
  apply list_elem_of_fmap. exists c'. split; [reflexivity|].
  apply list_elem_of_fmap. exists (j, c'). auto.
Qed.

Section Refinement.

Variable coef : Q.
Variable forced : bool.

Lemma calc_density_children (cs : list node) :
  NoDup (signature <$> filter (fun c => is_Tag c = true) cs) ->
  let d := _calc_density (find_all_children cs) in
  d = (fun p : nat * node => Entry p.1 p.2 (_calc_depth p.2))
        <$> find_all_children cs /\
  (Q_of_nat (sum_values d) * coef)%Q = threshold coef cs /\
  length d = length (filter (fun c => is_Tag c = true) cs) /\
  NoDup (obj <$> d) /\
  (forall i, i ∈ obj <$> d <->
             exists c, cs !! i = Some c /\ is_Tag c = true).
Proof.
  intros Hnd d.
  assert (Hd : d = (fun p : nat * node => Entry p.1 p.2 (_calc_depth p.2))
                     <$> find_all_children cs).
  { apply calc_density_distinct. rewrite snd_find_all_children. exact Hnd. }
  assert (Hobj : obj <$> d = (find_all_children cs).*1).
  { rewrite Hd, <- list_fmap_compose. reflexivity. }
  split; [exact Hd|]. split; [|split; [|split]].
  - unfold threshold, sum_values. do 3 f_equal.
    rewrite <- snd_find_all_children, Hd, <- !list_fmap_compose. reflexivity.
  - rewrite <- snd_find_all_children, Hd, !length_fmap. reflexivity.
  - rewrite Hobj. apply NoDup_find_all_children.
  - intros i. rewrite Hobj, list_elem_of_fmap. split.
    + intros ([j c] & -> & Hin). apply elem_of_find_all_children in Hin. eauto.
    + intros (c & Hc & Ht). exists (i, c). split; [reflexivity|].
      apply elem_of_find_all_children. auto.
Qed.

Lemma prune_children (cs : list node) :
  NoDup (signature <$> filter (fun c => is_Tag c = true) cs) ->
  exists removed,
    prune forced (threshold coef cs) (_calc_density (find_all_children cs))
          (Some <$> cs)
    = Some ((fun c => if is_Tag c && removable forced (threshold coef cs) c
                      then None else Some c) <$> cs, removed).
Proof.
  intros Hnd.
  destruct (calc_density_children cs Hnd) as (Hd & _ & _ & Hnodup & Hobj).
  destruct (prune_spec forced (threshold coef cs)
              (_calc_density (find_all_children cs)) (Some <$> cs) Hnodup)
    as (children & Hrun & Hlen & Hkeys & Hrest).
  { intros e He. rewrite length_fmap.
    assert (Hi : obj e ∈ obj <$> _calc_density (find_all_children cs))
      by (apply list_elem_of_fmap; eauto).
    apply Hobj in Hi as (c & Hc & _). eapply lookup_lt_Some, Hc. }
  eexists. rewrite Hrun. do 2 f_equal.
  apply list_eq. intros i. rewrite list_lookup_fmap.
  destruct (cs !! i) as [c|] eqn:Ec; cbn [fmap option_fmap option_map].
  - destruct (is_Tag c) eqn:Et; cbn [andb].
    + assert (He : Entry i c (_calc_depth c)
                   ∈ _calc_density (find_all_children cs)).
      { rewrite Hd. apply list_elem_of_fmap. exists (i, c).
        split; [reflexivity|]. apply elem_of_find_all_children. auto. }
      pose proof (Hkeys _ He) as Hk. cbn [obj] in Hk. rewrite Hk.
      change (removed_by forced (threshold coef cs) (Entry i c (_calc_depth c)))
        with (removable forced (threshold coef cs) c).
      destruct (removable forced (threshold coef cs) c); [reflexivity|].
      rewrite list_lookup_fmap, Ec. reflexivity.
    + rewrite Hrest, list_lookup_fmap, Ec; [reflexivity|].
      intros Hi. apply Hobj in Hi as (c' & Hc' & Ht'). congruence.
  - apply lookup_ge_None. rewrite Hlen, length_fmap.
    apply lookup_ge_None, Ec.
Qed.

Section Rounds.

Variable v : node -> M node.
Variable u : node -> node.
Variable good : node -> Prop.
Hypothesis u_string : forall t, u (NavigableString t) = NavigableString t.
Hypothesis u_is_Tag : forall c, is_Tag (u c) = is_Tag c.
Hypothesis u_good : forall c, good c -> good (u c).
Hypothesis v_u : forall c, good c -> exists l, v c = Some (u c, l).

(** One turn of the loop over the keys visits the nodes of the keys. *)
Lemma round_pointwise (d : dict) :
  forall s : slots,
    NoDup (obj <$> d) ->
    (forall e c, e ∈ d -> s !! obj e = Some (Some c) -> good c) ->
    exists s' l,
      for_each d (step v) s = Some (s', l) /\
      length s' = length s /\
      forall i, s' !! i =
                if decide (i ∈ obj <$> d) then fmap (M:=option) u <$> s !! i else s !! i.
Proof.
  induction d as [|e d IH]; intros s Hnd Hgood.
  - exists s, []. split; [reflexivity|]. split; [reflexivity|].
    intros i. rewrite decide_False; [reflexivity|]. inversion 1.
  - rewrite fmap_cons in Hnd. apply NoDup_cons in Hnd as [Hfresh Hnd].
    assert (Hstep : exists s1 l1,
               step v e s = Some (s1, l1) /\ length s1 = length s /\
               s1 !! obj e = fmap (M:=option) u <$> s !! obj e /\
               forall i, i <> obj e -> s1 !! i = s !! i).
    { unfold step. destruct (s !! obj e) as [[[t|nm attrs cs]|]|] eqn:E.
      - exists s, []. rewrite E. cbn. rewrite u_string. auto.
      - destruct (v_u (Tag nm attrs cs)) as [l Hv].
        { apply (Hgood e); [left|exact E]. }
        rewrite Hv. eexists _, _. split; [reflexivity|].
        split; [apply length_insert|]. split.
        + apply list_lookup_insert_eq. eapply lookup_lt_Some, E.
        + intros i Hi. apply list_lookup_insert_ne. auto.
      - exists s, []. rewrite E. auto.
      - exists s, []. rewrite E. auto. }
    destruct Hstep as (s1 & l1 & Hs1 & Hlen1 & Hat & Hother).
    destruct (IH s1 Hnd) as (s' & l & Hrun & Hlen & Hpt).
    { intros e' c He' Hc. apply (Hgood e'); [right; exact He'|].
      rewrite <- Hother; [exact Hc|]. intros Heq. apply Hfresh.
      rewrite <- Heq. apply list_elem_of_fmap. eauto. }
    exists s', (l1 ++ l). split; [|split].
    + cbn [for_each]. rewrite Hs1, bind_Some, Hrun. reflexivity.
    + lia.
    + intros i. rewrite Hpt, fmap_cons.
      destruct (decide (i = obj e)) as [->|Hne].
      * rewrite decide_False by exact Hfresh.
        rewrite decide_True by left. exact Hat.
      * rewrite (Hother i Hne).
        destruct (decide (i ∈ obj <$> d)) as [Hi|Hi].
        -- rewrite decide_True by (right; exact Hi). reflexivity.
        -- rewrite decide_False; [reflexivity|].
           intros Hin. apply elem_of_cons in Hin as [?|?]; auto.
Qed.

(** When the keys are all the element children, a turn visits them all. *)
Lemma round_fmap (d : dict) (s : slots) :
  NoDup (obj <$> d) ->
  (forall i c, s !! i = Some (Some c) -> is_Tag c = true -> i ∈ obj <$> d) ->
  (forall i c, s !! i = Some (Some c) -> good c) ->
  exists l, for_each d (step v) s = Some (fmap (M:=option) u <$> s, l).
Proof.
  intros Hnd Hcover Hgood.
  destruct (round_pointwise d s Hnd) as (s' & l & Hrun & Hlen & Hpt).
  { intros e c _ Hc. eapply Hgood, Hc. }
  exists l. rewrite Hrun. do 2 f_equal.
  apply list_eq. intros i. rewrite Hpt, list_lookup_fmap.
  destruct (decide (i ∈ obj <$> d)) as [Hi|Hi]; [reflexivity|].
  destruct (s !! i) as [[[t|nm attrs cs]|]|] eqn:E; cbn.
  - rewrite u_string. reflexivity.
  - exfalso. apply Hi. eapply Hcover; [exact E|reflexivity].
  - reflexivity.
  - reflexivity.
Qed.

Lemma rounds_fmap (d : dict) (k : nat) :
  NoDup (obj <$> d) ->
  forall s : slots,
    (forall i c, s !! i = Some (Some c) -> is_Tag c = true -> i ∈ obj <$> d) ->
    (forall i c, s !! i = Some (Some c) -> good c) ->
    exists l,
      times k (for_each d (step v)) s = Some (fmap (M:=option) (Nat.iter k u) <$> s, l).
Proof.
  intros Hnd. induction k as [|k IH]; intros s Hcover Hgood.
  - exists []. cbn [times]. unfold ret. do 2 f_equal. symmetry.
    erewrite list_fmap_ext; [apply list_fmap_id|].
    intros i [c|] _; reflexivity.
  - destruct (round_fmap d s Hnd Hcover Hgood) as [l1 Hround].
    assert (Hlook : forall i c', (fmap (M:=option) u <$> s) !! i = Some (Some c') ->
               exists c, s !! i = Some (Some c) /\ c' = u c).
    { intros i c' H. rewrite list_lookup_fmap in H.
      destruct (s !! i) as [[c|]|]; try discriminate.
      injection H as <-. eauto. }
    destruct (IH (fmap (M:=option) u <$> s)) as [l Hrest].
    { intros i c' H Ht. apply Hlook in H as (c & Hc & ->).
      rewrite u_is_Tag in Ht. eapply Hcover; eassumption. }
    { intros i c' H. apply Hlook in H as (c & Hc & ->).
      eapply u_good, Hgood, Hc. }
    exists (l1 ++ l). cbn [times]. rewrite Hround, bind_Some, Hrest.
    do 2 f_equal. rewrite <- list_fmap_compose. apply list_fmap_ext.
    intros i [c|] _; [|reflexivity]. cbn. f_equal.
    symmetry. apply Nat.iter_succ_r.
Qed.

End Rounds.

Lemma omap_sweep (avg : Q) (k : nat) (u : node -> node) (cs : list node) :
  (forall t, u (NavigableString t) = NavigableString t) ->
  omap id (fmap (M:=option) (Nat.iter k u)
             <$> ((fun c => if is_Tag c && removable forced avg c
                            then None else Some c) <$> cs))
  = sweep forced avg k u cs.
Proof.
  intros Hu. induction cs as [|c cs IH]; [reflexivity|].
  rewrite sweep_cons, !fmap_cons. cbn [omap list_omap]. rewrite IH.
  destruct c as [t|nm attrs cs']; cbn [is_Tag andb].
  - cbn. rewrite (iter_string u Hu). reflexivity.
  - destruct (removable forced avg (Tag nm attrs cs')); reflexivity.
Qed.

(** On a tree with distinct signatures, the loops visit a node as the
    function does. *)
Lemma visit_refines (g : nat) :
  forall n, _calc_depth n <= g -> distinct_signatures n ->
    exists l,
      visit coef forced (main_content coef forced g) n
      = Some (visit_pure coef forced g n, l).
Proof.
  induction g as [|g IH]; intros n Hd Hn.
  - destruct n as [t|nm attrs cs]; [exists []; reflexivity|].
    rewrite calc_depth_Tag in Hd. destruct cs; [|lia].
    exists []. reflexivity.
  - destruct n as [t|nm attrs cs]; [exists []; reflexivity|].
    apply distinct_signatures_Tag in Hn as [Hnd Hall].
    destruct (calc_density_children cs Hnd) as (Hdens & Havg & Hlen & Hnodup & Hobj).
    destruct (prune_children cs Hnd) as [l0 Hprune].
    cbn [visit]. rewrite Havg, Hprune, bind_Some, Hlen.
    rewrite (times_ext _ _ _ (main_content_S coef forced g _)).
    destruct (rounds_fmap
                (visit coef forced (main_content coef forced g))
                (visit_pure coef forced g)
                (fun c => _calc_depth c <= g /\ distinct_signatures c)
                (visit_pure_string coef forced g)
                (visit_pure_is_Tag coef forced g)) with
      (d := _calc_density (find_all_children cs))
      (k := length (filter (fun c => is_Tag c = true) cs))
      (s := (fun c => if is_Tag c && removable forced (threshold coef cs) c
                      then None else Some c) <$> cs)
      as [l1 Hrounds].
    + intros c [Hc1 Hc2]. split.
      * etransitivity; [apply visit_pure_depth|exact Hc1].
      * apply visit_pure_distinct, Hc2.
    + intros c [Hc1 Hc2]. apply IH; assumption.
    + exact Hnodup.
    + intros i c Hi Ht. apply Hobj. exists c. split; [|exact Ht].
      rewrite list_lookup_fmap in Hi.
      destruct (cs !! i) as [c'|]; [|discriminate]. cbn in Hi.
      destruct (is_Tag c' && removable forced (threshold coef cs) c');
        [discriminate|]. congruence.
    + intros i c Hi.
      rewrite list_lookup_fmap in Hi.
      destruct (cs !! i) as [c'|] eqn:Ec; [|discriminate]. cbn in Hi.
      destruct (is_Tag c' && removable forced (threshold coef cs) c');
        [discriminate|]. injection Hi as <-.
      pose proof (list_elem_of_lookup_2 _ _ _ Ec) as Hin. split.
      * pose proof (calc_depth_child nm attrs cs c' Hin). lia.
      * rewrite Forall_forall in Hall. apply Hall, Hin.
    + rewrite Hrounds. eexists. cbn.
      rewrite (omap_sweep _ _ _ _ (visit_pure_string coef forced g)).
      reflexivity.
Qed.

(** On a tree with distinct signatures, the whole pass is the function
    that visits each element child of the root twice. *)
Lemma main_content_soup_refines (g : nat) (soup : node) :
  _calc_depth soup <= S g -> distinct_signatures soup ->
  exists l,
    main_content_soup coef forced (S g) soup
    = Some (main_content_pure coef forced g soup, l).
Proof.
  intros Hd Hn. destruct soup as [t|nm attrs cs]; [exists []; reflexivity|].
  apply distinct_signatures_Tag in Hn as [Hnd Hall].
  destruct (calc_density_children cs Hnd) as (_ & _ & _ & Hnodup & Hobj).
  assert (Hround : forall s : slots,
             (forall i c, s !! i = Some (Some c) ->
                          exists c0, cs !! i = Some c0 /\
                                     is_Tag c = is_Tag c0 /\
                                     _calc_depth c <= g /\
                                     distinct_signatures c) ->
             exists l,
               main_content coef forced (S g)
                            (_calc_density (find_all_children cs)) s
               = Some (fmap (M:=option) (visit_pure coef forced g) <$> s, l)).
  { intros s Hs. rewrite main_content_S.
    apply (round_fmap
             (visit coef forced (main_content coef forced g))
             (visit_pure coef forced g)
             (fun c => _calc_depth c <= g /\ distinct_signatures c)
             (visit_pure_string coef forced g)).
    - intros c [Hc1 Hc2]. apply visit_refines; assumption.
    - exact Hnodup.
    - intros i c Hi Ht. destruct (Hs i c Hi) as (c0 & Hc0 & Htag & _).
      apply Hobj. exists c0. split; [exact Hc0|congruence].
    - intros i c Hi. destruct (Hs i c Hi) as (c0 & _ & _ & H1 & H2). auto. }
  assert (Hkids : forall i c, cs !! i = Some c ->
             _calc_depth c <= g /\ distinct_signatures c).
  { intros i c Hi. pose proof (list_elem_of_lookup_2 _ _ _ Hi) as Hin. split.
    - pose proof (calc_depth_child nm attrs cs c Hin). lia.
    - rewrite Forall_forall in Hall. apply Hall, Hin. }
  destruct (Hround (Some <$> cs)) as [l1 H1].
  { intros i c Hi. rewrite list_lookup_fmap in Hi.
    destruct (cs !! i) as [c0|] eqn:E; [|discriminate]. injection Hi as ->.
    exists c. destruct (Hkids i c E). auto. }
  destruct (Hround (fmap (M:=option) (visit_pure coef forced g) <$> (Some <$> cs)))
    as [l2 H2].
  { intros i c Hi. rewrite !list_lookup_fmap in Hi.
    destruct (cs !! i) as [c0|] eqn:E; [|discriminate]. injection Hi as <-.
    exists c0. destruct (Hkids i c0 E) as [Hk1 Hk2].
    split; [reflexivity|]. split; [apply visit_pure_is_Tag|]. split.
    - etransitivity; [apply visit_pure_depth|exact Hk1].
    - apply visit_pure_distinct, Hk2. }
  unfold main_content_soup. rewrite H1, bind_Some, H2. eexists. cbn.
  do 3 f_equal. clear. induction cs as [|c cs IH]; [reflexivity|].
  cbn. f_equal. exact IH.
Qed.

End Refinement.

(** *** The second pass *)

Section SecondPass.

Variable coef : Q.
Variable forced : bool.

Lemma max_list_fmap_le (u : node -> node) (cs : list node) :
  (forall c, _calc_depth (u c) <= _calc_depth c) ->
  max_list (_calc_depth <$> (u <$> cs)) <= max_list (_calc_depth <$> cs).
Proof.
  intros Hu. induction cs as [|c cs IH]; [reflexivity|].
  csimpl. specialize (Hu c). lia.
Qed.

Lemma main_content_pure_depth (g : nat) (soup : node) :
  _calc_depth (main_content_pure coef forced g soup) <= _calc_depth soup.
Proof.
  destruct soup as [t|nm attrs cs]; [reflexivity|].
  cbn [main_content_pure]. rewrite !calc_depth_Tag.
  pose proof (max_list_fmap_le
                (fun c => visit_pure coef forced g (visit_pure coef forced g c))
                cs) as H.
  destruct cs as [|c cs]; [reflexivity|]. rewrite fmap_cons.
  rewrite fmap_cons in H. apply Nat.add_le_mono_r, H.
  intros x. etransitivity; apply visit_pure_depth.
Qed.

Lemma main_content_pure_distinct (g : nat) (soup : node) :
  distinct_signatures soup ->
  distinct_signatures (main_content_pure coef forced g soup).
Proof.
  destruct soup as [t|nm attrs cs]; [auto|].
  intros [Hnd Hall]%distinct_signatures_Tag.
  cbn [main_content_pure]. apply distinct_signatures_Tag. split.
  - rewrite filter_is_Tag_fmap
      by (intros c; rewrite !visit_pure_is_Tag; reflexivity).
    rewrite <- list_fmap_compose.
    erewrite list_fmap_ext; [exact Hnd|].
    intros i c _. cbn. rewrite !visit_pure_signature. reflexivity.
  - apply Forall_fmap. eapply Forall_impl; [exact Hall|].
    intros c Hc. cbn. apply visit_pure_distinct, visit_pure_distinct, Hc.
Qed.

Lemma main_content_pure_fix (g : nat) (soup : node) :
  (coef <= 1)%Q -> _calc_depth soup <= S g ->
  main_content_pure coef forced g (main_content_pure coef forced g soup)
  = main_content_pure coef forced g soup.
Proof.
  intros Hcoef Hd. destruct soup as [t|nm attrs cs]; [reflexivity|].
  cbn [main_content_pure]. f_equal.
  rewrite <- list_fmap_compose. apply list_fmap_ext. intros i c Hi. cbn.
  assert (Hc : _calc_depth c <= g).
  { pose proof (calc_depth_child nm attrs cs c (list_elem_of_lookup_2 _ _ _ Hi)).
    lia. }
  rewrite (visit_pure_fix coef forced g Hcoef c Hc).
  apply (visit_pure_fix coef forced g Hcoef c Hc).
Qed.

End SecondPass.

(** ** Nothing is lost *)

Lemma bind_inv {A B} (m : M A) (f : A -> M B) (y : B) (l : list node) :
  bind m f = Some (y, l) ->
  exists x l1 l2, m = Some (x, l1) /\ f x = Some (y, l2) /\ l = l1 ++ l2.
Proof.
  unfold bind. destruct m as [[x l1]|]; [|discriminate].
  destruct (f x) as [[y' l2]|] eqn:E; [|discriminate].
  intros [= -> <-]. eauto 6.
Qed.

Lemma for_each_preserves {A St} (inv : St -> list node -> Prop)
    (xs : list A) (body : A -> St -> M St) :
  (forall x s l s' l', x ∈ xs -> inv s l -> body x s = Some (s', l') ->
                       inv s' (l ++ l')) ->
  forall s l0 s' l', inv s l0 -> for_each xs body s = Some (s', l') ->
                     inv s' (l0 ++ l').
Proof.
  induction xs as [|x xs IH]; intros Hbody s l0 s' l' Hinv Hrun.
  - injection Hrun as <- <-. rewrite app_nil_r. exact Hinv.
  - cbn [for_each] in Hrun.
    apply bind_inv in Hrun as (s1 & l1 & l2 & H1 & H2 & ->).
    rewrite app_assoc. eapply IH; [|eapply Hbody; [left|exact Hinv|exact H1]|exact H2].
    intros y t l t' l'' Hy. apply Hbody. right. exact Hy.
Qed.

Lemma times_preserves {St} (inv : St -> list node -> Prop)
    (k : nat) (body : St -> M St) :
  (forall s l s' l', inv s l -> body s = Some (s', l') -> inv s' (l ++ l')) ->
  forall s l0 s' l', inv s l0 -> times k body s = Some (s', l') ->
                     inv s' (l0 ++ l').
Proof.
  intros Hbody. induction k as [|k IH]; intros s l0 s' l' Hinv Hrun.
  - injection Hrun as <- <-. rewrite app_nil_r. exact Hinv.
  - cbn [times] in Hrun.
    apply bind_inv in Hrun as (s1 & l1 & l2 & H1 & H2 & ->).
    rewrite app_assoc. eapply IH; [eapply Hbody; [exact Hinv|exact H1]|exact H2].
Qed.

Lemma size_positive (n : node) : 0 < size n.
Proof. destruct n; simpl; lia. Qed.

Lemma sum_list_insert (l : list nat) (i x y : nat) :
  l !! i = Some x -> sum_list (<[i := y]> l) + x = sum_list l + y.
Proof.
  revert i. induction l as [|z l IH]; intros [|i] Hi; try discriminate.
  - injection Hi as ->. simpl. lia.
  - simpl in *. specialize (IH i Hi). lia.
Qed.

Lemma slots_size_insert (s : slots) (i : nat) (o o' : option node) :
  s !! i = Some o ->
  slots_size (<[i := o']> s) + slot_size o = slots_size s + slot_size o'.
Proof.
  intros Hi. unfold slots_size. rewrite list_fmap_insert.
  apply sum_list_insert. rewrite list_lookup_fmap, Hi. reflexivity.
Qed.

Lemma slots_size_Some (cs : list node) :
  slots_size (Some <$> cs) = sum_list (size <$> cs).
Proof.
  unfold slots_size. rewrite <- list_fmap_compose. reflexivity.
Qed.

Lemma slots_size_omap (s : slots) :
  sum_list (size <$> omap id s) = slots_size s.
Proof.
  unfold slots_size. induction s as [|[c|] s IH]; [reflexivity| |]; csimpl; lia.
Qed.

Lemma sum_list_size_nil (l : list node) : sum_list (size <$> l) = 0 -> l = [].
Proof.
  destruct l as [|n l]; [reflexivity|]. csimpl.
  pose proof (size_positive n). lia.
Qed.

Section Conservation.

Variable coef : Q.
Variable forced : bool.

Lemma prune_conserves (avg : Q) (keys : dict) :
  forall s : slots,
    NoDup (obj <$> keys) ->
    (forall e, e ∈ keys -> s !! obj e = Some (Some (key e))) ->
    forall s' l,
      prune forced avg keys s = Some (s', l) ->
      slots_size s' + sum_list (size <$> l) = slots_size s.
Proof.
  unfold prune. induction keys as [|e keys IH]; intros s Hnd Hkeys s' l Hrun.
  - injection Hrun as <- <-. simpl. lia.
  - rewrite fmap_cons in Hnd. apply NoDup_cons in Hnd as [Hfresh Hnd].
    cbn [for_each] in Hrun. rewrite prune_step, bind_Some in Hrun.
    destruct (for_each keys _ _) as [[s2 l2]|] eqn:E; [|discriminate].
    injection Hrun as <- <-.
    pose proof (Hkeys e (list_elem_of_here _ _)) as He.
    apply IH in E; [| exact Hnd |].
    + rewrite fmap_app, sum_list_with_app.
      destruct (removed_by forced avg e).
      * pose proof (slots_size_insert s (obj e) _ None He) as Hi.
        cbn in *. lia.
      * cbn in *. lia.
    + intros e' He'. destruct (removed_by forced avg e); [|apply Hkeys; right; exact He'].
      rewrite list_lookup_insert_ne; [apply Hkeys; right; exact He'|].
      intros Heq. apply Hfresh. rewrite Heq. apply list_elem_of_fmap. eauto.
Qed.

Lemma visit_conserves (rec : dict -> slots -> M slots) :
  (forall d s s' l, rec d s = Some (s', l) ->
                    slots_size s' + sum_list (size <$> l) = slots_size s) ->
  forall n n' l,
    visit coef forced rec n = Some (n', l) ->
    size n' + sum_list (size <$> l) = size n.
Proof.
  intros Hrec [t|nm attrs cs] n' l Hrun.
  - injection Hrun as <- <-. simpl. lia.
  - cbn [visit] in Hrun.
    apply bind_inv in Hrun as (s0 & l0 & l' & Hprune & Hrun & ->).
    apply bind_inv in Hrun as (s1 & l1 & l2 & Htimes & Hret & ->).
    injection Hret as <- <-.
    destruct (calc_density_spec (find_all_children cs)
                (NoDup_find_all_children cs)) as (H1 & H2 & _).
    apply prune_conserves in Hprune; [|exact H2|].
    2:{ intros e He. destruct (H1 e He) as [Hin _].
        apply elem_of_find_all_children in Hin as [Hin _].
        rewrite list_lookup_fmap, Hin. reflexivity. }
    assert (Ht : slots_size s1 + sum_list (size <$> ([] ++ l1))
                 = slots_size s0).
    { apply (times_preserves
               (fun s l => slots_size s + sum_list (size <$> l)
                           = slots_size s0)
               _ _) with (s := s0) (l0 := []) in Htimes;
        [exact Htimes| |simpl; lia].
      intros s l s' l' Hinv Hb. cbv beta in *.
      rewrite fmap_app, sum_list_with_app.
      apply Hrec in Hb. cbn in *. lia. }
    cbn [app] in Ht. rewrite slots_size_Some in Hprune.
    cbn [size]. rewrite slots_size_omap, !fmap_app, !sum_list_with_app.
    cbn in *. lia.
Qed.

Lemma main_content_conserves (fuel : nat) :
  forall d s s' l,
    main_content coef forced fuel d s = Some (s', l) ->
    slots_size s' + sum_list (size <$> l) = slots_size s.
Proof.
  induction fuel as [|fuel IH]; intros d s s' l Hrun; [discriminate|].
  rewrite main_content_S in Hrun.
  apply (for_each_preserves
           (fun t l => slots_size t + sum_list (size <$> l) = slots_size s)
           d _) with (s := s) (l0 := []) in Hrun; [exact Hrun| |simpl; lia].
  intros e t l0 t' l' _ Hinv Hstep. unfold step in Hstep.
  rewrite fmap_app, sum_list_with_app.
  destruct (t !! obj e) as [[[x|nm attrs cs]|]|] eqn:E;
    try (injection Hstep as <- <-; cbn; lia).
  apply bind_inv in Hstep as (n' & l1 & l2 & Hv & Hret & ->).
  injection Hret as <- <-.
  apply (visit_conserves _ (IH)) in Hv.
  pose proof (slots_size_insert t (obj e) _ (Some n') E) as Hi.
  rewrite fmap_app, sum_list_with_app. cbn in *. lia.
Qed.

(** The nodes of the tree after the pass and the nodes of the subtrees
    it decomposed are the nodes of the tree before it. *)
Lemma main_content_soup_conserves (fuel : nat) (soup result : node)
    (removed : list node) :
  main_content_soup coef forced fuel soup = Some (result, removed) ->
  size result + sum_list (size <$> removed) = size soup.
Proof.
  destruct soup as [t|nm attrs cs]; intros Hrun.
  - injection Hrun as <- <-. simpl. lia.
  - unfold main_content_soup in Hrun.
    apply bind_inv in Hrun as (s1 & l1 & l' & H1 & Hrun & ->).
    apply bind_inv in Hrun as (s2 & l2 & l3 & H2 & Hret & ->).
    injection Hret as <- <-.
    apply main_content_conserves in H1, H2.
    rewrite slots_size_Some in H1.
    cbn [size]. rewrite slots_size_omap, !fmap_app, !sum_list_with_app.
    cbn in *. lia.
Qed.

Lemma main_content_soup_unchanged (fuel : nat) (soup : node)
    (removed : list node) :
  main_content_soup coef forced fuel soup = Some (soup, removed) ->
  removed = [].
Proof.
  intros H. apply main_content_soup_conserves in H.
  apply sum_list_size_nil. lia.
Qed.

End Conservation.

(** In [<div><p>Hello world</p><nav>Skip</nav></div>] the depth of
    [nav], which holds a string, is 1, the threshold is 1, and nothing is
    removed. *)
Example main_content_hello_page :
  main_content_soup (1 # 2) true 4 hello_page = Some (hello_page, []).
Proof. reflexivity. Qed.

(** C4, as the code has it. When the coefficient is at most 1 and, all
    over the tree, the element children of a node differ from one another
    in their name, their attributes or the strings they hold, the whole
    pass returns, and a second pass over its result decomposes nothing and
    returns that result: the tree after the second pass is the tree after
    the first. *)
Theorem main_content_second_pass (coef : Q) (forced : bool) (soup : node)
    (fuel : nat) :
  (coef <= 1)%Q -> distinct_signatures soup -> _calc_depth soup < fuel ->
  exists result removed,
    main_content_soup coef forced fuel soup = Some (result, removed) /\
    main_content_soup coef forced fuel result = Some (result, []).
Proof.
  intros Hcoef Hn Hd. destruct fuel as [|g]; [lia|].
  assert (Hd' : _calc_depth soup <= S g) by lia.
  destruct (main_content_soup_refines coef forced g soup Hd' Hn) as [l1 H1].
  destruct (main_content_soup_refines coef forced g
              (main_content_pure coef forced g soup)) as [l2 H2].
  - etransitivity; [apply main_content_pure_depth|exact Hd'].
  - apply main_content_pure_distinct, Hn.
  - rewrite (main_content_pure_fix coef forced g soup Hcoef Hd') in H2.
    pose proof (main_content_soup_unchanged _ _ _ _ _ H2) as ->.
    eauto.
Qed.

Lemma main_content_second_pass_witness :
  exists result removed,
    main_content_soup (1 # 2) true 7 page_with_shallow_div
      = Some (result, removed) /\
    main_content_soup (1 # 2) true 7 result = Some (result, []).
Proof.
  apply (main_content_second_pass (1 # 2) true page_with_shallow_div 7).
  - discriminate.
  - cbn. repeat split;
      repeat (apply NoDup_cons; split;
              [intros H; repeat (apply elem_of_cons in H as [H|H];
                                 [discriminate H|]); inversion H|]);
      apply NoDup_nil_2.
  - apply Nat.ltb_lt. reflexivity.
Defined.
(** * Further properties *)

(** ** The preprocessor only deletes *)

Lemma removed_sublist (m : str -> option nat) (k : nat) (s : str) :
  sublist (flat_map (fun g => match g with Gap c => [c] | Match _ => [] end)
                    (segments_from m k s)) s.
Proof.
  revert k. induction s as [|c s IH]; intros k; [constructor|].
  cbn [segments_from]. destruct k as [|k].
  - destruct (m (c :: s)) as [n|]; cbn [flat_map app].
    + apply sublist_cons, IH.
    + apply sublist_skip, IH.
  - apply sublist_cons, IH.
Qed.

Lemma subn_sublist (p : pattern) (s : str) : sublist (subn p s) s.
Proof. apply removed_sublist. Qed.

Lemma fold_subn_sublist (patterns : list pattern) (html : str) :
  sublist (fold_left (fun html pattern => subn pattern html) patterns html) html.
Proof.
  revert html. induction patterns as [|p ps IH]; intros html; [reflexivity|].
  cbn [fold_left]. etransitivity; [apply IH|apply subn_sublist].
Qed.

(** X1. The preprocessor only deletes: its result is what is left of
    the markup when some of its characters are taken out, in the same
    order; so it is never longer than the markup, and holds no character
    the markup does not hold. *)
Theorem prepocess_only_deletes (html : str) :
  sublist (_prepocess html) html /\
  length (_prepocess html) <= length html /\
  (forall c, c ∈ _prepocess html -> c ∈ html).
Proof.
  pose proof (fold_subn_sublist pre_processing html) as H.
  split; [exact H|]. split.
  - apply sublist_length, H.
  - intros c Hc. eapply elem_of_sublist; eassumption.
Qed.

Lemma contains_tail (pat : str) (c : ascii) (s : str) :
  contains pat (c :: s) = false -> contains pat s = false.
Proof. cbn [contains]. intros H. apply orb_false_iff in H as [_ H]. exact H. Qed.

Lemma contains_drop (pat : str) (n : nat) (s : str) :
  contains pat s = false -> contains pat (drop n s) = false.
Proof.
  revert s. induction n as [|n IH]; intros s H; [exact H|].
  destruct s as [|c s]; [exact H|]. cbn [drop]. apply IH.
  eapply contains_tail, H.
Qed.

Lemma contains_nil_l (pat : str) :
  contains pat [] = false -> startswith pat [] = false.
Proof. cbn [contains]. intros H. apply orb_false_iff in H as [H _]. exact H. Qed.

Lemma match_lazy_needs_closing (close : str) (dot_all : bool) (s : str) :
  contains close s = false -> match_lazy close dot_all s = None.
Proof.
  induction s as [|c s IH]; intros H.
  - cbn [match_lazy]. rewrite (contains_nil_l _ H). reflexivity.
  - cbn [match_lazy]. pose proof H as H'. cbn [contains] in H'.
    apply orb_false_iff in H' as [H0 H1]. rewrite H0, (IH H1).
    destruct (negb dot_all && ascii_eqb c newline); reflexivity.
Qed.

Lemma match_here_needs_closing (p : pattern) (s : str) :
  contains (closing p) s = false -> match_here p s = None.
Proof.
  intros H. unfold match_here. destruct (startswith (opening p) s); [|reflexivity].
  rewrite match_lazy_needs_closing by (apply contains_drop, H). reflexivity.
Qed.

Lemma subn_needs_closing (p : pattern) (s : str) :
  contains (closing p) s = false -> subn p s = s.
Proof.
  intros H. rewrite <- (app_nil_r s) at 1. rewrite subn_gaps.
  - rewrite app_nil_r. reflexivity.
  - rewrite app_nil_r. intros i _.
    apply match_here_needs_closing, contains_drop, H.
Qed.

(** X2. A pattern changes nothing in a markup that does not hold the
    text which closes its match: an opening tag that is never closed stays,
    with all that follows it. *)
Theorem prepocess_unclosed (p : pattern) (html : str) :
  p ∈ pre_processing -> contains (closing p) html = false ->
  subn p html = html.
Proof. intros _. apply subn_needs_closing. Qed.

Lemma prepocess_unclosed_witness :
  subn (Pattern (py "<script") (py "</script>") true)
       (py "<p>a</p><script>var x = 1;")
  = py "<p>a</p><script>var x = 1;".
Proof.
  apply (prepocess_unclosed (Pattern (py "<script") (py "</script>") true)).
  - left.
  - reflexivity.
Defined.

Lemma startswith_elem (pat s : str) (c : ascii) :
  startswith pat s = true -> c ∈ pat -> c ∈ s.
Proof.
  intros H Hc. apply startswith_prefix in H as [rest ->].
  apply elem_of_app. left. exact Hc.
Qed.

Lemma contains_elem (pat s : str) (c : ascii) :
  c ∈ pat -> c ∉ s -> contains pat s = false.
Proof.
  intros Hc. induction s as [|x s IH]; intros Hs.
  - cbn [contains]. rewrite orb_false_r. apply not_true_iff_false.
    intros H. apply Hs. eapply startswith_elem; eassumption.
  - cbn [contains]. apply orb_false_iff. split.
    + apply not_true_iff_false. intros H. apply Hs.
      eapply startswith_elem; eassumption.
    + apply IH. intros H. apply Hs. right. exact H.
Qed.

(** X3. The pattern for [ul] is dead: it needs the character of code 1
    to close its match, so on a markup without that character the
    preprocessor does what the seven other patterns do, and lists stay. *)
Theorem prepocess_without_ul (html : str) :
  ascii_of_nat 1 ∉ html ->
  _prepocess html
  = fold_left (fun html pattern => subn pattern html)
      [ Pattern (py "<script") (py "</script>") true;
        Pattern (py "<style") (py "</style>") true;
        Pattern (py "<meta") (py ">") false;
        Pattern (py "<nav") (py "</nav>") true;
        Pattern (py "<footer") (py "</footer>") true;
        Pattern (py "<header") (py "</header>") true;
        Pattern (py "<form") (py "</form>") true ] html.
Proof.
  intros H. unfold _prepocess, pre_processing. cbn [fold_left].
  set (h := subn _ (subn _ (subn _ html))).
  rewrite (subn_needs_closing (Pattern (py "<ul") _ true) h); [reflexivity|].
  apply (contains_elem _ _ (ascii_of_nat 1)).
  - cbn. right. right. left.
  - intros Hc. apply H.
    eapply elem_of_sublist; [exact Hc|]. subst h.
    repeat (etransitivity; [apply subn_sublist|]). reflexivity.
Qed.

Lemma prepocess_without_ul_witness :
  _prepocess (py "<ul><li>a</li></ul><nav>b</nav>c")
  = fold_left (fun html pattern => subn pattern html)
      [ Pattern (py "<script") (py "</script>") true;
        Pattern (py "<style") (py "</style>") true;
        Pattern (py "<meta") (py ">") false;
        Pattern (py "<nav") (py "</nav>") true;
        Pattern (py "<footer") (py "</footer>") true;
        Pattern (py "<header") (py "</header>") true;
        Pattern (py "<form") (py "</form>") true ]
      (py "<ul><li>a</li></ul><nav>b</nav>c").
Proof.
  apply (prepocess_without_ul (py "<ul><li>a</li></ul><nav>b</nav>c")).
  intros H. repeat (apply elem_of_cons in H as [H|H]; [discriminate H|]).
  inversion H.
Defined.

Lemma match_lazy_line (close : str) (body post : str) :
  (forall i, i <= length body ->
     startswith close (drop i (body ++ newline :: post)) = false) ->
  match_lazy close false (body ++ newline :: post) = None.
Proof.
  induction body as [|c body IH]; intros H.
  - assert (H0 : startswith close (newline :: post) = false)
      by (apply (H 0); simpl; lia).
    cbn [app match_lazy]. rewrite H0. cbn [negb andb].
    unfold ascii_eqb. rewrite Ascii.eqb_refl. reflexivity.
  - assert (H0 : startswith close (c :: body ++ newline :: post) = false)
      by (apply (H 0); simpl; lia).
    cbn [app match_lazy]. rewrite H0.
    rewrite IH; [destruct (negb false && ascii_eqb c newline); reflexivity|].
    intros i Hi. apply (H (S i)). simpl. lia.
Qed.

(** X4. The pattern for [meta] does not cross a line: a [<meta] that
    is not closed by [>] before the end of its line stays, when the markup
    holds no other [<meta]. *)
Theorem prepocess_meta_on_one_line (pre body post : str) :
  absent_before (py "<meta") (length pre)
                (pre ++ py "<meta" ++ body ++ newline :: post) ->
  ">"%char ∉ body ->
  contains (py "<meta") (body ++ newline :: post) = false ->
  meta_pattern ∈ pre_processing /\
  subn meta_pattern (pre ++ py "<meta" ++ body ++ newline :: post)
  = pre ++ py "<meta" ++ body ++ newline :: post.
Proof.
  intros Hpre Hgt Hrest. split; [right; right; left|].
  rewrite subn_gaps by (apply (match_here_absent meta_pattern), Hpre).
  f_equal.
  change (py "<meta" ++ body ++ newline :: post)
    with ("<"%char :: py "meta" ++ body ++ newline :: post).
  unfold subn. rewrite segments_gap.
  - cbn [flat_map app]. f_equal.
    apply (subn_absent meta_pattern).
    cbn [opening meta_pattern]. cbn. exact Hrest.
  - unfold match_here. cbn [opening closing dotall meta_pattern].
    change (startswith (py "<meta")
              ("<"%char :: py "meta" ++ body ++ newline :: post))
      with (startswith (py "<meta") (py "<meta" ++ body ++ newline :: post)).
    rewrite startswith_app.
    change ("<"%char :: py "meta" ++ body ++ newline :: post)
      with (py "<meta" ++ body ++ newline :: post).
    rewrite drop_app_length, match_lazy_line; [reflexivity|].
    intros i Hi. apply not_true_iff_false. intros Hs.
    apply startswith_prefix in Hs as [rest Hs].
    destruct (decide (i = length body)) as [->|Hne].
    + rewrite drop_app_length in Hs. discriminate Hs.
    + apply Hgt. apply (list_elem_of_lookup_2 _ i).
      assert (Hl : (body ++ newline :: post) !! i = Some ">"%char).
      { rewrite <- (Nat.add_0_r i), <- lookup_drop, Hs. reflexivity. }
      rewrite lookup_app_l in Hl by lia. exact Hl.
Qed.

Lemma prepocess_meta_on_one_line_witness :
  meta_pattern ∈ pre_processing /\
  subn meta_pattern (py "<head>" ++ py "<meta" ++ py " charset=utf-8"
                       ++ newline :: py "></head>")
  = py "<head>" ++ py "<meta" ++ py " charset=utf-8" ++ newline :: py "></head>".
Proof.
  apply (prepocess_meta_on_one_line (py "<head>") (py " charset=utf-8")
           (py "></head>")).
  - intros i Hi. cbn in Hi.
    do 6 (destruct i as [|i]; [reflexivity|]). lia.
  - intros H. repeat (apply elem_of_cons in H as [H|H]; [discriminate H|]).
    inversion H.
  - reflexivity.
Defined.

(** ** The dictionary of depths *)

(** X5. The dictionary made for the contents [cs] of a node has one
    key for each element child up to equality of tags: no two keys are
    equal, the keys are the element children, each entry holds the depth
    of its key and the place of an object that is its key, and no object
    has two entries. *)
Theorem calc_density_keys (cs : list node) :
  let d := _calc_density (find_all_children cs) in
  NoDup (key <$> d) /\
  (forall c, c ∈ key <$> d <-> c ∈ cs /\ is_Tag c = true) /\
  (forall e, e ∈ d ->
     cs !! obj e = Some (key e) /\ value e = _calc_depth (key e)) /\
  NoDup (obj <$> d) /\
  length d <= length (filter (fun c => is_Tag c = true) cs).
Proof.
  intros d.
  destruct (density_keys (find_all_children cs)) as [H1 H2].
  destruct (calc_density_spec (find_all_children cs)
              (NoDup_find_all_children cs)) as (H3 & H4 & _).
  fold d in H1, H2, H3, H4.
  split; [exact H1|]. split; [|split; [|split; [exact H4|]]].
  - intros c. rewrite H2, snd_find_all_children, list_elem_of_filter. tauto.
  - intros e He. destruct (H3 e He) as [Hin Hv].
    apply elem_of_find_all_children in Hin as [Hin _]. auto.
  - rewrite <- (length_fmap key d).
    apply submseteq_length, NoDup_submseteq; [exact H1|].
    intros c Hc. apply H2 in Hc. rewrite snd_find_all_children in Hc. exact Hc.
Qed.

(** ** The shape of the pruned tree *)

Lemma thinned_refl {A} (R : A -> A -> Prop) (D : A -> Prop) (l : list A) :
  Forall (fun a => R a a) l -> thinned R D l l.
Proof. induction 1; constructor; assumption. Qed.

Lemma pruned_refl (D : node -> Prop) (n : node) : pruned D n n.
Proof.
  induction n as [s|nm attrs cs IH] using node_induction; constructor.
  apply thinned_refl, IH.
Qed.

Lemma thinned_trans {A} (R : A -> A -> Prop) (D : A -> Prop) (l1 l2 l3 : list A) :
  Forall (fun a => forall b c, R a b -> R b c -> R a c) l1 ->
  thinned R D l1 l2 -> thinned R D l2 l3 -> thinned R D l1 l3.
Proof.
  intros Htr H12. revert l3.
  induction H12 as [|a b l l' Hab _ IH|a b l l' Hab Hb _ IH]; intros l3 H23.
  - exact H23.
  - apply Forall_cons in Htr as [Ha Htr].
    inversion H23 as [|? c ? l3' Hbc H23'|? c ? ? Hbc Hc H23']; subst.
    + apply thinned_keep; [eapply Ha; eassumption|apply IH; assumption].
    + eapply thinned_drop; [eapply Ha; eassumption|exact Hc|apply IH; assumption].
  - apply Forall_cons in Htr as [Ha Htr].
    eapply thinned_drop; [exact Hab|exact Hb|apply IH; assumption].
Qed.

Lemma pruned_trans (D : node -> Prop) (a b c : node) :
  pruned D a b -> pruned D b c -> pruned D a c.
Proof.
  revert b c. induction a as [s|nm attrs cs IH] using node_induction;
    intros b c Hab Hbc.
  - inversion Hab; subst. exact Hbc.
  - inversion Hab as [|? ? ? cs' Hcs]; subst.
    inversion Hbc as [|? ? ? cs'' Hcs']; subst.
    constructor. eapply thinned_trans; eassumption.
Qed.

Lemma slot_kept_refl (D : node -> Prop) (a : option node) : slot_kept D a a.
Proof. destruct a; [apply pruned_refl|exact I]. Qed.

Lemma slot_kept_trans (D : node -> Prop) (a b c : option node) :
  slot_kept D a b -> slot_kept D b c -> slot_kept D a c.
Proof.
  destruct a, b, c; cbn; try easy. apply pruned_trans.
Qed.

Lemma slot_thinned_kept (D : node -> Prop) (a b c : option node) :
  slot_thinned D a b -> slot_kept D b c -> slot_thinned D a c.
Proof.
  destruct a, b, c; cbn; try easy. apply pruned_trans.
Qed.

Lemma Forall2_slot_kept_refl (D : node -> Prop) (s : slots) :
  Forall2 (slot_kept D) s s.
Proof. induction s; constructor; auto using slot_kept_refl. Qed.

Lemma Forall2_compose {A} (P Q R : A -> A -> Prop) (l1 l2 l3 : list A) :
  (forall a b c, P a b -> Q b c -> R a c) ->
  Forall2 P l1 l2 -> Forall2 Q l2 l3 -> Forall2 R l1 l3.
Proof.
  intros HPQ H12. revert l3. induction H12 as [|a b l l' Hab _ IH]; intros l3 H23.
  - inversion H23. constructor.
  - inversion H23; subst. constructor; [eapply HPQ; eassumption|apply IH; assumption].
Qed.

Lemma Forall2_slot_kept_insert (D : node -> Prop) (s : slots) (i : nat)
    (x y : node) :
  s !! i = Some (Some x) -> pruned D x y ->
  Forall2 (slot_kept D) s (<[i := Some y]> s).
Proof.
  revert i. induction s as [|a s IH]; intros [|i] Hi Hxy; simpl in *;
    try discriminate.
  - injection Hi as ->. constructor; [exact Hxy|apply Forall2_slot_kept_refl].
  - constructor; [apply slot_kept_refl|apply IH; assumption].
Qed.

Lemma thinned_of_slots (D : node -> Prop) (cs : list node) (s : slots) :
  Forall2 (slot_thinned D) (Some <$> cs) s ->
  thinned (pruned D) D cs (omap id s).
Proof.
  revert s. induction cs as [|c cs IH]; intros s H.
  - inversion H. constructor.
  - rewrite fmap_cons in H. inversion H as [|? b ? s' Hb Hs]; subst.
    destruct b as [y|]; cbn in *.
    + apply thinned_keep; [exact Hb|apply IH, Hs].
    + destruct Hb as (y & Hy & HD).
      eapply thinned_drop; [exact Hy|exact HD|apply IH, Hs].
Qed.

Lemma kept_of_slots (D : node -> Prop) (cs : list node) (s : slots) :
  Forall2 (slot_kept D) (Some <$> cs) s ->
  Forall2 (pruned D) cs (omap id s).
Proof.
  revert s. induction cs as [|c cs IH]; intros s H.
  - inversion H. constructor.
  - rewrite fmap_cons in H. inversion H as [|? b ? s' Hb Hs]; subst.
    destruct b as [y|]; cbn in *; [|destruct Hb].
    constructor; [exact Hb|apply IH, Hs].
Qed.

Section Shape.

Variable coef : Q.
Variable forced : bool.

(** [D] holds of whatever the inner loop decomposes. *)
Variable D : node -> Prop.
Hypothesis decomposed :
  forall (cs : list node) (e : entry),
    e ∈ _calc_density (find_all_children cs) ->
    removed_by forced
      (Q_of_nat (sum_values (_calc_density (find_all_children cs))) * coef)%Q e
    = true ->
    D (key e).

Lemma prune_thinned (cs : list node) (s : slots) (l : list node) :
  prune forced
    (Q_of_nat (sum_values (_calc_density (find_all_children cs))) * coef)%Q
    (_calc_density (find_all_children cs)) (Some <$> cs) = Some (s, l) ->
  Forall2 (slot_thinned D) (Some <$> cs) s.
Proof.
  intros Hrun.
  destruct (calc_density_spec (find_all_children cs)
              (NoDup_find_all_children cs)) as (H1 & H2 & _).
  assert (Hobj : forall e, e ∈ _calc_density (find_all_children cs) ->
                           cs !! obj e = Some (key e)).
  { intros e He. destruct (H1 e He) as [Hin _].
    apply elem_of_find_all_children in Hin as [Hin _]. exact Hin. }
  destruct (prune_spec forced
              (Q_of_nat (sum_values (_calc_density (find_all_children cs)))
               * coef)%Q _ (Some <$> cs) H2) as (s' & Hs' & Hlen & Hk & Hr).
  { intros e He. rewrite length_fmap. eapply lookup_lt_Some, Hobj, He. }
  rewrite Hs' in Hrun. injection Hrun as <- <-.
  apply Forall2_same_length_lookup_2; [symmetry; exact Hlen|].
  intros i a b Ha Hb.
  destruct (decide (i ∈ obj <$> _calc_density (find_all_children cs)))
    as [Hi|Hi].
  - apply list_elem_of_fmap in Hi as (e & -> & He).
    rewrite (Hk e He) in Hb. rewrite list_lookup_fmap, (Hobj e He) in Ha.
    injection Ha as <-.
    destruct (removed_by _ _ e) eqn:E.
    + injection Hb as <-. exists (key e).
      split; [apply pruned_refl|eapply decomposed; eassumption].
    + rewrite list_lookup_fmap, (Hobj e He) in Hb. injection Hb as <-.
      apply pruned_refl.
  - rewrite (Hr i Hi), Ha in Hb. injection Hb as <-.
    destruct a; [apply pruned_refl|exact I].
Qed.

Lemma visit_pruned (rec : dict -> slots -> M slots) :
  (forall d s s' l, rec d s = Some (s', l) -> Forall2 (slot_kept D) s s') ->
  forall n n' l, visit coef forced rec n = Some (n', l) -> pruned D n n'.
Proof.
  intros Hrec [t|nm attrs cs] n' l Hrun.
  - injection Hrun as <- <-. constructor.
  - cbn [visit] in Hrun.
    apply bind_inv in Hrun as (s0 & l0 & l' & Hprune & Hrun & ->).
    apply bind_inv in Hrun as (s1 & l1 & l2 & Htimes & Hret & ->).
    injection Hret as <- <-.
    apply prune_thinned in Hprune.
    assert (Ht : Forall2 (slot_thinned D) (Some <$> cs) s1).
    { apply (times_preserves
               (fun s _ => Forall2 (slot_thinned D) (Some <$> cs) s)
               _ _) with (s := s0) (l0 := []) in Htimes;
        [exact Htimes| |exact Hprune].
      intros s l s' l'' Hinv Hb. cbv beta in *.
      eapply Forall2_compose; [apply slot_thinned_kept|exact Hinv|].
      eapply Hrec, Hb. }
    constructor. apply thinned_of_slots, Ht.
Qed.

Lemma main_content_kept (fuel : nat) :
  forall d s s' l,
    main_content coef forced fuel d s = Some (s', l) ->
    Forall2 (slot_kept D) s s'.
Proof.
  induction fuel as [|fuel IH]; intros d s s' l Hrun; [discriminate|].
  rewrite main_content_S in Hrun.
  apply (for_each_preserves
           (fun t _ => Forall2 (slot_kept D) s t)
           d _) with (s := s) (l0 := []) in Hrun;
    [exact Hrun| |apply Forall2_slot_kept_refl].
  intros e t l0 t' l' _ Hinv Hstep. cbv beta in *. unfold step in Hstep.
  destruct (t !! obj e) as [[[x|nm attrs cs]|]|] eqn:E;
    try (injection Hstep as <- <-; exact Hinv).
  apply bind_inv in Hstep as (n' & l1 & l2 & Hv & Hret & ->).
  injection Hret as <- <-.
  apply (visit_pruned _ IH) in Hv.
  eapply Forall2_compose; [apply slot_kept_trans|exact Hinv|].
  eapply Forall2_slot_kept_insert; eassumption.
Qed.

Lemma main_content_soup_pruned (fuel : nat) nm attrs (cs : list node)
    (result : node) (removed : list node) :
  main_content_soup coef forced fuel (Tag nm attrs cs) = Some (result, removed) ->
  exists cs', result = Tag nm attrs cs' /\ Forall2 (pruned D) cs cs'.
Proof.
  intros Hrun. unfold main_content_soup in Hrun.
  apply bind_inv in Hrun as (s1 & l1 & l' & H1 & Hrun & ->).
  apply bind_inv in Hrun as (s2 & l2 & l3 & H2 & Hret & ->).
  injection Hret as <- <-.
  apply main_content_kept in H1, H2.
  eexists. split; [reflexivity|].
  apply kept_of_slots. eapply Forall2_compose; [apply slot_kept_trans| |];
    eassumption.
Qed.

End Shape.

Lemma decomposed_removable coef forced (cs : list node) (e : entry) :
  e ∈ _calc_density (find_all_children cs) ->
  removed_by forced
    (Q_of_nat (sum_values (_calc_density (find_all_children cs))) * coef)%Q e
  = true ->
  removable_element forced (key e).
Proof.
  intros He Hr.
  destruct (calc_density_spec (find_all_children cs)
              (NoDup_find_all_children cs)) as (H1 & _).
  destruct (H1 e He) as [Hin _].
  apply elem_of_find_all_children in Hin as [_ Htag].
  split; [exact Htag|].
  apply unguarded_removable_subtree. apply removed_by_iff in Hr as [Hu _].
  exact Hu.
Qed.

(** X6. The pruner only takes elements out. The tree it returns has
    the root of the tree it was given, with its name and its attributes,
    and as many contents: no child of the root is removed. Below them the
    names, the attributes, the strings and the order of what is left are
    unchanged, no string is taken out on its own, and every element taken
    out was a removable subtree when it was. *)
Theorem main_content_shape (coef : Q) (forced : bool) (fuel : nat)
    nm attrs (cs : list node) :
  _calc_depth (Tag nm attrs cs) < fuel ->
  exists cs' removed,
    main_content_soup coef forced fuel (Tag nm attrs cs)
    = Some (Tag nm attrs cs', removed) /\
    Forall2 (pruned (removable_element forced)) cs cs'.
Proof.
  intros Hfuel.
  pose proof (main_content_soup_returns coef forced fuel _ Hfuel) as H.
  destruct (main_content_soup coef forced fuel (Tag nm attrs cs))
    as [[r l]|] eqn:E; [|destruct H].
  destruct (main_content_soup_pruned coef forced (removable_element forced)
              (decomposed_removable coef forced) _ _ _ _ _ _ E)
    as (cs' & -> & Hcs).
  eauto.
Qed.

Lemma main_content_shape_witness :
  exists cs' removed,
    main_content_soup (1 # 2) true 7 page_with_shallow_div
    = Some (Tag (py "[document]") [] cs', removed) /\
    Forall2 (pruned (removable_element true))
            [el "html"
               [el "body"
                  [el "div" [el "p" [tx "x"]];
                   el "section" [el "a" [el "b" [el "i" []]]]]]] cs'.
Proof.
  apply (main_content_shape (1 # 2) true 7 (py "[document]") []).
  apply Nat.ltb_lt. reflexivity.
Defined.

Lemma thinned_text (D : node -> Prop) (cs cs' : list node) :
  Forall (fun a => forall b, pruned D a b -> sublist (text b) (text a)) cs ->
  thinned (pruned D) D cs cs' ->
  sublist (flat_map text cs') (flat_map text cs).
Proof.
  intros IH Hcs.
  induction Hcs as [|a b l l' Hab _ IHl|a b l l' Hab _ _ IHl].
  - reflexivity.
  - apply Forall_cons in IH as [Ha IH]. cbn [flat_map].
    apply sublist_app; [apply Ha, Hab|apply IHl, IH].
  - apply Forall_cons in IH as [Ha IH]. cbn [flat_map].
    apply sublist_inserts_l, IHl, IH.
Qed.

Lemma pruned_text (D : node -> Prop) (a b : node) :
  pruned D a b -> sublist (text b) (text a).
Proof.
  revert b. induction a as [s|nm attrs cs IH] using node_induction;
    intros b Hab.
  - inversion Hab; subst. reflexivity.
  - inversion Hab as [|? ? ? cs' Hcs]; subst. cbn [text].
    eapply thinned_text; eassumption.
Qed.

Lemma Forall2_pruned_text (D : node -> Prop) (cs cs' : list node) :
  Forall2 (pruned D) cs cs' -> sublist (flat_map text cs') (flat_map text cs).
Proof.
  induction 1 as [|a b l l' Hab _ IH]; [reflexivity|]. cbn [flat_map].
  apply sublist_app; [eapply pruned_text, Hab|exact IH].
Qed.

(** X7. The text of the pruned tree is what is left of the text of the
    tree when some of its characters are taken out: pruning adds no text
    and changes no order. *)
Theorem main_content_text (coef : Q) (forced : bool) (fuel : nat)
    nm attrs (cs : list node) :
  _calc_depth (Tag nm attrs cs) < fuel ->
  exists result removed,
    main_content_soup coef forced fuel (Tag nm attrs cs)
    = Some (result, removed) /\
    sublist (text result) (text (Tag nm attrs cs)).
Proof.
  intros Hfuel.
  pose proof (main_content_soup_returns coef forced fuel _ Hfuel) as H.
  destruct (main_content_soup coef forced fuel (Tag nm attrs cs))
    as [[r l]|] eqn:E; [|destruct H].
  destruct (main_content_soup_pruned coef forced (removable_element forced)
              (decomposed_removable coef forced) _ _ _ _ _ _ E)
    as (cs' & -> & Hcs).
  exists (Tag nm attrs cs'), l. split; [reflexivity|].
  cbn [text]. eapply Forall2_pruned_text, Hcs.
Qed.

Lemma main_content_text_witness :
  exists result removed,
    main_content_soup (1 # 2) true 7 page_with_shallow_div
    = Some (result, removed) /\
    sublist (text result) (text page_with_shallow_div).
Proof.
  apply (main_content_text (1 # 2) true 7 (py "[document]") []).
  apply Nat.ltb_lt. reflexivity.
Defined.

Lemma filter_flat_map_length {A B} (P : B -> Prop)
    `{!forall x, Decision (P x)} (f : A -> list B) (l : list A) :
  length (filter P (flat_map f l))
  = sum_list ((fun a => length (filter P (f a))) <$> l).
Proof.
  induction l as [|a l IH]; [reflexivity|].
  cbn [flat_map]. rewrite filter_app, length_app, IH. reflexivity.
Qed.

Lemma removable_no_h1 (forced : bool) (b : node) :
  removable_subtree forced b ->
  filter (fun x => has_name (py "h1") x = true) (b :: descendants b) = [].
Proof.
  intros [_ H].
  destruct (filter _ (b :: descendants b)) as [|x l] eqn:E; [reflexivity|].
  assert (Hx : x ∈ filter (fun x => has_name (py "h1") x = true)
                          (b :: descendants b)) by (rewrite E; left).
  apply list_elem_of_filter in Hx as [Hn Hx].
  destruct (H x) as [Hno _].
  - apply elem_of_cons in Hx as [->|Hx]; [left; reflexivity|right; exact Hx].
  - unfold is_name in Hno. congruence.
Qed.

Lemma thinned_h1 (forced : bool) (cs cs' : list node) :
  Forall (fun a => forall b,
            pruned (removable_element forced) a b ->
            length (filter (fun x => has_name (py "h1") x = true)
                           (b :: descendants b))
            = length (filter (fun x => has_name (py "h1") x = true)
                             (a :: descendants a))) cs ->
  thinned (pruned (removable_element forced)) (removable_element forced) cs cs' ->
  length (filter (fun x => has_name (py "h1") x = true)
            (flat_map (fun c => c :: descendants c) cs'))
  = length (filter (fun x => has_name (py "h1") x = true)
              (flat_map (fun c => c :: descendants c) cs)).
Proof.
  intros IH Hcs.
  induction Hcs as [|a b l l' Hab _ IHl|a b l l' Hab Hb _ IHl].
  - reflexivity.
  - apply Forall_cons in IH as [Ha IH]. cbn [flat_map].
    rewrite !filter_app, !length_app, (Ha b Hab), (IHl IH). reflexivity.
  - apply Forall_cons in IH as [Ha IH]. cbn [flat_map].
    rewrite (filter_app _ (a :: descendants a)), length_app, <- (Ha b Hab).
    destruct Hb as [_ Hb]. rewrite (removable_no_h1 forced b Hb).
    apply IHl, IH.
Qed.

Lemma pruned_h1 (forced : bool) (a b : node) :
  pruned (removable_element forced) a b ->
  length (filter (fun x => has_name (py "h1") x = true) (b :: descendants b))
  = length (filter (fun x => has_name (py "h1") x = true) (a :: descendants a)).
Proof.
  revert b. induction a as [s|nm attrs cs IH] using node_induction;
    intros b Hab.
  - inversion Hab; subst. reflexivity.
  - inversion Hab as [|? ? ? cs' Hcs]; subst.
    rewrite !filter_cons. cbn [has_name descendants].
    pose proof (thinned_h1 forced cs cs' IH Hcs) as Ht.
    destruct (decide (str_eqb nm (py "h1") = true)); cbn [length]; lia.
Qed.

(** X8. Every heading of level 1 survives: the pruned tree holds as
    many elements tagged [h1] as the tree. *)
Theorem main_content_keeps_h1 (coef : Q) (forced : bool) (fuel : nat)
    nm attrs (cs : list node) :
  _calc_depth (Tag nm attrs cs) < fuel ->
  exists result removed,
    main_content_soup coef forced fuel (Tag nm attrs cs)
    = Some (result, removed) /\
    length (find_all (py "h1") result)
    = length (find_all (py "h1") (Tag nm attrs cs)).
Proof.
  intros Hfuel.
  pose proof (main_content_soup_returns coef forced fuel _ Hfuel) as H.
  destruct (main_content_soup coef forced fuel (Tag nm attrs cs))
    as [[r l]|] eqn:E; [|destruct H].
  destruct (main_content_soup_pruned coef forced (removable_element forced)
              (decomposed_removable coef forced) _ _ _ _ _ _ E)
    as (cs' & -> & Hcs).
  exists (Tag nm attrs cs'), l. split; [reflexivity|].
  unfold find_all. cbn [descendants]. clear E H Hfuel.
  induction Hcs as [|a b k k' Hab _ IH]; [reflexivity|].
  cbn [flat_map]. rewrite !filter_app, !length_app, IH.
  rewrite (pruned_h1 forced a b Hab). reflexivity.
Qed.

Lemma main_content_keeps_h1_witness :
  exists result removed,
    main_content_soup (1 # 2) true 6 page_with_heading = Some (result, removed) /\
    length (find_all (py "h1") result)
    = length (find_all (py "h1") page_with_heading).
Proof.
  apply (main_content_keeps_h1 (1 # 2) true 6 (py "[document]") []).
  apply Nat.ltb_lt. reflexivity.
Defined.

(** ** C1: what the pruner never removes *)

(** C1, as the code has it. The pruner returns. Every subtree it
    decomposes is, as it is when it is decomposed, one whose root is not
    tagged [p], [h1] or [h2], that holds no node tagged [h1] and no node
    with an [h1] below it, and that, in forced mode, holds no node with
    more than 3 paragraphs below it. The nodes of the result and the nodes
    of the decomposed subtrees are as many as the nodes of the tree. And
    the result holds as many elements tagged [h1] as the tree: none leaves
    it. Nothing more is said of a node inside a decomposed subtree, nor
    of what a decomposed subtree was before the pruner worked inside
    it. *)
Theorem main_content_removals (coef : Q) (forced : bool) (soup : node)
    (fuel : nat) :
  _calc_depth soup < fuel ->
  exists result removed,
    main_content_soup coef forced fuel soup = Some (result, removed) /\
    size result + sum_list (size <$> removed) = size soup /\
    Forall (removable_subtree forced) removed /\
    length (find_all (py "h1") result) = length (find_all (py "h1") soup).
Proof.
  intros Hfuel.
  pose proof (main_content_soup_returns coef forced fuel soup Hfuel) as H.
  destruct (main_content_soup coef forced fuel soup) as [[r l]|] eqn:E;
    [|destruct H].
  exists r, l. split; [reflexivity|].
  split; [eapply main_content_soup_conserves, E|]. split; [apply H|].
  destruct soup as [t|nm attrs cs].
  - injection E as <- <-. reflexivity.
  - destruct (main_content_soup_pruned coef forced (removable_element forced)
                (decomposed_removable coef forced) _ _ _ _ _ _ E)
      as (cs' & -> & Hcs).
    unfold find_all. cbn [descendants]. clear E H Hfuel.
    induction Hcs as [|a b k k' Hab _ IH]; [reflexivity|].
    cbn [flat_map]. rewrite !filter_app, !length_app, IH.
    rewrite (pruned_h1 forced a b Hab). reflexivity.
Qed.

Lemma main_content_removals_witness :
  exists result removed,
    main_content_soup (1 # 2) true 6 page_with_heading
      = Some (result, removed) /\
    size result + sum_list (size <$> removed) = size page_with_heading /\
    Forall (removable_subtree true) removed /\
    length (find_all (py "h1") result)
    = length (find_all (py "h1") page_with_heading).
Proof.
  apply (main_content_removals (1 # 2) true page_with_heading 6).
  apply Nat.ltb_lt. reflexivity.
Defined.

(** C1 as stated fails: with coefficient 1/2 and forced mode, the [div]
    of the sample page is decomposed, and the paragraph inside it leaves
    the tree with it. *)
Lemma main_content_removes_paragraph :
  exists result removed r x,
    main_content_soup (1 # 2) true 7 page_with_shallow_div
      = Some (result, removed) /\
    r ∈ removed /\ within x r /\ is_name "p" x = true /\
    find_all (py "p") result = [].
Proof.
  eexists _, _, (el "div" [el "p" [tx "x"]]), (el "p" [tx "x"]).
  split; [vm_compute; reflexivity|].
  split; [left|].
  split; [right; left|].
  split; reflexivity.
Qed.

(** In forced mode a [div] with four paragraphs below it is kept as
    long as it has them: the [div] inside it, which holds one of them, is
    decomposed first, and the outer [div], left with three, is decomposed
    on a later turn. *)
Lemma main_content_removes_protected_div :
  3 < length (find_all (py "p")
                (el "div" [el "p" [tx "a"]; el "p" [tx "b"]; el "p" [tx "c"];
                           el "div" [el "p" [tx "d"]]])) /\
  main_content_soup (1 # 2) true 6 page_with_protected_div
  = Some (el "[document]"
            [el "body" [el "section" [el "a" [el "b" [tx "t"]]]]],
          [el "div" [el "p" [tx "d"]];
           el "div" [el "p" [tx "a"]; el "p" [tx "b"]; el "p" [tx "c"]]]).
Proof. split; [apply Nat.ltb_lt|]; reflexivity. Qed.

(** ** Thresholds that remove nothing *)

Lemma Q_of_nat_nonneg (n : nat) : (0 <= Q_of_nat n)%Q.
Proof. unfold Q_of_nat, Qle. simpl. lia. Qed.



Lemma thinned_nothing (cs cs' : list node) :
  Forall (fun a => forall b, pruned (fun _ => False) a b -> a = b) cs ->
  thinned (pruned (fun _ => False)) (fun _ => False) cs cs' -> cs = cs'.
Proof.
  intros IH Hcs.
  induction Hcs as [|a b l l' Hab _ IHl|a b l l' _ [] _ _]; [reflexivity|].
  apply Forall_cons in IH as [Ha IH]. f_equal; [apply Ha, Hab|apply IHl, IH].
Qed.

Lemma pruned_nothing (a b : node) : pruned (fun _ => False) a b -> a = b.
Proof.
  revert b. induction a as [s|nm attrs cs IH] using node_induction;
    intros b Hab.
  - inversion Hab; subst. reflexivity.
  - inversion Hab as [|? ? ? cs' Hcs]; subst. f_equal.
    apply thinned_nothing; assumption.
Qed.

Lemma below_zero_threshold (coef : Q) (forced : bool) (total : nat)
    (e : entry) :
  (coef <= 0)%Q -> removed_by forced (Q_of_nat total * coef)%Q e = false.
Proof.
  intros Hcoef. apply not_true_iff_false. intros H.
  apply removed_by_iff in H as [_ H].
  pose proof (Q_of_nat_nonneg total). pose proof (Q_of_nat_nonneg (value e)).
  nra.
Qed.

Lemma decomposed_never (coef : Q) (forced : bool) :
  (coef <= 0)%Q ->
  forall (cs : list node) (e : entry),
    e ∈ _calc_density (find_all_children cs) ->
    removed_by forced
      (Q_of_nat (sum_values (_calc_density (find_all_children cs))) * coef)%Q e
    = true ->
    False.
Proof.
  intros Hcoef cs e _ H. rewrite below_zero_threshold in H by exact Hcoef.
  discriminate H.
Qed.

(** X9. A coefficient of 0, or below, turns the pruner off: the
    threshold is then 0 at most, no depth is below it, and the tree is
    returned as it is. *)
Theorem main_content_zero_coefficient (coef : Q) (forced : bool) (fuel : nat)
    nm attrs (cs : list node) :
  (coef <= 0)%Q -> _calc_depth (Tag nm attrs cs) < fuel ->
  main_content_soup coef forced fuel (Tag nm attrs cs)
  = Some (Tag nm attrs cs, []).
Proof.
  intros Hcoef Hfuel.
  pose proof (main_content_soup_returns coef forced fuel _ Hfuel) as H.
  destruct (main_content_soup coef forced fuel (Tag nm attrs cs))
    as [[r l]|] eqn:E; [|destruct H].
  destruct (main_content_soup_pruned coef forced (fun _ => False)
              (decomposed_never coef forced Hcoef) _ _ _ _ _ _ E)
    as (cs' & -> & Hcs).
  assert (cs' = cs) as ->.
  { clear -Hcs. induction Hcs as [|a b k k' Hab _ IH]; [reflexivity|].
    f_equal; [symmetry; apply pruned_nothing, Hab|exact IH]. }
  rewrite (main_content_soup_unchanged _ _ _ _ _ E). reflexivity.
Qed.

Lemma main_content_zero_coefficient_witness :
  main_content_soup 0 true 7 page_with_shallow_div
  = Some (page_with_shallow_div, []).
Proof.
  apply (main_content_zero_coefficient 0 true 7 (py "[document]") []).
  - discriminate.
  - apply Nat.ltb_lt. reflexivity.
Defined.





(** ** The domain and the links *)

(** X11. A formatter made with a URL that starts with neither
    [http://] nor [https://] cannot prepare a text: [_domain_name] raises
    [AttributeError] on exactly those URLs, and [_get_urls] and
    [prepare_text] then raise it for every page, with or without
    anchors. *)
Theorem prepare_text_needs_scheme (MAX_LENGTH : nat)
    (re_sub : str -> str -> str -> exn + str) (domain : str) :
  (_domain_name domain = inl AttributeError <->
   startswith (py "http://") domain = false /\
   startswith (py "https://") domain = false) /\
  (_domain_name domain = inl AttributeError ->
   (forall urls, _get_urls urls domain = inl AttributeError) /\
   (forall soup,
      prepare_text MAX_LENGTH re_sub domain soup = inl AttributeError)).
Proof.
  split.
  - unfold _domain_name, match_scheme.
    destruct (startswith (py "https://") domain);
      destruct (startswith (py "http://") domain); split;
      try discriminate; try tauto; intros [H1 H2]; discriminate.
  - intros H.
    assert (Hg : forall urls, _get_urls urls domain = inl AttributeError).
    { intros urls. unfold _get_urls. rewrite H. reflexivity. }
    split; [exact Hg|].
    intros soup. unfold prepare_text. rewrite Hg. reflexivity.
Qed.

Lemma prepare_text_needs_scheme_witness :
  (forall urls, _get_urls urls (py "example.com/page") = inl AttributeError) /\
  (forall soup,
     prepare_text 80 (fun _ _ s => inr s) (py "example.com/page") soup
     = inl AttributeError).
Proof.
  apply (prepare_text_needs_scheme 80 (fun _ _ s => inr s)
           (py "example.com/page")).
  reflexivity.
Defined.

Lemma lookup_update_str (d : list (str * str)) (k v : str) :
  lookup_str k (update_str d k v) = Some v.
Proof.
  induction d as [|[k' v'] d IH]; cbn [update_str lookup_str].
  - rewrite str_eqb_refl. reflexivity.
  - destruct (str_eqb k' k) eqn:E; cbn [lookup_str]; rewrite E; auto.
Qed.

Lemma lookup_update_str_ne (d : list (str * str)) (k k' v : str) :
  k <> k' -> lookup_str k' (update_str d k v) = lookup_str k' d.
Proof.
  intros Hne. induction d as [|[k0 v0] d IH]; cbn [update_str lookup_str].
  - destruct (str_eqb k k') eqn:E; [|reflexivity].
    apply str_eqb_eq in E. contradiction.
  - destruct (str_eqb k0 k) eqn:E; cbn [lookup_str].
    + apply str_eqb_eq in E as ->.
      destruct (str_eqb k k') eqn:E'; [|reflexivity].
      apply str_eqb_eq in E'. contradiction.
    + rewrite IH. reflexivity.
Qed.

Lemma update_str_keys (d : list (str * str)) (k v : str) :
  ((fst <$> update_str d k v) = (fst <$> d)) \/
  ((k ∉ (fst <$> d)) /\ (fst <$> update_str d k v) = (fst <$> d) ++ [k]).
Proof.
  induction d as [|[k' v'] d IH]; cbn [update_str].
  - right. split; [inversion 1|reflexivity].
  - destruct (str_eqb k' k) eqn:E; [left; reflexivity|].
    destruct IH as [IH|[Hk IH]]; [left|right]; cbn; rewrite IH; [reflexivity|].
    split; [|reflexivity].
    intros H. apply elem_of_cons in H as [->|H]; [|contradiction].
    rewrite str_eqb_refl in E. discriminate E.
Qed.

Lemma update_str_length (d : list (str * str)) (k v : str) :
  length (update_str d k v) <= S (length d).
Proof.
  induction d as [|[k' v'] d IH]; cbn [update_str]; [reflexivity|].
  destruct (str_eqb k' k); cbn; lia.
Qed.

Lemma update_str_elem (d : list (str * str)) (k v k' v' : str) :
  (k', v') ∈ update_str d k v -> (k', v') = (k, v) \/ (k', v') ∈ d.
Proof.
  induction d as [|[k0 v0] d IH]; cbn [update_str]; intros H.
  - apply list_elem_of_singleton in H. auto.
  - destruct (str_eqb k0 k) eqn:E.
    + apply str_eqb_eq in E as ->.
      apply elem_of_cons in H as [H|H]; [left; exact H|right; right; exact H].
    + apply elem_of_cons in H as [->|H]; [right; left|].
      destruct (IH H) as [Hl|Hr]; [left; exact Hl|right; right; exact Hr].
Qed.

(** One turn of the loop of [_get_urls] on a dictionary. *)
Lemma get_urls_step (d : str) (r : list (str * str)) (u : node) :
  match href u with
  | inl e => inl e
  | inr h =>
      if negb (contains (py "http") h)
      then inr (update_str r (py "[" ++ d ++ h ++ py "]") (text u))
      else inr (update_str r (py "[" ++ h ++ py "]") (text u))
  end
  = match href u with
    | inl e => inl e
    | inr h => inr (update_str r (link d h) (text u))
    end.
Proof.
  destruct (href u) as [e|h]; [reflexivity|]. unfold link.
  destruct (contains (py "http") h); cbn [negb]; [reflexivity|].
  rewrite <- (app_assoc d h). reflexivity.
Qed.

Lemma get_urls_snoc (urls : list node) (u : node) (domain d : str)
    (r : list (str * str)) :
  _domain_name domain = inr d ->
  _get_urls (urls ++ [u]) domain = inr r ->
  exists r0 h,
    _get_urls urls domain = inr r0 /\ href u = inr h /\
    r = update_str r0 (link d h) (text u).
Proof.
  unfold _get_urls. intros -> H. rewrite fold_left_app in H. cbn [fold_left] in H.
  destruct (fold_left _ urls (inr [])) as [e|r0]; [discriminate|].
  rewrite get_urls_step in H.
  destruct (href u) as [e|h]; [discriminate|]. injection H as <-. eauto.
Qed.

Lemma get_urls_inr_prefix (us1 us2 : list node) (domain : str)
    (r : list (str * str)) :
  _get_urls (us1 ++ us2) domain = inr r ->
  exists r1, _get_urls us1 domain = inr r1.
Proof.
  unfold _get_urls. destruct (_domain_name domain) as [e|d]; [discriminate|].
  rewrite fold_left_app.
  destruct (fold_left _ us1 (inr [])) as [e|r1]; [|eauto].
  rewrite get_urls_loop_error by reflexivity. discriminate.
Qed.

(** X12. What the dictionary of links holds for an anchor. When
    [_get_urls] returns, the key made of the [href] of an anchor (the
    [href] itself if the letters [http] occur anywhere in it, the domain
    followed by it if not, between brackets) is mapped to the text of that
    anchor, unless a later anchor makes the same key: the last one
    wins. *)
Theorem get_urls_lookup (domain d : str) (before after : list node)
    (u : node) (h : str) (r : list (str * str)) :
  _domain_name domain = inr d ->
  href u = inr h ->
  (forall u' h', u' ∈ after -> href u' = inr h' -> link d h' <> link d h) ->
  _get_urls (before ++ u :: after) domain = inr r ->
  lookup_str (link d h) r = Some (text u).
Proof.
  intros Hd Hh. revert r.
  induction after as [|u' after IH] using rev_ind; intros r Hlast Hrun.
  - apply (get_urls_snoc _ _ _ _ _ Hd) in Hrun as (r0 & h0 & _ & Hh0 & ->).
    rewrite Hh in Hh0. injection Hh0 as <-. apply lookup_update_str.
  - change (before ++ u :: after ++ [u'])
      with (before ++ (u :: after) ++ [u']) in Hrun.
    rewrite app_assoc in Hrun.
    apply (get_urls_snoc _ _ _ _ _ Hd) in Hrun as (r0 & h' & Hr0 & Hh' & ->).
    rewrite lookup_update_str_ne.
    + apply IH; [|exact Hr0].
      intros u0 h0 Hu0. apply Hlast, elem_of_app. left. exact Hu0.
    + apply (Hlast u' h'); [apply elem_of_app; right; left|exact Hh'].
Qed.

Lemma get_urls_lookup_witness :
  lookup_str (link (py "https://example.com") (py "/contact"))
    [(py "[https://example.com/contact]", py "Contact");
     (py "[http://other.org/]", py "Other")]
  = Some (py "Contact").
Proof.
  apply (get_urls_lookup (py "https://example.com/news") (py "https://example.com")
           [Tag (py "a") [(py "href", py "/contact")] [tx "Us"]]
           [Tag (py "a") [(py "href", py "http://other.org/")] [tx "Other"]]
           (Tag (py "a") [(py "href", py "/contact")] [tx "Contact"])
           (py "/contact")).
  - reflexivity.
  - reflexivity.
  - intros u' h' Hu' Hh'.
    apply list_elem_of_singleton in Hu' as ->. injection Hh' as <-.
    discriminate.
  - reflexivity.
Defined.

(** X13. The dictionary of links has no two entries with the same
    key, has at most one entry for each anchor, and each of its entries is
    the key and the text of some anchor. *)
Theorem get_urls_dictionary (domain d : str) (urls : list node)
    (r : list (str * str)) :
  _domain_name domain = inr d ->
  _get_urls urls domain = inr r ->
  NoDup (fst <$> r) /\
  length r <= length urls /\
  (forall k v, (k, v) ∈ r ->
     exists u h, u ∈ urls /\ href u = inr h /\ k = link d h /\ v = text u).
Proof.
  intros Hd. revert r.
  induction urls as [|u urls IH] using rev_ind; intros r Hrun.
  - unfold _get_urls in Hrun. rewrite Hd in Hrun. injection Hrun as <-.
    split; [constructor|]. split; [reflexivity|]. intros k v H. inversion H.
  - apply (get_urls_snoc _ _ _ _ _ Hd) in Hrun as (r0 & h & Hr0 & Hh & ->).
    destruct (IH r0 Hr0) as (Hnd & Hlen & Hin).
    split; [|split].
    + destruct (update_str_keys r0 (link d h) (text u)) as [->|[Hk ->]];
        [exact Hnd|].
      apply NoDup_app. split; [exact Hnd|].
      split; [|apply NoDup_singleton].
      intros x Hx Hx'. apply list_elem_of_singleton in Hx' as ->. auto.
    + pose proof (update_str_length r0 (link d h) (text u)).
      rewrite length_app. cbn [length]. lia.
    + intros k v Hkv. apply update_str_elem in Hkv as [[= -> ->]|Hkv].
      * exists u, h. split; [apply elem_of_app; right; left|auto].
      * destruct (Hin k v Hkv) as (u0 & h0 & Hu0 & Hrest).
        exists u0, h0. split; [apply elem_of_app; left; exact Hu0|exact Hrest].
Qed.

Lemma get_urls_dictionary_witness :
  NoDup (fst <$> [(py "[https://example.com/contact]", py "Contact")]) /\
  length [(py "[https://example.com/contact]", py "Contact")]
  <= length [Tag (py "a") [(py "href", py "/contact")] [tx "Us"];
             Tag (py "a") [(py "href", py "/contact")] [tx "Contact"]] /\
  (forall k v, (k, v) ∈ [(py "[https://example.com/contact]", py "Contact")] ->
     exists u h,
       u ∈ [Tag (py "a") [(py "href", py "/contact")] [tx "Us"];
            Tag (py "a") [(py "href", py "/contact")] [tx "Contact"]] /\
       href u = inr h /\ k = link (py "https://example.com") h /\ v = text u).
Proof.
  apply (get_urls_dictionary (py "https://example.com/news")
           (py "https://example.com")).
  - reflexivity.
  - reflexivity.
Defined.

(** ** Characters that the text preparation keeps *)

Section ReplaceFilter.

Context (P : ascii -> Prop) `{!forall c, Decision (P c)}.

Lemma replace_from_filter (old new : list ascii) (k : nat) (s : list ascii) :
  old <> [] -> filter P new = filter P old ->
  filter P (flat_map (fun g => match g with Gap c => [c] | Match _ => new end)
                     (segments_from (literal old) k s))
  = filter P (drop k s).
Proof.
  intros Hold Hnew. revert k. induction s as [|c s IH]; intros k.
  - rewrite drop_nil. reflexivity.
  - cbn [segments_from]. destruct k as [|k]; [|apply IH].
    unfold literal at 1. destruct (startswith old (c :: s)) eqn:E.
    + cbn [flat_map]. rewrite filter_app, IH, Hnew.
      apply startswith_prefix in E as [rest E].
      destruct old as [|o old]; [easy|]. injection E as -> ->.
      replace (length (o :: old) - 1) with (length old) by (simpl; lia).
      rewrite drop_app_length.
      symmetry. apply (filter_app P (o :: old) rest).
    + cbn [flat_map drop]. rewrite filter_app, IH.
      symmetry. apply (filter_app P [c] s).
Qed.

Lemma replace_filter (old new s : list ascii) :
  filter P new = filter P old -> filter P (replace old new s) = filter P s.
Proof.
  intros Hnew. unfold replace. destruct old as [|o old]; cbv beta iota.
  - change (filter P []) with (@nil ascii) in Hnew.
    assert (Hs : filter P (flat_map (fun c => c :: new) s) = filter P s).
    { induction s as [|c s IH]; [reflexivity|]. cbn [flat_map].
      change ((c :: new) ++ flat_map (fun c => c :: new) s)
        with ([c] ++ new ++ flat_map (fun c => c :: new) s).
      rewrite !filter_app, Hnew, IH. symmetry. apply (filter_app P [c] s). }
    unfold str. rewrite filter_app, Hnew, Hs. reflexivity.
  - apply (replace_from_filter (o :: old) new 0 s); [easy|exact Hnew].
Qed.

Lemma filter_none (s : list ascii) : (forall c, c ∈ s -> ~ P c) -> filter P s = [].
Proof.
  intros Hs. destruct (filter P s) as [|x l] eqn:E; [reflexivity|].
  assert (Hx : x ∈ filter P s) by (rewrite E; left).
  apply list_elem_of_filter in Hx as [HP Hx]. destruct (Hs x Hx HP).
Qed.

End ReplaceFilter.

Lemma isspace_newline : isspace newline = true.
Proof. reflexivity. Qed.

Lemma nonspace_app (a b : str) : nonspace (a ++ b) = nonspace a ++ nonspace b.
Proof. apply filter_app. Qed.

Lemma nonspace_lstrip (s : str) : nonspace (lstrip s) = nonspace s.
Proof.
  induction s as [|c s IH]; [reflexivity|]. cbn [lstrip].
  destruct (isspace c) eqn:E; [|reflexivity].
  rewrite IH. unfold nonspace. rewrite (filter_cons _ c).
  rewrite decide_False by congruence. reflexivity.
Qed.

Lemma nonspace_strip (s : str) : nonspace (strip s) = nonspace s.
Proof.
  transitivity (nonspace (lstrip s)); [|apply nonspace_lstrip].
  unfold strip. generalize (lstrip s). intros t. unfold rstrip.
  transitivity (reverse (nonspace (lstrip (reverse t)))).
  { unfold nonspace, str. apply filter_reverse. }
  rewrite nonspace_lstrip.
  transitivity (reverse (reverse (nonspace t))).
  { f_equal. unfold nonspace, str. apply filter_reverse. }
  apply reverse_involutive.
Qed.

Lemma elem_of_lstrip (c : ascii) (s : str) : c ∈ lstrip s -> c ∈ s.
Proof.
  induction s as [|x s IH]; [easy|]. cbn [lstrip].
  destruct (isspace x); [|easy]. intros H. right. apply IH, H.
Qed.

Lemma elem_of_strip (c : ascii) (s : str) : c ∈ strip s -> c ∈ s.
Proof.
  unfold strip, rstrip. intros H.
  rewrite elem_of_reverse in H. apply elem_of_lstrip in H.
  rewrite elem_of_reverse in H. apply elem_of_lstrip, H.
Qed.

Lemma replace_newline (s : str) :
  replace [newline] [] s = filter (fun c => ascii_eqb c newline = false) s.
Proof.
  unfold replace, segments, str. induction s as [|c s IH]; [reflexivity|].
  cbn [segments_from]. unfold literal at 1. cbn [startswith length].
  rewrite andb_true_r, filter_cons.
  destruct (ascii_eqb newline c) eqn:E.
  - apply ascii_eqb_eq in E as <-. cbn [flat_map app].
    rewrite decide_False; [exact IH|].
    unfold ascii_eqb. rewrite Ascii.eqb_refl. discriminate.
  - cbn [flat_map app]. rewrite decide_True; [f_equal; exact IH|].
    apply not_true_iff_false. intros H. apply ascii_eqb_eq in H as ->.
    unfold ascii_eqb in E. rewrite Ascii.eqb_refl in E. discriminate E.
Qed.

Lemma nonspace_without_newlines (s : str) :
  nonspace (filter (fun c => ascii_eqb c newline = false) s) = nonspace s.
Proof.
  unfold nonspace, str. induction s as [|c s IH]; [reflexivity|].
  rewrite (filter_cons (fun c => ascii_eqb c newline = false)).
  destruct (decide (ascii_eqb c newline = false)) as [H|H].
  - rewrite !(filter_cons (fun c => isspace c = false)), IH. reflexivity.
  - apply not_false_iff_true, ascii_eqb_eq in H as ->.
    rewrite IH. rewrite (filter_cons _ newline).
    rewrite decide_False by (rewrite isspace_newline; discriminate).
    reflexivity.
Qed.

Lemma literal_pattern_absent (s : str) :
  "\"%char ∉ s -> replace (py "\s+") (py " ") s = s.
Proof.
  intros H. apply replace_absent; [easy|].
  apply (contains_elem _ _ "\"%char); [left|exact H].
Qed.

(** X14. The flattened text holds no line feed. When the text of the
    tree holds no backslash, it is that text without its line feeds and
    without the space characters at its ends, and nothing else: a run of
    space characters inside it stays as it is. *)
Theorem flatten_spec (soup : node) :
  (newline ∉ flatten soup) /\
  ("\"%char ∉ text soup ->
   flatten soup
   = strip (filter (fun c => ascii_eqb c newline = false) (text soup))).
Proof.
  unfold flatten. rewrite replace_newline. split.
  - intros Hin.
    eapply (filter_nil_not_elem_of (fun c => ascii_eqb c newline = true));
      [|apply ascii_eqb_eq; reflexivity|exact Hin].
    rewrite replace_filter by reflexivity.
    apply filter_none. intros c Hc Heq.
    apply elem_of_strip, list_elem_of_filter in Hc as [Hc _]. congruence.
  - intros H. apply literal_pattern_absent.
    intros Hc. apply H.
    apply elem_of_strip, list_elem_of_filter in Hc as [_ Hc]. exact Hc.
Qed.

Lemma flatten_spec_witness :
  flatten (el "div" [tx " a  b"; el "p" [NavigableString (newline :: py "c ")]])
  = strip (filter (fun c => ascii_eqb c newline = false)
             (text (el "div" [tx " a  b";
                              el "p" [NavigableString (newline :: py "c ")]]))).
Proof.
  apply (flatten_spec
           (el "div" [tx " a  b"; el "p" [NavigableString (newline :: py "c ")]])).
  intros H. repeat (apply elem_of_cons in H as [H|H]; [discriminate H|]).
  inversion H.
Defined.

Lemma findall_Match (text : str) (n : nat) :
  token text = Some n -> 0 < n -> text <> [] ->
  findall text = take n text :: findall (drop n text).
Proof.
  intros Ht Hn Hs. unfold findall.
  rewrite (segments_match _ _ _ Ht Hn Hs). reflexivity.
Qed.

Lemma findall_Gap (c : ascii) (text : str) :
  token (c :: text) = None -> findall (c :: text) = findall text.
Proof. intros Ht. unfold findall. rewrite segments_gap by exact Ht. reflexivity. Qed.

Lemma token_plain (c : ascii) (s : str) :
  plain c = true -> exists n, token (c :: s) = Some n.
Proof.
  intros Hc. unfold token. destruct (bracket_url (c :: s)); [eauto|].
  cbn [run]. destruct (isword c) eqn:Ew; [eauto|].
  unfold plain in Hc. rewrite Ew in Hc. cbn [orb] in Hc. rewrite Hc. eauto.
Qed.

Lemma findall_sublist_plain (n : nat) :
  forall text : str, length text <= n ->
    sublist (concat (findall text)) text /\
    (Forall (fun c => plain c = true) text -> concat (findall text) = text).
Proof.
  induction n as [|n IH]; intros [|c s] Hlen; simpl in Hlen; try lia;
    try (split; reflexivity).
  destruct (token (c :: s)) as [k|] eqn:Et.
  - destruct (token_shape_take _ _ Et) as [Hk _].
    rewrite (findall_Match _ _ Et Hk) by easy. cbn [concat].
    destruct (IH (drop k (c :: s))) as [IH1 IH2].
    { rewrite length_drop. simpl. lia. }
    split.
    + rewrite <- (take_drop k (c :: s)) at 3.
      apply sublist_app; [reflexivity|exact IH1].
    + intros Hp. rewrite IH2 by (apply Forall_drop, Hp). apply take_drop.
  - rewrite (findall_Gap _ _ Et). destruct (IH s) as [IH1 _]; [lia|].
    split; [apply sublist_cons, IH1|].
    intros Hp. apply Forall_cons in Hp as [Hc _].
    destruct (token_plain c s Hc) as [k Hk]. congruence.
Qed.

(** X15. The tokens of the text are pieces of it that follow one
    another: put end to end they are what is left of the text when the
    characters that start no token are taken out, no token is empty, and
    when every character of the text is a word character, a space
    character or one of [. , ! ? ; ( ) -], the tokens put end to end are
    the text. *)
Theorem findall_tokens (text : str) :
  sublist (concat (findall text)) text /\
  Forall (fun t => t <> []) (findall text) /\
  (Forall (fun c => plain c = true) text -> concat (findall text) = text).
Proof.
  destruct (findall_sublist_plain (length text) text (le_n _)) as [H1 H2].
  split; [exact H1|]. split; [|exact H2].
  eapply Forall_impl; [apply findall_shape|].
  intros t [[c ->]|[Hne _]]; [discriminate|exact Hne].
Qed.

Lemma findall_tokens_witness :
  concat (findall (py "Hello, world (again)!")) = py "Hello, world (again)!".
Proof.
  apply (findall_tokens (py "Hello, world (again)!")).
  repeat (apply Forall_cons; split; [reflexivity|]). apply Forall_nil_2.
Defined.

Lemma nonspace_newline_l (s : str) : nonspace ([newline] ++ s) = nonspace s.
Proof. reflexivity. Qed.

Lemma nonspace_newline_r (s : str) : nonspace (s ++ [newline]) = nonspace s.
Proof. rewrite nonspace_app. apply app_nil_r. Qed.

Lemma wrap_word_nonspace (MAX_LENGTH : nat) (state : nat * str) (word : str) :
  nonspace (wrap_word MAX_LENGTH state word).2
  = nonspace state.2 ++ nonspace word.
Proof.
  destruct state as [cnt out]. unfold wrap_word.
  set (w := if cnt =? 1 then lstrip word else word).
  assert (Hw : nonspace w = nonspace word).
  { subst w. destruct (cnt =? 1); [apply nonspace_lstrip|reflexivity]. }
  destruct (str_eqb w [newline]);
    destruct (MAX_LENGTH <? _); try destruct (_ =? MAX_LENGTH);
    cbn [snd];
    rewrite ?nonspace_app, ?nonspace_newline_r, ?Hw;
    cbn [nonspace]; rewrite ?app_nil_r; try reflexivity.
Qed.

Lemma wrap_words_nonspace (MAX_LENGTH : nat) (words : list str) :
  forall state,
    nonspace (fold_left (wrap_word MAX_LENGTH) words state).2
    = nonspace state.2 ++ nonspace (concat words).
Proof.
  induction words as [|w words IH]; intros state.
  - cbn. rewrite app_nil_r. reflexivity.
  - cbn [fold_left concat]. rewrite IH, wrap_word_nonspace, nonspace_app.
    rewrite app_assoc. reflexivity.
Qed.

Lemma reflow_nonspace (MAX_LENGTH : nat) (text : str) :
  nonspace (reflow MAX_LENGTH text) = nonspace (concat (findall text)).
Proof.
  unfold reflow.
  pose proof (wrap_words_nonspace MAX_LENGTH (findall text) (1, [])) as H.
  destruct (fold_left _ _ _) as [cnt out]. cbn [snd] in H.
  transitivity (nonspace out); [|exact H].
  apply replace_filter. reflexivity.
Qed.

(** X16. The reflow changes space characters only: the characters of
    its result that are not space characters are those of the tokens, in
    the same order; and when every character of the text is a word
    character, a space character or one of [. , ! ? ; ( ) -], they are
    those of the text. *)
Theorem reflow_keeps_characters (MAX_LENGTH : nat) (text : str) :
  nonspace (reflow MAX_LENGTH text) = nonspace (concat (findall text)) /\
  (Forall (fun c => plain c = true) text ->
   nonspace (reflow MAX_LENGTH text) = nonspace text).
Proof.
  split; [apply reflow_nonspace|].
  intros Hp. rewrite reflow_nonspace.
  destruct (findall_sublist_plain (length text) text (le_n _)) as [_ H].
  rewrite (H Hp). reflexivity.
Qed.

Lemma reflow_keeps_characters_witness :
  nonspace (reflow 10 (py "Hello, world (again)!"))
  = nonspace (py "Hello, world (again)!").
Proof.
  apply (reflow_keeps_characters 10 (py "Hello, world (again)!")).
  repeat (apply Forall_cons; split; [reflexivity|]). apply Forall_nil_2.
Defined.

Lemma wrap_paragraphs_filter (paragr : list node) (string : str) :
  filter (fun c => ascii_eqb c newline = false) (wrap_paragraphs paragr string)
  = filter (fun c => ascii_eqb c newline = false) string.
Proof.
  revert string. induction paragr as [|p ps IH]; intros string; [reflexivity|].
  rewrite wrap_paragraphs_cons, IH. unfold wrap_paragraphs. cbn [fold_left].
  destruct (str_eqb (text p) []); [reflexivity|].
  apply replace_filter. unfold str.
  rewrite !filter_app. cbn. rewrite app_nil_r. reflexivity.
Qed.

Lemma replace_from_sublist (old new : list ascii) (k : nat) (s : list ascii) :
  old <> [] -> sublist old new ->
  sublist (drop k s)
          (flat_map (fun g => match g with Gap c => [c] | Match _ => new end)
                    (segments_from (literal old) k s)).
Proof.
  intros Hold Hnew. revert k. induction s as [|c s IH]; intros k.
  - rewrite drop_nil. apply sublist_nil_l.
  - cbn [segments_from]. destruct k as [|k]; [|apply IH].
    unfold literal at 1. destruct (startswith old (c :: s)) eqn:E.
    + cbn [flat_map].
      apply startswith_prefix in E as [rest E].
      destruct old as [|o old]; [easy|]. injection E as -> ->.
      replace (length (o :: old) - 1) with (length old) by (simpl; lia).
      specialize (IH (length old)). rewrite drop_app_length in IH.
      apply (sublist_app (o :: old) new rest _ Hnew IH).
    + cbn [flat_map drop app]. apply sublist_skip, (IH 0).
Qed.

Lemma replace_sublist (old new s : list ascii) :
  sublist old new -> sublist s (replace old new s).
Proof.
  intros Hnew. unfold replace. destruct old as [|o old]; cbv beta iota.
  - apply sublist_inserts_l.
    induction s as [|c s IH]; [reflexivity|]. cbn [flat_map].
    change ((c :: new) ++ flat_map (fun c => c :: new) s)
      with (c :: new ++ flat_map (fun c => c :: new) s).
    apply sublist_skip, sublist_inserts_l, IH.
  - apply (replace_from_sublist (o :: old) new 0 s); [easy|exact Hnew].
Qed.

Lemma wrap_paragraphs_sublist (paragr : list node) (string : str) :
  sublist string (wrap_paragraphs paragr string).
Proof.
  revert string. induction paragr as [|p ps IH]; intros string; [reflexivity|].
  rewrite wrap_paragraphs_cons. etransitivity; [|apply IH].
  unfold wrap_paragraphs. cbn [fold_left].
  destruct (str_eqb (text p) []); [reflexivity|].
  apply replace_sublist. apply sublist_cons, sublist_inserts_r. reflexivity.
Qed.

(** X17. The paragraph step only adds line feeds: the string it was
    given is what is left of the string it returns when some line feeds
    are taken out of it. This holds as well for a paragraph that holds
    space characters only, whose trimmed text is empty and is then found
    before every character and at the end. *)
Theorem wrap_paragraphs_adds_newlines (paragr : list node) (string : str) :
  sublist string (wrap_paragraphs paragr string) /\
  filter (fun c => ascii_eqb c newline = false) (wrap_paragraphs paragr string)
  = filter (fun c => ascii_eqb c newline = false) string.
Proof.
  split; [apply wrap_paragraphs_sublist|apply wrap_paragraphs_filter].
Qed.

Lemma plain_newline : plain newline = true.
Proof. reflexivity. Qed.

Lemma wrap_paragraphs_plain (paragr : list node) (string : str) :
  Forall (fun c => plain c = true) string ->
  Forall (fun c => plain c = true) (wrap_paragraphs paragr string).
Proof.
  intros Hp. apply Forall_forall. intros c Hc.
  destruct (ascii_eqb c newline) eqn:E.
  - apply ascii_eqb_eq in E as ->. apply plain_newline.
  - assert (Hin : c ∈ filter (fun c => ascii_eqb c newline = false)
                           (wrap_paragraphs paragr string)).
    { apply list_elem_of_filter. auto. }
    rewrite wrap_paragraphs_filter in Hin.
    apply list_elem_of_filter in Hin as [_ Hin].
    rewrite Forall_forall in Hp. apply Hp, Hin.
Qed.

Lemma plain_no_backslash (s : str) :
  Forall (fun c => plain c = true) s -> "\"%char ∉ s.
Proof.
  intros Hp Hin. rewrite Forall_forall in Hp. specialize (Hp _ Hin).
  discriminate Hp.
Qed.

Lemma nonspace_flatten (soup : node) :
  "\"%char ∉ text soup -> nonspace (flatten soup) = nonspace (text soup).
Proof.
  intros H. unfold flatten. rewrite replace_newline.
  rewrite literal_pattern_absent.
  - rewrite nonspace_strip. apply nonspace_without_newlines.
  - intros Hc. apply H.
    apply elem_of_strip, list_elem_of_filter in Hc as [_ Hc]. exact Hc.
Qed.

Lemma flatten_plain (soup : node) :
  Forall (fun c => plain c = true) (text soup) ->
  Forall (fun c => plain c = true) (flatten soup).
Proof.
  intros Hp. pose proof (plain_no_backslash _ Hp) as Hb.
  unfold flatten. rewrite replace_newline, literal_pattern_absent.
  - apply Forall_forall. intros c Hc.
    apply elem_of_strip, list_elem_of_filter in Hc as [_ Hc].
    rewrite Forall_forall in Hp. apply Hp, Hc.
  - intros Hc. apply Hb.
    apply elem_of_strip, list_elem_of_filter in Hc as [_ Hc]. exact Hc.
Qed.

(** X18. A page without anchors, prepared by a formatter whose URL
    starts with [http://] or [https://]: [re.sub] is not called, the text
    is the reflow of the flattened text with its paragraphs wrapped, and
    when every character of the text of the page is a word character, a
    space character or one of [. , ! ? ; ( ) -], the prepared text holds
    the characters of the page that are not space characters, all of them
    and in their order. *)
Theorem prepare_text_without_anchors (MAX_LENGTH : nat)
    (re_sub : str -> str -> str -> exn + str) (domain : str) (soup : node) :
  startswith (py "http://") domain = true \/
  startswith (py "https://") domain = true ->
  find_all (py "a") soup = [] ->
  prepare_text MAX_LENGTH re_sub domain soup
  = inr (reflow MAX_LENGTH
           (wrap_paragraphs (find_all (py "p") soup) (flatten soup))) /\
  (Forall (fun c => plain c = true) (text soup) ->
   nonspace (reflow MAX_LENGTH
               (wrap_paragraphs (find_all (py "p") soup) (flatten soup)))
   = nonspace (text soup)).
Proof.
  intros Hscheme Ha. split.
  - unfold prepare_text, _get_urls, _domain_name, match_scheme. rewrite Ha.
    destruct (startswith (py "https://") domain); [reflexivity|].
    destruct Hscheme as [->|H]; [reflexivity|discriminate H].
  - intros Hp. rewrite reflow_nonspace.
    destruct (findall_sublist_plain _ _ (le_n
                (length (wrap_paragraphs (find_all (py "p") soup)
                                         (flatten soup))))) as [_ H].
    rewrite H by (apply wrap_paragraphs_plain, flatten_plain, Hp).
    rewrite <- (nonspace_without_newlines (wrap_paragraphs _ _)).
    rewrite wrap_paragraphs_filter, nonspace_without_newlines.
    apply nonspace_flatten, plain_no_backslash, Hp.
Qed.

Lemma prepare_text_without_anchors_witness :
  prepare_text 80 (fun _ _ s => inr s) (py "https://example.com/a") hello_page
  = inr (reflow 80 (wrap_paragraphs (find_all (py "p") hello_page)
                                    (flatten hello_page))) /\
  nonspace (reflow 80 (wrap_paragraphs (find_all (py "p") hello_page)
                                       (flatten hello_page)))
  = nonspace (text hello_page).
Proof.
  destruct (prepare_text_without_anchors 80 (fun _ _ s => inr s)
              (py "https://example.com/a") hello_page) as [H1 H2].
  - right. reflexivity.
  - reflexivity.
  - split; [exact H1|]. apply H2.
    repeat (apply Forall_cons; split; [reflexivity|]). apply Forall_nil_2.
Defined.

(** ** The file that is written *)

Lemma re_remove_gap (m : str -> option nat) (c : ascii) (s : str) :
  m (c :: s) = None -> re_remove m (c :: s) = c :: re_remove m s.
Proof. intros H. unfold re_remove. rewrite segments_gap by exact H. reflexivity. Qed.

Lemma re_remove_match (m : str -> option nat) (s : str) (n : nat) :
  m s = Some n -> 0 < n -> s <> [] -> re_remove m s = re_remove m (drop n s).
Proof.
  intros Hm Hn Hs. unfold re_remove. rewrite (segments_match _ _ n) by assumption.
  reflexivity.
Qed.

Lemma re_remove_none (m : str -> option nat) (s : str) :
  (forall i, m (drop i s) = None) -> re_remove m s = s.
Proof.
  induction s as [|c s IH]; intros H; [reflexivity|].
  rewrite re_remove_gap by (apply (H 0)). f_equal.
  apply IH. intros i. apply (H (S i)).
Qed.

Lemma startswith_straddle (pat r : str) (x : ascii) (u : str) :
  x ∉ pat -> startswith pat (r ++ x :: u) = true -> startswith pat r = true.
Proof.
  revert r. induction pat as [|p pat IH]; intros r Hx H; [reflexivity|].
  destruct r as [|a r]; cbn [app startswith] in *.
  - apply andb_true_iff in H as [H _]. apply ascii_eqb_eq in H as ->.
    destruct Hx. left.
  - apply andb_true_iff in H as [Ha H]. rewrite Ha. cbn [andb].
    apply (IH r); [|exact H]. intros Hin. apply Hx. right. exact Hin.
Qed.

Lemma startswith_contains (pat s : str) :
  startswith pat s = true -> contains pat s = true.
Proof. intros H. destruct s; cbn [contains]; rewrite H; reflexivity. Qed.

Lemma startswith_app_l (a b s : str) :
  startswith (a ++ b) s = true -> startswith a s = true.
Proof.
  intros H. apply startswith_prefix in H as [rest ->].
  rewrite <- app_assoc. apply startswith_app.
Qed.

Lemma not_contains_startswith (pat s : str) :
  contains pat s = false -> startswith pat s = false.
Proof.
  intros H. apply not_true_iff_false. intros Hs.
  apply startswith_contains in Hs. congruence.
Qed.

Lemma scheme_www_none (s : str) :
  startswith (py "http") s = false -> scheme_www s = None.
Proof.
  intros H. unfold scheme_www.
  destruct (startswith (py "https://") s) eqn:E1.
  { apply (startswith_app_l (py "http") (py "s://")) in E1. congruence. }
  destruct (startswith (py "http://") s) eqn:E2; [|reflexivity].
  apply (startswith_app_l (py "http") (py "://")) in E2. congruence.
Qed.

Lemma re_remove_scheme_absent (path : str) :
  contains (py "http") path = false -> re_remove scheme_www path = path.
Proof.
  intros H. apply re_remove_none. intros i.
  apply scheme_www_none, not_contains_startswith, contains_drop, H.
Qed.

Lemma scheme_www_http (rest : str) :
  scheme_www (py "http://" ++ rest)
  = Some (if startswith (py "www.") rest then 11 else 7).
Proof. reflexivity. Qed.

Lemma scheme_www_https (rest : str) :
  scheme_www (py "https://" ++ rest)
  = Some (if startswith (py "www.") rest then 12 else 8).
Proof. reflexivity. Qed.

Lemma re_remove_scheme (scheme www path : str) :
  scheme = py "http://" \/ scheme = py "https://" ->
  www = py "www." \/ (www = [] /\ startswith (py "www.") path = false) ->
  contains (py "http") path = false ->
  re_remove scheme_www (scheme ++ www ++ path) = path.
Proof.
  intros Hs Hw Hp.
  rewrite (re_remove_match _ _ (length scheme + length www)).
  - rewrite app_assoc, <- length_app, drop_app_length.
    apply re_remove_scheme_absent, Hp.
  - destruct Hs as [-> | ->]; destruct Hw as [-> | [-> Hw]];
      rewrite ?scheme_www_http, ?scheme_www_https;
      cbn [app]; rewrite ?Hw; reflexivity.
  - destruct Hs as [-> | ->]; simpl; lia.
  - destruct Hs as [-> | ->]; easy.
Qed.

Lemma html_or_slash_none (c : ascii) (r : str) :
  startswith (py "shtml") r = false -> startswith (py "html") r = false ->
  ascii_eqb c "/"%char && (str_eqb r [] || str_eqb r [newline]) = false ->
  html_or_slash (c :: r) = None.
Proof.
  intros H1 H2 H3. unfold html_or_slash. rewrite H1, H2, H3, !andb_false_r.
  reflexivity.
Qed.

Lemma no_shtml (r : str) :
  contains (py "html") r = false -> startswith (py "shtml") r = false.
Proof.
  intros H. apply not_true_iff_false. intros Hs.
  apply startswith_prefix in Hs as [rest ->].
  change (py "shtml" ++ rest) with ("s"%char :: py "html" ++ rest) in H.
  apply contains_tail, not_contains_startswith in H.
  rewrite startswith_app in H. discriminate H.
Qed.

Lemma not_in_html : ("."%char ∉ py "html") /\ ("/"%char ∉ py "html").
Proof.
  split; intros H;
    repeat (apply elem_of_cons in H as [H|H]; [discriminate H|]); inversion H.
Qed.

Lemma not_in_shtml : ("."%char ∉ py "shtml") /\ ("/"%char ∉ py "shtml").
Proof.
  split; intros H;
    repeat (apply elem_of_cons in H as [H|H]; [discriminate H|]); inversion H.
Qed.

Lemma html_or_slash_before (c : ascii) (r : str) (x : ascii) (u : str) :
  contains (py "html") r = false ->
  x ∉ py "html" -> x ∉ py "shtml" -> x <> newline ->
  html_or_slash (c :: r ++ x :: u) = None.
Proof.
  intros Hr Hx1 Hx2 Hx3. apply html_or_slash_none.
  - apply not_true_iff_false. intros H.
    apply startswith_straddle in H; [|exact Hx2].
    rewrite (no_shtml r Hr) in H. discriminate H.
  - apply not_true_iff_false. intros H.
    apply startswith_straddle in H; [|exact Hx1].
    rewrite (not_contains_startswith _ _ Hr) in H. discriminate H.
  - apply andb_false_iff. right.
    destruct r as [|a r]; cbn [app str_eqb orb].
    + apply andb_false_iff. left. apply not_true_iff_false. intros H.
      apply ascii_eqb_eq in H. contradiction.
    + apply andb_false_iff. right. destruct r; reflexivity.
Qed.

Lemma re_remove_html_plain (rest : str) :
  contains (py "html") rest = false ->
  last rest <> Some "/"%char -> last rest <> Some newline ->
  re_remove html_or_slash rest = rest.
Proof.
  induction rest as [|c r IH]; intros Hh H1 H2; [reflexivity|].
  pose proof (contains_tail _ _ _ Hh) as Hr.
  rewrite re_remove_gap.
  - f_equal. destruct r as [|a r]; [reflexivity|].
    apply IH; assumption.
  - apply html_or_slash_none;
      [apply no_shtml, Hr|apply not_contains_startswith, Hr|].
    destruct r as [|a [|b r]]; cbn [str_eqb orb andb].
    + rewrite andb_true_r. apply not_true_iff_false. intros H.
      apply ascii_eqb_eq in H as ->. apply H1. reflexivity.
    + rewrite andb_true_r, andb_false_iff. right.
      apply not_true_iff_false. intros H.
      apply ascii_eqb_eq in H as ->. apply H2. reflexivity.
    + rewrite !andb_false_r. reflexivity.
Qed.

Lemma re_remove_html_suffix (rest : str) :
  contains (py "html") rest = false ->
  re_remove html_or_slash (rest ++ py ".html") = rest.
Proof.
  induction rest as [|c r IH]; intros Hh; [reflexivity|].
  pose proof (contains_tail _ _ _ Hh) as Hr.
  cbn [app]. change (py ".html") with ("."%char :: py "html").
  rewrite re_remove_gap.
  - f_equal. apply IH, Hr.
  - apply html_or_slash_before;
      [exact Hr|apply not_in_html|apply not_in_shtml|discriminate].
Qed.

Lemma re_remove_slash_suffix (rest : str) :
  contains (py "html") rest = false ->
  re_remove html_or_slash (rest ++ py "/") = rest.
Proof.
  induction rest as [|c r IH]; intros Hh; [reflexivity|].
  pose proof (contains_tail _ _ _ Hh) as Hr.
  cbn [app]. change (py "/") with ["/"%char].
  rewrite re_remove_gap.
  - f_equal. apply IH, Hr.
  - apply html_or_slash_before;
      [exact Hr|apply not_in_html|apply not_in_shtml|discriminate].
Qed.

Lemma contains_straddle (pat r : str) (x : ascii) (u : str) :
  contains pat r = false -> x ∉ pat -> contains pat u = false ->
  contains pat (r ++ x :: u) = false.
Proof.
  intros Hr Hx Hu. induction r as [|a r IH].
  - cbn [app contains]. rewrite Hu, orb_false_r.
    apply not_true_iff_false. intros H.
    apply (startswith_straddle pat [] x u Hx) in H.
    apply startswith_contains in H. congruence.
  - cbn [app contains]. rewrite (IH (contains_tail _ _ _ Hr)), orb_false_r.
    apply not_true_iff_false. intros H.
    apply (startswith_straddle pat (a :: r) x u Hx) in H.
    apply startswith_contains in H. congruence.
Qed.

Lemma www_straddle (www path : str) (x : ascii) (u : str) :
  x ∉ py "www." ->
  www = py "www." \/ (www = [] /\ startswith (py "www.") path = false) ->
  www = py "www." \/
  (www = [] /\ startswith (py "www.") (path ++ x :: u) = false).
Proof.
  intros Hx [->|[-> Hw]]; [left; reflexivity|right].
  split; [reflexivity|]. apply not_true_iff_false. intros H.
  apply startswith_straddle in H; [congruence|exact Hx].
Qed.

Lemma www_html (path : str) :
  startswith (py "www.") path = false -> path <> py "www" ->
  startswith (py "www.") (path ++ py ".html") = false.
Proof.
  intros Hw Hne. apply not_true_iff_false. intros H.
  apply startswith_prefix in H as [rest H].
  destruct path as [|a [|b [|c [|d r]]]]; simpl in H; try discriminate H.
  - injection H as -> -> -> _. apply Hne. reflexivity.
  - injection H as -> -> -> -> _.
    change ("w"%char :: "w"%char :: "w"%char :: "."%char :: r)
      with (py "www." ++ r) in Hw.
    rewrite startswith_app in Hw. discriminate Hw.
Qed.

(** X19. The name of the file for a URL made of [http://] or
    [https://], possibly [www.], and a path in which neither [http] nor
    [html] occurs. It is the path; it is the path as well when [.html]
    follows the path in the URL, and when a slash does. *)
Theorem file_name_of_url (scheme www path : str) :
  scheme = py "http://" \/ scheme = py "https://" ->
  www = py "www." \/ (www = [] /\ startswith (py "www.") path = false) ->
  contains (py "http") path = false ->
  contains (py "html") path = false ->
  (last path <> Some "/"%char -> last path <> Some newline ->
   file_name (scheme ++ www ++ path) = path) /\
  (path <> py "www" ->
   file_name (scheme ++ www ++ path ++ py ".html") = path) /\
  file_name (scheme ++ www ++ path ++ py "/") = path.
Proof.
  intros Hs Hw Hp Hh. unfold file_name. split; [|split].
  - intros H1 H2. rewrite re_remove_scheme by assumption.
    apply re_remove_html_plain; assumption.
  - intros Hne.
    rewrite re_remove_scheme; [apply re_remove_html_suffix, Hh|exact Hs| |].
    + destruct Hw as [->|[-> Hw]]; [left; reflexivity|right].
      split; [reflexivity|apply www_html; assumption].
    + apply contains_straddle; [exact Hp| |reflexivity].
      intros H. repeat (apply elem_of_cons in H as [H|H]; [discriminate H|]).
      inversion H.
  - rewrite re_remove_scheme; [apply re_remove_slash_suffix, Hh|exact Hs| |].
    + apply www_straddle; [|exact Hw].
      intros H. repeat (apply elem_of_cons in H as [H|H]; [discriminate H|]).
      inversion H.
    + apply contains_straddle; [exact Hp| |reflexivity].
      intros H. repeat (apply elem_of_cons in H as [H|H]; [discriminate H|]).
      inversion H.
Qed.

Lemma file_name_of_url_witness :
  file_name (py "https://" ++ py "www." ++ py "example.com/news/article")
  = py "example.com/news/article" /\
  file_name (py "https://" ++ py "www." ++ py "example.com/news/article"
               ++ py ".html")
  = py "example.com/news/article" /\
  file_name (py "https://" ++ py "www." ++ py "example.com/news/article"
               ++ py "/")
  = py "example.com/news/article".
Proof.
  destruct (file_name_of_url (py "https://") (py "www.")
              (py "example.com/news/article")) as (H1 & H2 & H3).
  - right. reflexivity.
  - left. reflexivity.
  - reflexivity.
  - reflexivity.
  - split; [apply H1; discriminate|]. split; [apply H2; discriminate|exact H3].
Defined.

Lemma run_all (f : ascii -> bool) (s : str) :
  Forall (fun c => f c = true) s -> run f s = length s.
Proof.
  induction 1 as [|c s Hc _ IH]; [reflexivity|]. cbn [run]. rewrite Hc, IH.
  reflexivity.
Qed.

Lemma run_app_stop (f : ascii -> bool) (a : str) (x : ascii) (b : str) :
  Forall (fun c => f c = true) a -> f x = false ->
  run f (a ++ x :: b) = length a.
Proof.
  induction 1 as [|c s Hc _ IH]; intros Hx; cbn [app run length].
  - rewrite Hx. reflexivity.
  - rewrite Hc, IH by exact Hx. reflexivity.
Qed.

Lemma not_slash (c : ascii) :
  c <> "/"%char -> negb (ascii_eqb c "/"%char) = true.
Proof.
  intros H. apply negb_true_iff, not_true_iff_false. intros Hc.
  apply ascii_eqb_eq in Hc. contradiction.
Qed.

Lemma Forall_not_slash (s : str) :
  "/"%char ∉ s -> Forall (fun c => negb (ascii_eqb c "/"%char) = true) s.
Proof.
  intros H. apply Forall_forall. intros c Hc. apply not_slash.
  intros ->. contradiction.
Qed.

Lemma dirname_without_slash (p : str) : "/"%char ∉ p -> dirname p = [].
Proof.
  intros H. unfold dirname.
  rewrite run_all.
  - rewrite length_reverse, Nat.sub_diag. reflexivity.
  - apply Forall_not_slash. rewrite elem_of_reverse. exact H.
Qed.

Lemma dirname_join (d0 : str) (x : ascii) (name : str) :
  x <> "/"%char -> "/"%char ∉ name ->
  dirname ((d0 ++ [x]) ++ "/"%char :: name) = d0 ++ [x].
Proof.
  intros Hx Hname.
  assert (Hrun : run (fun c => negb (ascii_eqb c "/"%char))
                     (reverse ((d0 ++ [x]) ++ "/"%char :: name))
                 = length name).
  { rewrite reverse_app, reverse_cons, <- app_assoc. cbn [app].
    rewrite run_app_stop;
      [apply length_reverse
      |apply Forall_not_slash; rewrite elem_of_reverse; exact Hname
      |unfold ascii_eqb; rewrite Ascii.eqb_refl; reflexivity]. }
  unfold dirname. cbv zeta. rewrite Hrun.
  replace (length ((d0 ++ [x]) ++ "/"%char :: name) - length name)
    with (length ((d0 ++ [x]) ++ ["/"%char]))
    by (rewrite !length_app; simpl; lia).
  change ((d0 ++ [x]) ++ "/"%char :: name)
    with ((d0 ++ [x]) ++ ["/"%char] ++ name).
  rewrite (app_assoc (d0 ++ [x])), take_app_length.
  assert (Hall : forallb (fun c => ascii_eqb c "/"%char)
                         ((d0 ++ [x]) ++ ["/"%char]) = false).
  { apply not_true_iff_false. intros H. rewrite forallb_forall in H.
    specialize (H x). rewrite (proj1 (negb_true_iff _) (not_slash x Hx)) in H.
    discriminate H. apply in_app_iff. left. apply in_app_iff. right. left.
    reflexivity. }
  rewrite Hall, reverse_app, reverse_app. cbn [reverse rev_append app run].
  unfold ascii_eqb at 1. rewrite Ascii.eqb_refl.
  rewrite (proj1 (negb_true_iff _) (not_slash x Hx)). cbn [drop].
  change (x :: reverse d0) with ([x] ++ reverse d0).
  rewrite reverse_app, reverse_involutive. reflexivity.
Qed.

(** X20. A URL without a directory cannot be written. When the name of
    the file holds no slash (a URL made of a scheme and a host, with or
    without a slash behind the host), its directory is the empty path: if
    the file system holds no empty path and refuses to make one,
    [write_file] raises the error of [os.makedirs], and nothing is
    written. *)
Theorem write_file_without_directory (fs os_error : Type)
    (path_exists : fs -> str -> bool)
    (makedirs : fs -> str -> os_error + fs)
    (write_text : fs -> str -> str -> os_error + fs)
    (domain text : str) (disk : fs) (e : os_error) :
  "/"%char ∉ file_name domain ->
  path_exists disk [] = false ->
  makedirs disk [] = inl e ->
  dirname (file_name domain) = [] /\
  write_file fs os_error path_exists makedirs write_text domain text disk
  = inl e.
Proof.
  intros Hname Hex Hmk.
  pose proof (dirname_without_slash _ Hname) as Hd. split; [exact Hd|].
  unfold write_file. rewrite Hd, Hex. cbn [negb]. rewrite Hmk. reflexivity.
Qed.

Lemma write_file_without_directory_witness :
  dirname (file_name (py "https://example.com/")) = [] /\
  write_file (list (str * str)) str
    (fun disk p => negb (str_eqb p []))
    (fun disk p => if str_eqb p [] then inl (py "FileNotFoundError")
                   else inr disk)
    (fun disk p t => inr ((p, t) :: disk))
    (py "https://example.com/") (py "text") []
  = inl (py "FileNotFoundError").
Proof.
  apply (write_file_without_directory (list (str * str)) str
           (fun disk p => negb (str_eqb p []))
           (fun disk p => if str_eqb p [] then inl (py "FileNotFoundError")
                          else inr disk)
           (fun disk p t => inr ((p, t) :: disk))
           (py "https://example.com/") (py "text") []
           (py "FileNotFoundError")).
  - vm_compute. intros H.
    repeat (apply elem_of_cons in H as [H|H]; [discriminate H|]). inversion H.
  - reflexivity.
  - reflexivity.
Defined.

(** X21. A URL with a directory. For a URL made of [http://] or
    [https://], possibly [www.], a directory, a slash and a name without
    slash, where neither [http] nor [html] occurs behind the scheme, the
    directory is made when [os.path.exists] does not find it, the error of
    [os.makedirs] is raised if there is one, and the text is written to
    the file named by the directory, the name and [.txt]. *)
Theorem write_file_in_directory (fs os_error : Type)
    (path_exists : fs -> str -> bool)
    (makedirs : fs -> str -> os_error + fs)
    (write_text : fs -> str -> str -> os_error + fs)
    (scheme www d0 : str) (x : ascii) (name text : str) (disk : fs) :
  let dir := d0 ++ [x] in
  let path := dir ++ "/"%char :: name in
  scheme = py "http://" \/ scheme = py "https://" ->
  www = py "www." \/ (www = [] /\ startswith (py "www.") path = false) ->
  contains (py "http") path = false ->
  contains (py "html") path = false ->
  x <> "/"%char -> "/"%char ∉ name ->
  name <> [] -> last name <> Some newline ->
  write_file fs os_error path_exists makedirs write_text
             (scheme ++ www ++ path) text disk
  = if path_exists disk dir
    then write_text disk (path ++ py ".txt") text
    else match makedirs disk dir with
         | inl e => inl e
         | inr disk' => write_text disk' (path ++ py ".txt") text
         end.
Proof.
  intros dir path Hs Hw Hp Hh Hx Hname Hne Hnl.
  assert (Hlast : last path = last name).
  { subst path. change (dir ++ "/"%char :: name) with (dir ++ ["/"%char] ++ name).
    rewrite app_assoc. destruct name as [|a name] using rev_ind; [easy|].
    rewrite app_assoc, !last_snoc. reflexivity. }
  assert (Hfile : file_name (scheme ++ www ++ path) = path).
  { unfold file_name. rewrite re_remove_scheme by assumption.
    apply re_remove_html_plain; [exact Hh| |rewrite Hlast; exact Hnl].
    rewrite Hlast. intros Hl. apply Hname.
    destruct name as [|a name] using rev_ind; [easy|].
    rewrite last_snoc in Hl. injection Hl as ->.
    apply elem_of_app. right. left. }
  unfold write_file. rewrite Hfile.
  subst path dir. rewrite dirname_join by assumption.
  destruct (path_exists disk (d0 ++ [x])); reflexivity.
Qed.

Lemma write_file_in_directory_witness :
  write_file (list (str * str)) str
    (fun disk p => negb (str_eqb p []))
    (fun disk p => if str_eqb p [] then inl (py "FileNotFoundError")
                   else inr disk)
    (fun disk p t => inr ((p, t) :: disk))
    (py "https://" ++ py "www." ++ py "example.com/news") (py "text") []
  = inr [(py "example.com/news.txt", py "text")].
Proof.
  apply (write_file_in_directory (list (str * str)) str
           (fun disk p => negb (str_eqb p []))
           (fun disk p => if str_eqb p [] then inl (py "FileNotFoundError")
                          else inr disk)
           (fun disk p t => inr ((p, t) :: disk))
           (py "https://") (py "www.") (py "example.co") "m"%char (py "news")
           (py "text") []).
  - right. reflexivity.
  - left. reflexivity.
  - reflexivity.
  - reflexivity.
  - discriminate.
  - intros H.
    repeat (apply elem_of_cons in H as [H|H]; [discriminate H|]). inversion H.
  - discriminate.
  - discriminate.
Defined.
